(** * Ad-processing priority queue: a shallow embedding of the Go sources

    The development follows the package layout of the repository:

    - [GoInt]        machine integers of Go ([int] is 64 bits on the targets
                     the service is built for) and the clock types of [time];
    - [Ad]           internal/domain/ad (the aggregate and its transitions);
    - [Queue]        internal/domain/queue (queue items and their score);
    - [Redis]        the sorted-set commands of the Redis client that the
                     queue manager calls;
    - [Cache]        internal/infrastructure/cache/redis_queue_manager.go;
    - [Persistence]  the in-memory and the PostgreSQL ad repositories;
    - [Command]      internal/domain/command and the mock parser/validator.

    Mutating methods are modelled by explicit state passing: a method of
    [*Ad] returns the aggregate after the call together with the error it
    returned, a method of the queue manager returns the Redis database after
    the call together with its result. *)

From Stdlib Require Import ZArith Lia List Bool QArith.
From stdpp Require Import base option list sorting gmap fin_maps strings pretty.

Local Open Scope Z_scope.

(** ** Go integers and clocks *)

Module GoInt.

(** Two's complement wrap-around of a 64-bit [int]. *)
Definition wrap64 (z : Z) : Z := (z + 2 ^ 63) mod 2 ^ 64 - 2 ^ 63.

Definition add (a b : Z) : Z := wrap64 (a + b).
Definition sub (a b : Z) : Z := wrap64 (a - b).
Definition shl (a : Z) (n : Z) : Z := wrap64 (Z.shiftl a n).

Definition maxInt64 : Z := 2 ^ 63 - 1.
Definition minInt64 : Z := - 2 ^ 63.

(** [time.Duration] is a count of nanoseconds; [time.Time] is modelled by
    the number of nanoseconds since the Unix epoch. *)
Definition Duration := Z.
Definition Time := Z.

Definition Second : Duration := 1000000000.
Definition Minute : Duration := 60 * Second.

(** [t.Unix()]: whole seconds since the epoch (rounded down). *)
Definition Unix (t : Time) : Z := t / Second.

(** [time.Unix(sec, 0)]. *)
Definition UnixTime (sec : Z) : Time := sec * Second.

(** [t.Sub(u)] saturates at the largest and smallest [Duration]. *)
Definition Sub (t u : Time) : Duration :=
  Z.max minInt64 (Z.min maxInt64 (t - u)).

End GoInt.

(** ** internal/domain/ad *)

Module Ad.
Import GoInt.

Inductive AdStatus : Set :=
| AdStatusQueued
| AdStatusProcessing
| AdStatusCompleted
| AdStatusFailed.

#[global] Instance AdStatus_eq_dec : EqDecision AdStatus.
Proof. solve_decision. Defined.

(** [type Priority int]. *)
Definition Priority := Z.

Definition PriorityLow : Priority := 1.
Definition PriorityNormal : Priority := 3.
Definition PriorityHigh : Priority := 5.

Definition IsValid (p : Priority) : bool := (1 <=? p) && (p <=? 5).

(** The error values of errors.go that the aggregate returns. *)
Inductive AdError : Set :=
| ErrInvalidTitle
| ErrInvalidGameFamily
| ErrInvalidTargetAudience
| ErrInvalidPriority
| ErrInvalidStatusTransition
| ErrCannotChangePriorityAfterProcessing.

(** [AdID] wraps the textual form of a UUID. *)
Definition AdID := string.

Record Ad : Type := mkAd {
  id : AdID;
  title : string;
  gameFamily : string;
  targetAudience : list string;
  priority : Priority;
  maxWaitTime : Duration;
  status : AdStatus;
  createdAt : Time;
  processingStartedAt : option Time;
  processedAt : option Time;
  queuePosition : option Z;
  version : Z
}.

(** [StartProcessing]; [now] is the value of [time.Now()]. *)
Definition StartProcessing (now : Time) (a : Ad) : Ad * option AdError :=
  if negb (bool_decide (status a = AdStatusQueued)) then
    (a, Some ErrInvalidStatusTransition)
  else
    (mkAd (id a) (title a) (gameFamily a) (targetAudience a) (priority a)
          (maxWaitTime a) AdStatusProcessing (createdAt a)
          (Some now) (processedAt a) None (add (version a) 1),
     None).

Definition CompleteProcessing (now : Time) (a : Ad) : Ad * option AdError :=
  if negb (bool_decide (status a = AdStatusProcessing)) then
    (a, Some ErrInvalidStatusTransition)
  else
    (mkAd (id a) (title a) (gameFamily a) (targetAudience a) (priority a)
          (maxWaitTime a) AdStatusCompleted (createdAt a)
          (processingStartedAt a) (Some now) (queuePosition a)
          (add (version a) 1),
     None).

(** [FailProcessing] reads no clock: it assigns [status] and [version]
    only. *)
Definition FailProcessing (a : Ad) : Ad * option AdError :=
  if negb (bool_decide (status a = AdStatusProcessing)) then
    (a, Some ErrInvalidStatusTransition)
  else
    (mkAd (id a) (title a) (gameFamily a) (targetAudience a) (priority a)
          (maxWaitTime a) AdStatusFailed (createdAt a)
          (processingStartedAt a) (processedAt a) (queuePosition a)
          (add (version a) 1),
     None).

Definition ChangePriority (newPriority : Priority) (a : Ad)
  : Ad * option AdError :=
  if negb (IsValid newPriority) then
    (a, Some ErrInvalidPriority)
  else if bool_decide (status a = AdStatusProcessing)
          || bool_decide (status a = AdStatusCompleted) then
    (a, Some ErrCannotChangePriorityAfterProcessing)
  else
    (mkAd (id a) (title a) (gameFamily a) (targetAudience a) newPriority
          (maxWaitTime a) (status a) (createdAt a)
          (processingStartedAt a) (processedAt a) (queuePosition a)
          (add (version a) 1),
     None).

(** [WaitTime]; [now] is the clock read by [time.Since]. *)
Definition WaitTime (now : Time) (a : Ad) : Duration :=
  match processingStartedAt a with
  | Some started => Sub started (createdAt a)
  | None => Sub now (createdAt a)
  end.

Definition IsStarving (now : Time) (a : Ad) : bool :=
  bool_decide (status a = AdStatusQueued)
  && (maxWaitTime a <? WaitTime now a).

(** [CalculateEffectivePriority].  [Duration.Minutes()] is a [float64];
    the quotient [int(overrun.Minutes() / 5)] is the truncated quotient of
    the overrun by five minutes.  The two calls of [WaitTime] read the
    clock separately ([now1] inside [IsStarving], [now2] for the overrun). *)
Definition CalculateEffectivePriority
    (antiStarvationEnabled : bool) (now1 now2 : Time) (a : Ad) : Priority :=
  if negb antiStarvationEnabled then priority a
  else if IsStarving now1 a then
    let waitOverrun := sub (WaitTime now2 a) (maxWaitTime a) in
    let boost := Z.quot waitOverrun (5 * Minute) in
    let effectivePriority := add (priority a) boost in
    if PriorityHigh <? effectivePriority then PriorityHigh
    else effectivePriority
  else priority a.

(** [Factory.CreateAd]; [newID] is the fresh UUID of [NewAdID], [now] is
    [time.Now()]. *)
Definition CreateAd (newID : AdID) (now : Time) (title gameFamily : string)
    (targetAudience : list string) (priority : Priority)
    (maxWaitTime : Duration) : Ad + AdError :=
  if bool_decide (title = EmptyString) then inr ErrInvalidTitle
  else if bool_decide (gameFamily = EmptyString) then inr ErrInvalidGameFamily
  else if bool_decide (length targetAudience = 0%nat) then
    inr ErrInvalidTargetAudience
  else if negb (IsValid priority) then inr ErrInvalidPriority
  else
    inl (mkAd newID title gameFamily targetAudience priority maxWaitTime
              AdStatusQueued now None None None 1).

End Ad.

(** ** internal/domain/queue *)

Module Queue.
Import GoInt.

(** [calculateScore] of the domain package.  The score is a [float64];
    it is modelled by the exact rational it denotes. *)
Definition calculateScore (priority : Ad.Priority) (timestamp : Time) : Q :=
  let baseScore := (inject_Z priority * 1000000)%Q in
  let timestampBoost := (inject_Z (Unix timestamp) / 1000000000)%Q in
  (baseScore + timestampBoost)%Q.

Record QueueItem : Type := mkQueueItem {
  adID : Ad.AdID;
  priority : Ad.Priority;
  timestamp : Time;
  score : Q
}.

Definition NewQueueItem (i : Ad.AdID) (p : Ad.Priority) (t : Time)
  : QueueItem :=
  mkQueueItem i p t (calculateScore p t).

Definition UpdatePriority (newPriority : Ad.Priority) (qi : QueueItem)
  : QueueItem :=
  mkQueueItem (adID qi) newPriority (timestamp qi)
              (calculateScore newPriority (timestamp qi)).

Record QueueConfig : Type := mkQueueConfig {
  AntiStarvationEnabled : bool;
  MaxWaitTime : Duration;
  WorkerCount : Z;
  BatchSize : Z;
  ProcessingTimeout : Duration
}.

End Queue.

(** ** The sorted-set commands of Redis used by the queue manager

    A database maps a key to a sorted set, a sorted set maps a member to its
    score.  A missing key is an empty sorted set, and Redis drops a key when
    its last member is removed.  Scores are IEEE doubles in Redis and in the
    Go client; the scores the queue manager writes are integers far below
    2^53 in magnitude (a priority of at most 5 times 10^10, plus a time
    component below 10^10), on which its double arithmetic (products, sums
    and the quotient by 10^10 that [int] truncates) is exact, so scores are
    modelled by [Z].  The server is assumed to answer every command
    (connection failures are outside the model). *)

Module Redis.

Definition zset (key : string) (db : gmap string (gmap string Z))
  : gmap string Z :=
  default ∅ (db !! key).

Definition store (key : string) (s : gmap string Z)
    (db : gmap string (gmap string Z)) : gmap string (gmap string Z) :=
  if decide (s = ∅) then delete key db else <[key := s]> db.

Definition ZAdd (key member : string) (score : Z)
    (db : gmap string (gmap string Z)) : gmap string (gmap string Z) :=
  <[key := <[member := score]> (zset key db)]> db.

(** [ZSCORE]: [None] stands for the [redis.Nil] reply. *)
Definition ZScore (key member : string) (db : gmap string (gmap string Z))
  : option Z :=
  zset key db !! member.

(** [ZREM]: the database afterwards and the number of members removed. *)
Definition ZRem (key : string) (members : list string)
    (db : gmap string (gmap string Z))
  : gmap string (gmap string Z) * Z :=
  let s := zset key db in
  let s' := foldr delete s members in
  (store key s' db, Z.of_nat (size s) - Z.of_nat (size s')).

Definition ZCard (key : string) (db : gmap string (gmap string Z)) : Z :=
  Z.of_nat (size (zset key db)).

(** Score bounds of [ZCOUNT]: ["(x"] is exclusive, ["x"] inclusive. *)
Inductive bound : Set :=
| Incl (x : Z)
| Excl (x : Z)
| NegInf
| PosInf.

Definition above (lo : bound) (s : Z) : bool :=
  match lo with
  | Incl x => x <=? s
  | Excl x => x <? s
  | NegInf => true
  | PosInf => false
  end.

Definition below (hi : bound) (s : Z) : bool :=
  match hi with
  | Incl x => s <=? x
  | Excl x => s <? x
  | NegInf => false
  | PosInf => true
  end.

Definition inRange (lo hi : bound) (e : string * Z) : Prop :=
  above lo e.2 && below hi e.2.

#[global] Instance inRange_dec lo hi e : Decision (inRange lo hi e).
Proof. unfold inRange. apply _. Defined.

Definition ZCount (key : string) (lo hi : bound)
    (db : gmap string (gmap string Z)) : Z :=
  Z.of_nat (size (filter (inRange lo hi) (zset key db))).

(** Sorted sets are ordered by score, members of equal score by the
    bytes of the member. *)
Definition entry_leb (x y : string * Z) : bool :=
  (x.2 <? y.2)
  || ((x.2 =? y.2)
      && match String.compare x.1 y.1 with Gt => false | _ => true end).

Definition ascending (s : gmap string Z) : list (string * Z) :=
  merge_sort (λ x y, entry_leb x y) (map_to_list s).

(** Rank ranges: negative indices count from the end, the range is
    clipped to the set. *)
Definition slice {A : Type} (start stop : Z) (l : list A) : list A :=
  let n := Z.of_nat (length l) in
  let start := if start <? 0 then Z.max 0 (start + n) else start in
  let stop := if stop <? 0 then stop + n else stop in
  let stop := Z.min stop (n - 1) in
  if (stop <? start) || (n <=? start) then []
  else take (Z.to_nat (stop - start + 1)) (drop (Z.to_nat start) l).

Definition ZRangeWithScores (key : string) (start stop : Z)
    (db : gmap string (gmap string Z)) : list (string * Z) :=
  slice start stop (ascending (zset key db)).

Definition ZRevRangeWithScores (key : string) (start stop : Z)
    (db : gmap string (gmap string Z)) : list (string * Z) :=
  slice start stop (reverse (ascending (zset key db))).

End Redis.

(** ** internal/infrastructure/cache: the Redis queue manager *)

Module Cache.
Import GoInt.

Record RedisQueueManager : Type := mkRedisQueueManager {
  config : Queue.QueueConfig;
  shardCount : Z
}.

(** Errors built with [fmt.Errorf] by the manager. *)
Inductive QueueError : Type :=
| ErrNotFoundInQueue (adID : string)   (* "ad not found in queue: %s" *)
| ErrInvalidAdID (member : string).    (* "invalid ad ID in queue: %w" *)

(** What a call produces: a value, an error, or a run-time panic (the
    integer division by a zero [shardCount] in [getShardKey]). *)
Inductive result (A : Type) : Type :=
| Ok (a : A)
| Err (e : QueueError)
| Panic.
Arguments Ok {A} a.
Arguments Err {A} e.
Arguments Panic {A}.

(** The score multiplier of a priority band and the largest time stamp. *)
Definition P : Z := 10000000000.
Definition maxTime : Z := 9999999999.

(** The name of shard [i], [fmt.Sprintf("queue:shard:%d", i)]. *)
Definition shardName (i : Z) : string := "queue:shard:" +:+ pretty i.

(** The loop [for i := 0; i < r.shardCount; i++] visits these keys. *)
Definition shardKeys (r : RedisQueueManager) : list string :=
  shardName <$> seqZ 0 (shardCount r).

(** The hash loop of [getShardKey] and [hashAdID], on the runes of the
    id.  Ids are UUID strings, whose runes are their bytes. *)
Definition hashStep (hash : Z) (c : Ascii.ascii) : Z :=
  add (Z.of_N (Ascii.N_of_ascii c)) (sub (shl hash 5) hash).

Definition hashRunes (s : string) : Z :=
  foldl hashStep 0 (String.list_ascii_of_string s).

(** [getShardKey]; [None] is the division panic of [hash % 0]. *)
Definition getShardKey (r : RedisQueueManager) (adID : Ad.AdID)
  : option string :=
  let hash := hashRunes adID in
  if shardCount r =? 0 then None
  else
    let shard := Z.rem hash (shardCount r) in
    let shard := if shard <? 0 then sub 0 shard else shard in
    Some (shardName shard).

(** [calculateScore] of the manager, on the Unix seconds of the time
    stamp.  The [float64] product, difference and sum are exact as long as
    the values stay below 2^53 in magnitude, which they do for every
    priority and time stamp the service meets. *)
Definition calculateScore (priority : Ad.Priority) (timestamp : Time) : Z :=
  let baseScore := priority * 10000000000 in
  let maxTime := 9999999999 in
  let timestampScore := maxTime - Unix timestamp in
  baseScore + timestampScore.

(** The two decodings the manager applies to a stored score:
    [int(score / 10000000000)] truncates towards zero. *)
Definition priorityOf (score : Z) : Ad.Priority := Z.quot score 10000000000.

Definition timestampPartOf (score : Z) : Z :=
  score - priorityOf score * 10000000000.

(** [Enqueue]; [now] is [time.Now()].  The notification published on
    ["queue:notifications"] leaves the sorted sets alone. *)
Definition Enqueue (r : RedisQueueManager) (now : Time) (adID : Ad.AdID)
    (priority : Ad.Priority) (db : gmap string (gmap string Z))
  : gmap string (gmap string Z) * result unit :=
  match getShardKey r adID with
  | None => (db, Panic)
  | Some shardKey =>
      let score := calculateScore priority now in
      (Redis.ZAdd shardKey adID score db, Ok tt)
  end.

Section Dequeue.
(** [uuid.Parse] of github.com/google/uuid, as a validity test. *)
Variable validUUID : string → bool.

Definition ParseAdID (s : string) : option Ad.AdID :=
  if validUUID s then Some s else None.

(** One round of the peek loop: the best item so far with its shard. *)
Definition peekShard (db : gmap string (gmap string Z))
    (best : option ((string * Z) * string)) (shardKey : string)
  : option ((string * Z) * string) :=
  match Redis.ZRevRangeWithScores shardKey 0 0 db with
  | [] => best
  | top :: _ =>
      match best with
      | None => Some (top, shardKey)
      | Some (bestItem, _) =>
          if bestItem.2 <? top.2 then Some (top, shardKey) else best
      end
  end.

(** [Dequeue]: [Ok None] is the pair [(nil, nil)] of the source. *)
Definition Dequeue (r : RedisQueueManager) (now : Time)
    (db : gmap string (gmap string Z))
  : gmap string (gmap string Z) * result (option Queue.QueueItem) :=
  match foldl (peekShard db) None (shardKeys r) with
  | None => (db, Ok None)
  | Some (bestItem, bestShardKey) =>
      let db' := (Redis.ZRem bestShardKey [bestItem.1] db).1 in
      match ParseAdID bestItem.1 with
      | None => (db', Err (ErrInvalidAdID bestItem.1))
      | Some adID =>
          let priority := priorityOf bestItem.2 in
          (db', Ok (Some (Queue.NewQueueItem adID priority now)))
      end
  end.
End Dequeue.

(** [UpdatePriority].  [float64(int(currentScore/10000000000))] is the
    quotient truncated towards zero. *)
Definition UpdatePriority (r : RedisQueueManager) (adID : Ad.AdID)
    (newPriority : Ad.Priority) (db : gmap string (gmap string Z))
  : gmap string (gmap string Z) * result unit :=
  match getShardKey r adID with
  | None => (db, Panic)
  | Some shardKey =>
      match Redis.ZScore shardKey adID db with
      | None => (db, Err (ErrNotFoundInQueue adID))
      | Some currentScore =>
          let timestampPart :=
            currentScore - Z.quot currentScore 10000000000 * 10000000000 in
          let newScore := newPriority * 10000000000 + timestampPart in
          (Redis.ZAdd shardKey adID newScore db, Ok tt)
      end
  end.

(** [Remove]. *)
Definition Remove (r : RedisQueueManager) (adID : Ad.AdID)
    (db : gmap string (gmap string Z))
  : gmap string (gmap string Z) * result unit :=
  match getShardKey r adID with
  | None => (db, Panic)
  | Some shardKey =>
      let '(db', removed) := Redis.ZRem shardKey [adID] db in
      if removed =? 0 then (db', Err (ErrNotFoundInQueue adID))
      else (db', Ok tt)
  end.

(** [GetPosition]; with an error the source returns the integer [-1].
    The per-shard counts are added as [int]s; a count is bounded by the
    number of members the server holds, so the sum is written without
    wrap-around. *)
Definition GetPosition (r : RedisQueueManager) (adID : Ad.AdID)
    (db : gmap string (gmap string Z)) : result Z :=
  match getShardKey r adID with
  | None => Panic
  | Some shardKey =>
      match Redis.ZScore shardKey adID db with
      | None => Err (ErrNotFoundInQueue adID)
      | Some targetScore =>
          let position :=
            foldl (λ position shardKey,
                     position
                     + Redis.ZCount shardKey (Redis.Excl targetScore)
                                    Redis.PosInf db)
                  0 (shardKeys r) in
          Ok (position + 1)
      end
  end.

(** [GetSize]. *)
Definition GetSize (r : RedisQueueManager)
    (db : gmap string (gmap string Z)) : Z :=
  foldl (λ totalSize shardKey, totalSize + Redis.ZCard shardKey db)
        0 (shardKeys r).

(** The body of the inner loop of [ApplyAntiStarvation] for one item of
    shard [shardKey]; [now] is the clock read by [time.Since].
    [age.Minutes() / 5] is a [float64] quotient that [int] truncates: it
    is the truncated quotient of the age by five minutes. *)
Definition ageOf (now : Time) (score : Z) : Duration :=
  let priority := Z.quot score 10000000000 in
  let timestampPart := score - priority * 10000000000 in
  let maxTime := 9999999999 in
  let actualTimestamp := maxTime - timestampPart in
  let estimatedTimestamp := UnixTime actualTimestamp in
  Sub now estimatedTimestamp.

Definition boostedScore (cfg : Queue.QueueConfig) (now : Time) (score : Z)
  : option Z :=
  let priority := Z.quot score 10000000000 in
  let timestampPart := score - priority * 10000000000 in
  let age := ageOf now score in
  if (Queue.MaxWaitTime cfg <? age) && (priority <? Ad.PriorityHigh) then
    let boost := Z.quot age (5 * Minute) in
    let newPriority := add priority boost in
    let newPriority :=
      if Ad.PriorityHigh <? newPriority then Ad.PriorityHigh
      else newPriority in
    Some (newPriority * 10000000000 + timestampPart)
  else None.

Definition boostItem (cfg : Queue.QueueConfig) (clock : nat → Time)
    (shardKey : string)
    (st : gmap string (gmap string Z) * nat) (item : string * Z)
  : gmap string (gmap string Z) * nat :=
  let '(db, tick) := st in
  match boostedScore cfg (clock tick) item.2 with
  | Some newScore => (Redis.ZAdd shardKey item.1 newScore db, S tick)
  | None => (db, S tick)
  end.

(** [ApplyAntiStarvation].  [clock n] is the time read for the [n]-th
    item the pass visits. *)
Definition ApplyAntiStarvation (r : RedisQueueManager) (clock : nat → Time)
    (db : gmap string (gmap string Z)) : gmap string (gmap string Z) :=
  if negb (Queue.AntiStarvationEnabled (config r)) then db
  else
    (foldl (λ st shardKey,
              let items := Redis.ZRangeWithScores shardKey 0 (-1) st.1 in
              foldl (boostItem (config r) clock shardKey) st items)
           (db, 0%nat) (shardKeys r)).1.

End Cache.

(** ** internal/infrastructure/persistence *)

Module Persistence.

(** *** The in-memory repository

    [ads map[string]*ad.Ad]: the map holds pointers, so a method called
    on a stored aggregate updates the stored value. *)

Inductive RepoError : Type :=
| ErrUpdatePriority (id : string) (cause : Ad.AdError)
    (* "failed to update priority for ad %s: %w" *)
| ErrStorage (stmt : nat).
    (* a statement of a transaction rejected by the database *)

Definition Save (adEntity : Ad.Ad) (ads : gmap string Ad.Ad)
  : gmap string Ad.Ad :=
  <[Ad.id adEntity := adEntity]> ads.

Definition FindByID (id : Ad.AdID) (ads : gmap string Ad.Ad)
  : option Ad.Ad :=
  ads !! id.

(** [MemoryAdRepository.UpdatePriorityBatch]: the loop returns at the
    first error of [ChangePriority]. *)
Fixpoint UpdatePriorityBatch (ids : list Ad.AdID)
    (newPriority : Ad.Priority) (ads : gmap string Ad.Ad)
  : gmap string Ad.Ad * option RepoError :=
  match ids with
  | [] => (ads, None)
  | id :: rest =>
      match ads !! id with
      | Some adEntity =>
          let '(adEntity', err) := Ad.ChangePriority newPriority adEntity in
          let ads' := <[id := adEntity']> ads in
          match err with
          | Some e => (ads', Some (ErrUpdatePriority id e))
          | None => UpdatePriorityBatch rest newPriority ads'
          end
      | None => UpdatePriorityBatch rest newPriority ads
      end
  end.

(** *** The PostgreSQL repository

    The table [ads] is keyed by [ad_id]; a row carries the columns of the
    aggregate.  [version] is an [INTEGER] column and [priority] carries
    the constraint [CHECK (priority BETWEEN 1 AND 5)]: an [UPDATE] that
    would break either is rejected by the server. *)

Definition maxInteger : Z := 2147483647.

(** [UPDATE ads SET priority = $1, version = version + 1
     WHERE ad_id = $2 AND status = 'queued'] inside the transaction:
    [None] when the server rejects the statement. *)
Definition execUpdate (newPriority : Ad.Priority) (id : Ad.AdID)
    (tx : gmap string Ad.Ad) : option (gmap string Ad.Ad) :=
  match tx !! id with
  | Some row =>
      if bool_decide (Ad.status row = Ad.AdStatusQueued) then
        if Ad.IsValid newPriority && (Ad.version row + 1 <=? maxInteger)
        then
          Some (<[id := Ad.mkAd (Ad.id row) (Ad.title row)
                          (Ad.gameFamily row) (Ad.targetAudience row)
                          newPriority (Ad.maxWaitTime row) (Ad.status row)
                          (Ad.createdAt row) (Ad.processingStartedAt row)
                          (Ad.processedAt row) (Ad.queuePosition row)
                          (Ad.version row + 1)]> tx)
        else None
      else Some tx
  | None => Some tx
  end.

(** The loop over [ids] inside the transaction.  [down n] tells whether
    the connection fails at the [n]-th statement of the transaction
    (statement 0 is [BEGIN], the last one is [COMMIT]). *)
Fixpoint execAll (down : nat → bool) (n : nat) (ids : list Ad.AdID)
    (newPriority : Ad.Priority) (tx : gmap string Ad.Ad)
  : gmap string Ad.Ad * nat * option RepoError :=
  match ids with
  | [] => (tx, n, None)
  | id :: rest =>
      if down n then (tx, n, Some (ErrStorage n))
      else
        match execUpdate newPriority id tx with
        | None => (tx, n, Some (ErrStorage n))
        | Some tx' => execAll down (S n) rest newPriority tx'
        end
  end.

(** [PostgresAdRepository.UpdatePriorityBatch]: the deferred
    [tx.Rollback()] discards the work of the transaction unless
    [tx.Commit()] succeeded. *)
Definition PostgresUpdatePriorityBatch (down : nat → bool)
    (ids : list Ad.AdID) (newPriority : Ad.Priority)
    (table : gmap string Ad.Ad)
  : gmap string Ad.Ad * option RepoError :=
  match ids with
  | [] => (table, None)
  | _ =>
      if down 0%nat then (table, Some (ErrStorage 0))
      else
        match execAll down 1 ids newPriority table with
        | (_, n, Some e) => (table, Some e)
        | (tx, n, None) =>
            if down n then (table, Some (ErrStorage n))
            else (tx, None)
        end
  end.

End Persistence.

(** ** internal/domain/command, the mock parser and the command service *)

Module Command.
Import GoInt.

Inductive CommandType : Set :=
| CommandTypeQueueModification
| CommandTypeSystemConfiguration
| CommandTypeStatusQuery
| CommandTypeAnalytics.

Inductive CommandStatus : Set :=
| CommandStatusPending
| CommandStatusExecuting
| CommandStatusExecuted
| CommandStatusFailed
| CommandStatusInvalid.

(** The dynamic values ([interface{}]) a parameter map holds.  A
    [float64] (what a JSON number decodes to) is modelled by the rational
    it denotes. *)
Inductive Value : Type :=
| VInt (i : Z)
| VFloat (f : Q)
| VString (s : string)
| VBool (b : bool)
| VNil.

Record Command : Type := mkCommand {
  id : string;
  originalText : string;
  commandType : CommandType;
  intent : string;
  parameters : gmap string Value;
  status : CommandStatus;
  result : option (gmap string Value);
  error : string;
  createdAt : Time;
  executedAt : option Time;
  executionTime : option Duration
}.

(** [NewCommand]; [newID] is the fresh UUID, [now] is [time.Now()]. *)
Definition NewCommand (newID : string) (now : Time) (originalText : string)
    (commandType : CommandType) (intent : string)
    (parameters : gmap string Value) : Command :=
  mkCommand newID originalText commandType intent parameters
            CommandStatusPending None EmptyString now None None.

Definition StartExecution (c : Command) : Command :=
  mkCommand (id c) (originalText c) (commandType c) (intent c)
            (parameters c) CommandStatusExecuting (result c) (error c)
            (createdAt c) (executedAt c) (executionTime c).

Definition FailExecution (now : Time) (errorMsg : string) (c : Command)
  : Command :=
  mkCommand (id c) (originalText c) (commandType c) (intent c)
            (parameters c) CommandStatusFailed (result c) errorMsg
            (createdAt c) (Some now) (Some (Sub now (createdAt c))).

Definition CompleteExecution (now : Time) (res : gmap string Value)
    (c : Command) : Command :=
  mkCommand (id c) (originalText c) (commandType c) (intent c)
            (parameters c) CommandStatusExecuted (Some res) (error c)
            (createdAt c) (Some now) (Some (Sub now (createdAt c))).

Definition MarkInvalid (reason : string) (c : Command) : Command :=
  mkCommand (id c) (originalText c) (commandType c) (intent c)
            (parameters c) CommandStatusInvalid (result c) reason
            (createdAt c) (executedAt c) (executionTime c).

Definition GetStringParameter (key : string) (c : Command)
  : string * bool :=
  match parameters c !! key with
  | Some (VString str) => (str, true)
  | _ => (EmptyString, false)
  end.

(** [GetIntParameter]: an [int] is returned as it is, a [float64] is
    truncated towards zero by the conversion [int(f)]. *)
Definition GetIntParameter (key : string) (c : Command) : Z * bool :=
  match parameters c !! key with
  | Some (VInt i) => (i, true)
  | Some (VFloat f) => (Z.quot (Qnum f) (Z.pos (Qden f)), true)
  | _ => (0, false)
  end.

Definition GetPriorityParameter (key : string) (c : Command)
  : Ad.Priority * bool :=
  let '(i, exists_) := GetIntParameter key c in
  if exists_ then
    if Ad.IsValid i then (i, true) else (0, false)
  else (0, false).

(** *** mock_command_parser.go *)

(** [ValidateCommand]: [None] is the [nil] error, [Some msg] the error
    built by [fmt.Errorf]. *)
Definition ValidateCommand (cmd : Command) : option string :=
  if String.eqb (intent cmd) "change_priority_by_game_family" then
    if negb (GetPriorityParameter "priority" cmd).2 then
      Some "missing or invalid priority parameter"
    else if negb (GetStringParameter "gameFamily" cmd).2 then
      Some "missing gameFamily parameter"
    else None
  else if String.eqb (intent cmd) "change_priority_by_age" then
    if negb (GetPriorityParameter "priority" cmd).2 then
      Some "missing or invalid priority parameter"
    else if negb (GetIntParameter "minutes" cmd).2 then
      Some "missing minutes parameter"
    else None
  else if String.eqb (intent cmd) "show_next_ads" then
    let '(count, exists_) := GetIntParameter "count" cmd in
    if negb exists_ || (count <=? 0) then
      Some "missing or invalid count parameter"
    else None
  else if String.eqb (intent cmd) "waiting_ads" then
    if negb (GetIntParameter "minutes" cmd).2 then
      Some "missing minutes parameter"
    else None
  else if String.eqb (intent cmd) "set_max_wait_time" then
    if negb (GetIntParameter "seconds" cmd).2 then
      Some "missing seconds parameter"
    else None
  else None.

(** The regular expression of [parseSetMaxWaitTime],
    [set maximum wait time to (\d+) seconds?], searched from the left:
    the literal prefix, the longest run of decimal digits (a shorter run
    is followed by a digit, never by the blank the pattern asks for), and
    the literal [" second"]; the optional [s] always matches. *)
Fixpoint stripPrefix (p s : string) : option string :=
  match p with
  | EmptyString => Some s
  | String a p' =>
      match s with
      | String b s' => if Ascii.eqb a b then stripPrefix p' s' else None
      | EmptyString => None
      end
  end.

Definition isDigit (c : Ascii.ascii) : bool :=
  let n := Ascii.N_of_ascii c in ((48 <=? n) && (n <=? 57))%N.

Fixpoint spanDigits (s : string) : string * string :=
  match s with
  | String c s' =>
      if isDigit c then
        let '(ds, rest) := spanDigits s' in (String c ds, rest)
      else (EmptyString, s)
  | EmptyString => (EmptyString, EmptyString)
  end.

Definition matchHere (s : string) : option string :=
  match stripPrefix "set maximum wait time to " s with
  | None => None
  | Some rest =>
      let '(ds, rest') := spanDigits rest in
      match ds with
      | EmptyString => None
      | _ =>
          match stripPrefix " second" rest' with
          | Some _ => Some ds
          | None => None
          end
      end
  end.

(** [re.FindStringSubmatch(text)], reduced to the captured group. *)
Fixpoint findSubmatch (text : string) : option string :=
  match matchHere text with
  | Some ds => Some ds
  | None =>
      match text with
      | String _ text' => findSubmatch text'
      | EmptyString => None
      end
  end.

(** [strconv.Atoi] on a run of decimal digits: the value, or [None] for
    the range error of a number that does not fit an [int]. *)
Definition digitsValue (ds : string) : Z :=
  foldl (λ acc c, acc * 10 + (Z.of_N (Ascii.N_of_ascii c) - 48)) 0
        (String.list_ascii_of_string ds).

Definition Atoi (ds : string) : option Z :=
  let v := digitsValue ds in
  if v <=? maxInt64 then Some v else None.

(** [parseSetMaxWaitTime]: [inr msg] is the error of the source. *)
Definition parseSetMaxWaitTime (newID : string) (now : Time)
    (text : string) : Command + string :=
  match findSubmatch text with
  | None => inr "invalid max wait time command"
  | Some ds =>
      match Atoi ds with
      | None => inr "invalid seconds value"
      | Some seconds =>
          inl (NewCommand newID now text CommandTypeSystemConfiguration
                          "set_max_wait_time"
                          {[ "seconds" := VInt seconds ]})
      end
  end.

(** *** command_service.go and the executor *)

(** [MockCommandExecutor.CanExecute]. *)
Definition supportedIntents : list string :=
  [ "change_priority_by_game_family"; "change_priority_by_age";
    "show_next_ads"; "queue_distribution"; "waiting_ads";
    "enable_starvation_mode"; "set_max_wait_time" ].

Definition CanExecute (cmd : Command) : bool :=
  bool_decide (intent cmd ∈ supportedIntents).

(** [MockCommandExecutor.executeSetMaxWaitTime]: the executor reports
    the value back and completes the command. *)
Definition executeSetMaxWaitTime (now : Time) (cmd : Command)
  : Command * option string :=
  let seconds := (GetIntParameter "seconds" cmd).1 in
  let res : gmap string Value :=
    {[ "maxWaitTimeSeconds" := VInt seconds;
       "maxWaitTime" := VString (pretty seconds +:+ " seconds");
       "message" := VString ("Maximum wait time updated to "
                             +:+ pretty seconds +:+ " seconds") ]} in
  (CompleteExecution now res cmd, None).

Section Service.
(** The [Executor] interface the service is given: [CanExecute], and
    [Execute] as the command after the call with the error returned. *)
Variable Executor_CanExecute : Command → bool.
Variable Executor_Execute : Command → Command * option string.

(** [CommandService.ExecuteCommand] from the point where the text has been
    parsed into [cmd]: the command as last saved to the repository.  [now]
    is read by [FailExecution]. *)
Definition ExecuteParsed (now : Time) (cmd : Command) : Command :=
  match ValidateCommand cmd with
  | Some err => MarkInvalid err cmd
  | None =>
      if negb (Executor_CanExecute cmd) then
        MarkInvalid "Command cannot be executed" cmd
      else
        let cmd := StartExecution cmd in
        match Executor_Execute cmd with
        | (cmd', Some err) => FailExecution now err cmd'
        | (cmd', None) => cmd'
        end
  end.
End Service.

End Command.


(** ** The rest of redis_queue_manager.go *)

Module RedisQueue.
Import GoInt.

(** [GetSizeByPriority]: for each priority 1..5 the members of every shard
    whose score lies between [priority * 10^10] and
    [(priority + 1) * 10^10 - 1], both bounds included.  The result is the
    [map[ad.Priority]int64] of the source. *)
Definition GetSizeByPriority (r : Cache.RedisQueueManager)
    (db : gmap string (gmap string Z)) : gmap Z Z :=
  foldl (λ sizes priority,
           let minScore := priority * 10000000000 in
           let maxScore := (priority + 1) * 10000000000 - 1 in
           let totalCount :=
             foldl (λ totalCount shardKey,
                      totalCount
                      + Redis.ZCount shardKey (Redis.Incl minScore)
                                     (Redis.Incl maxScore) db)
                   0 (Cache.shardKeys r) in
           <[priority := totalCount]> sizes)
        ∅ (seqZ 1 5).

(** The sort of [GetNext] and [DequeueBatch]:
    [for i { for j := i + 1 { if a[i].Score < a[j].Score { swap } } }]. *)
Definition swapIfLess (i j : nat) (allItems : list (string * Z))
  : list (string * Z) :=
  match allItems !! i, allItems !! j with
  | Some x, Some y =>
      if x.2 <? y.2 then <[j := x]> (<[i := y]> allItems) else allItems
  | _, _ => allItems
  end.

Definition sortByScore (allItems : list (string * Z)) : list (string * Z) :=
  let n := length allItems in
  foldl (λ a i, foldl (λ a j, swapIfLess i j a) a (seq (S i) (n - S i)))
        allItems (seq 0 n).

(** The items both functions collect: the top [count] entries of every
    shard, shard after shard. *)
Definition collect (r : Cache.RedisQueueManager) (count : Z)
    (db : gmap string (gmap string Z)) : list (string * Z) :=
  mjoin ((λ shardKey, Redis.ZRevRangeWithScores shardKey 0 (sub count 1) db)
           <$> Cache.shardKeys r).

(** The conversion loop [for i := 0; i < count && i < len(allItems); i++]:
    a member that is no UUID is skipped; [clock i] is the [time.Now()] of
    round [i]. *)
Definition toQueueItems (validUUID : string → bool) (clock : nat → Time)
    (count : Z) (allItems : list (string * Z)) : list Queue.QueueItem :=
  omap id
    (imap (λ i item,
             match Cache.ParseAdID validUUID item.1 with
             | Some adID =>
                 Some (Queue.NewQueueItem adID (Cache.priorityOf item.2)
                                          (clock i))
             | None => None
             end)
          (take (Z.to_nat count) allItems)).

(** [GetNext]. *)
Definition GetNext (validUUID : string → bool)
    (r : Cache.RedisQueueManager) (clock : nat → Time) (count : Z)
    (db : gmap string (gmap string Z)) : list Queue.QueueItem :=
  toQueueItems validUUID clock count (sortByScore (collect r count db)).

(** [DequeueBatch]. *)
Section DequeueBatch.

Variable validUUID : string → bool.

(** The order in which [for shardKey, members := range toRemove] visits
    the map; Go leaves it unspecified. *)
Variable range : gmap string (list string) → list (string * list string).

(** [shardMapping], member to shard key, as the collecting loop fills
    it. *)
Definition shardMappingOf (r : Cache.RedisQueueManager) (batchSize : Z)
    (db : gmap string (gmap string Z)) : gmap string string :=
  foldl (λ shardMapping shardKey,
           foldl (λ shardMapping item, <[item.1 := shardKey]> shardMapping)
                 shardMapping
                 (Redis.ZRevRangeWithScores shardKey 0 (sub batchSize 1) db))
        ∅ (Cache.shardKeys r).

(** [toRemove], shard key to the members to remove, as the loop over the
    top [batchSize] items fills it; a missing key of a Go map reads as the
    empty string. *)
Definition toRemoveOf (shardMapping : gmap string string) (batchSize : Z)
    (allItems : list (string * Z)) : gmap string (list string) :=
  foldl (λ toRemove member,
           match Cache.ParseAdID validUUID member.1 with
           | None => toRemove
           | Some _ =>
               let shardKey :=
                 default EmptyString (shardMapping !! member.1) in
               <[shardKey := default [] (toRemove !! shardKey)
                             ++ [member.1]]> toRemove
           end)
        ∅ (take (Z.to_nat batchSize) allItems).

(** The database after the call and the items returned; the replies of
    [ZRem] are not looked at. *)
Definition DequeueBatch (r : Cache.RedisQueueManager) (clock : nat → Time)
    (batchSize : Z) (db : gmap string (gmap string Z))
  : gmap string (gmap string Z) * list Queue.QueueItem :=
  let allItems := sortByScore (collect r batchSize db) in
  let shardMapping := shardMappingOf r batchSize db in
  let items := toQueueItems validUUID clock batchSize allItems in
  let toRemove := toRemoveOf shardMapping batchSize allItems in
  let db' :=
    foldl (λ db entry,
             if 0 <? Z.of_nat (length entry.2)
             then (Redis.ZRem entry.1 entry.2 db).1 else db)
          db (range toRemove) in
  (db', items).

End DequeueBatch.

End RedisQueue.
(** ** The rest of internal/domain/ad *)

Module Aggregate.
Import GoInt Ad.

(** [SetQueuePosition]. *)
Definition SetQueuePosition (position : Z) (a : Ad) : Ad :=
  mkAd (id a) (title a) (gameFamily a) (targetAudience a) (priority a)
       (maxWaitTime a) (status a) (createdAt a) (processingStartedAt a)
       (processedAt a) (Some position) (version a).

(** [Factory.ReconstructAd]: the queue position is not among its
    arguments and stays [nil]. *)
Definition ReconstructAd (id : AdID) (title gameFamily : string)
    (targetAudience : list string) (priority : Priority)
    (maxWaitTime : Duration) (status : AdStatus) (createdAt : Time)
    (processingStartedAt processedAt : option Time) (version : Z) : Ad :=
  mkAd id title gameFamily targetAudience priority maxWaitTime status
       createdAt processingStartedAt processedAt None version.

End Aggregate.

(** ** strconv *)

Module Strconv.
Import GoInt.

(** [strconv.Atoi] on any text: an optional sign (['-'] is byte 45, ['+']
    byte 43), then decimal digits and nothing else; [None] stands for its syntax error and for the range
    error of a number that does not fit an [int]. *)
Definition Atoi (s : string) : option Z :=
  let '(neg, ds) :=
    match s with
    | String c rest =>
        if Ascii.eqb c (Ascii.ascii_of_N 45) then (true, rest)
        else if Ascii.eqb c (Ascii.ascii_of_N 43) then (false, rest)
        else (false, s)
    | EmptyString => (false, s)
    end in
  match ds with
  | EmptyString => None
  | _ =>
      if forallb Command.isDigit (String.list_ascii_of_string ds) then
        let v := Command.digitsValue ds in
        if neg then (if v <=? 2 ^ 63 then Some (- v) else None)
        else (if v <=? maxInt64 then Some v else None)
      else None
  end.

(** The [int] that [strconv.Atoi] returns, whatever its error: 0 with a
    syntax error, the nearest end of the range of [int] with a range
    error. *)
Definition AtoiValue (s : string) : Z :=
  let '(neg, ds) :=
    match s with
    | String c rest =>
        if Ascii.eqb c (Ascii.ascii_of_N 45) then (true, rest)
        else if Ascii.eqb c (Ascii.ascii_of_N 43) then (false, rest)
        else (false, s)
    | EmptyString => (false, s)
    end in
  match ds with
  | EmptyString => 0
  | _ =>
      if forallb Command.isDigit (String.list_ascii_of_string ds) then
        let v := Command.digitsValue ds in
        if neg then (if v <=? 2 ^ 63 then - v else minInt64)
        else (if v <=? maxInt64 then v else maxInt64)
      else 0
  end.

(** The [bool] that [strconv.ParseBool] returns, whatever its error. *)
Definition ParseBoolValue (s : string) : bool :=
  bool_decide (s ∈ ["1"; "t"; "T"; "TRUE"; "true"; "True"]).

End Strconv.

(** ** strings *)

Module Strings.

(** [strings.Split(s, ":")]: byte 58 is the colon. *)
Fixpoint SplitColon (s : string) : list string :=
  match s with
  | EmptyString => [EmptyString]
  | String c s' =>
      if Ascii.eqb c (Ascii.ascii_of_N 58) then EmptyString :: SplitColon s'
      else
        match SplitColon s' with
        | part :: parts => String c part :: parts
        | [] => [String c EmptyString]
        end
  end.

End Strings.

(** ** mock_command_parser.go: [Parse] *)

Module Parser.
Import GoInt Command.

Section MockCommandParser.

(** The functions of [strings] and [regexp] the parser calls.  Every
    pattern of the parser compiles, so [regexp.MatchString] returns no
    error; [FindStringSubmatch pattern text] is
    [regexp.MustCompile(pattern).FindStringSubmatch(text)]. *)
Variable ToLower TrimSpace : string → string.
Variable Contains : string → string → bool.
Variable MatchString : string → string → bool.
Variable FindStringSubmatch : string → string → list string.

(** The fresh identifier and the clock that [NewCommand] reads. *)
Variable newID : string.
Variable now : Time.

Definition parsePriorityChangeByGameFamily (text : string)
  : Command + string :=
  let matches :=
    FindStringSubmatch
      "change priority to (\d+) for all ads in the (.+) family" text in
  match matches with
  | [_; m1; m2] =>
      match Strconv.Atoi m1 with
      | None => inr "invalid priority value"
      | Some priority =>
          if (priority <? 1) || (5 <? priority) then
            inr "invalid priority value"
          else
            let gameFamily := TrimSpace m2 in
            inl (NewCommand newID now text CommandTypeQueueModification
                   "change_priority_by_game_family"
                   (<["priority" := VInt priority]>
                      (<["gameFamily" := VString gameFamily]> ∅)))
      end
  | _ => inr "invalid priority change command"
  end.

Definition parsePriorityChangeByAge (text : string) : Command + string :=
  let matches :=
    FindStringSubmatch
      "set priority to (\d+) for ads older than (\d+) minutes?" text in
  match matches with
  | [_; m1; m2] =>
      match Strconv.Atoi m1 with
      | None => inr "invalid priority value"
      | Some priority =>
          if (priority <? 1) || (5 <? priority) then
            inr "invalid priority value"
          else
            match Strconv.Atoi m2 with
            | None => inr "invalid minutes value"
            | Some minutes =>
                inl (NewCommand newID now text CommandTypeQueueModification
                       "change_priority_by_age"
                       (<["priority" := VInt priority]>
                          (<["minutes" := VInt minutes]> ∅)))
            end
      end
  | _ => inr "invalid priority change command"
  end.

Definition parseShowNextAds (text : string) : Command + string :=
  let matches :=
    FindStringSubmatch "show the next (\d+) ads to be processed" text in
  match matches with
  | [_; m1] =>
      match Strconv.Atoi m1 with
      | None => inr "invalid count value"
      | Some count =>
          if count <=? 0 then inr "invalid count value"
          else
            inl (NewCommand newID now text CommandTypeStatusQuery
                   "show_next_ads" (<["count" := VInt count]> ∅))
      end
  | _ => inr "invalid show next ads command"
  end.

Definition parseQueueDistribution (text : string) : Command + string :=
  inl (NewCommand newID now text CommandTypeAnalytics
         "queue_distribution" ∅).

Definition parseWaitingAds (text : string) : Command + string :=
  let matches :=
    FindStringSubmatch "list all ads waiting longer than (\d+) minutes?"
                       text in
  match matches with
  | [_; m1] =>
      match Strconv.Atoi m1 with
      | None => inr "invalid minutes value"
      | Some minutes =>
          inl (NewCommand newID now text CommandTypeStatusQuery
                 "waiting_ads" (<["minutes" := VInt minutes]> ∅))
      end
  | _ => inr "invalid waiting ads command"
  end.

Definition parseEnableStarvationMode (text : string) : Command + string :=
  inl (NewCommand newID now text CommandTypeSystemConfiguration
         "enable_starvation_mode" ∅).

Definition parseSetMaxWaitTime (text : string) : Command + string :=
  let matches :=
    FindStringSubmatch "set maximum wait time to (\d+) seconds?" text in
  match matches with
  | [_; m1] =>
      match Strconv.Atoi m1 with
      | None => inr "invalid seconds value"
      | Some seconds =>
          inl (NewCommand newID now text CommandTypeSystemConfiguration
                 "set_max_wait_time" (<["seconds" := VInt seconds]> ∅))
      end
  | _ => inr "invalid max wait time command"
  end.

(** [Parse]: [inr msg] is the error of the source. *)
Definition Parse (text : string) : Command + string :=
  let text := TrimSpace (ToLower text) in
  if MatchString "change priority to \d+ for all ads in the .+ family" text
  then parsePriorityChangeByGameFamily text
  else if MatchString "set priority to \d+ for ads older than \d+ minutes?"
                      text
  then parsePriorityChangeByAge text
  else if MatchString "show the next \d+ ads to be processed" text
  then parseShowNextAds text
  else if MatchString "what.s the current queue distribution by priority"
                      text
  then parseQueueDistribution text
  else if MatchString "list all ads waiting longer than \d+ minutes?" text
  then parseWaitingAds text
  else if Contains text "enable starvation mode"
  then parseEnableStarvationMode text
  else if MatchString "set maximum wait time to \d+ seconds?" text
  then parseSetMaxWaitTime text
  else inr ("unable to parse command: " +:+ text).

End MockCommandParser.

(** [CommandService.ExecuteCommand]: the command as last saved to the
    repository, or [None] when the text does not parse (nothing is saved
    then). *)
Definition ExecuteCommand (ToLower TrimSpace : string → string)
    (Contains MatchString : string → string → bool)
    (FindStringSubmatch : string → string → list string)
    (Executor_CanExecute : Command → bool)
    (Executor_Execute : Command → Command * option string)
    (newID : string) (created failed : Time) (text : string)
  : option Command :=
  match Parse ToLower TrimSpace Contains MatchString FindStringSubmatch
              newID created text with
  | inr _ => None
  | inl cmd =>
      Some (ExecuteParsed Executor_CanExecute Executor_Execute failed cmd)
  end.

End Parser.

(** ** The rest of memory_ad_repository.go *)

Module Memory.
Import GoInt.

(** The errors of [UpdateStatus]: ["ad not found"], or the error of the
    transition method. *)
Inductive UpdateStatusError : Type :=
| ErrAdNotFound
| ErrTransition (cause : Ad.AdError).

Section Range.

(** The order in which [for _, adEntity := range r.ads] visits the map;
    Go leaves it unspecified. *)
Variable range : gmap string Ad.Ad → list (string * Ad.Ad).

Definition FindByGameFamily (gameFamily : string) (ads : gmap string Ad.Ad)
  : list Ad.Ad :=
  filter (λ adEntity, Ad.gameFamily adEntity = gameFamily) (range ads).*2.

Definition FindAll (ads : gmap string Ad.Ad) : list Ad.Ad := (range ads).*2.

Definition FindByStatus (status : Ad.AdStatus) (ads : gmap string Ad.Ad)
  : list Ad.Ad :=
  filter (λ adEntity, Ad.status adEntity = status) (range ads).*2.

(** [CreatedAt().Before(threshold)]. *)
Definition FindOlderThan (threshold : Time) (ads : gmap string Ad.Ad)
  : list Ad.Ad :=
  filter (λ adEntity, Ad.createdAt adEntity < threshold) (range ads).*2.

(** The counting loops; a count is bounded by the size of the map, so
    [count++] is written without wrap-around. *)
Definition CountByStatus (status : Ad.AdStatus) (ads : gmap string Ad.Ad)
  : Z :=
  foldl (λ count adEntity,
           if bool_decide (Ad.status adEntity = status) then count + 1
           else count)
        0 (range ads).*2.

Definition CountByPriority (priority : Ad.Priority)
    (ads : gmap string Ad.Ad) : Z :=
  foldl (λ count adEntity,
           if bool_decide (Ad.priority adEntity = priority) then count + 1
           else count)
        0 (range ads).*2.

End Range.

Definition Delete (id : Ad.AdID) (ads : gmap string Ad.Ad)
  : gmap string Ad.Ad :=
  delete id ads.

(** [int64(len(r.ads))]. *)
Definition Count (ads : gmap string Ad.Ad) : Z := Z.of_nat (size ads).

(** [UpdateStatus]: the aggregate the map points to is updated in place;
    [version] is not looked at; [now] is the clock the transition reads. *)
Definition UpdateStatus (now : Time) (id : Ad.AdID) (status : Ad.AdStatus)
    (version : Z) (ads : gmap string Ad.Ad)
  : gmap string Ad.Ad * option UpdateStatusError :=
  match ads !! id with
  | None => (ads, Some ErrAdNotFound)
  | Some adEntity =>
      let '(adEntity', err) :=
        match status with
        | Ad.AdStatusProcessing => Ad.StartProcessing now adEntity
        | Ad.AdStatusCompleted => Ad.CompleteProcessing now adEntity
        | Ad.AdStatusFailed => Ad.FailProcessing adEntity
        | Ad.AdStatusQueued => (adEntity, None)
        end in
      (<[id := adEntity']> ads, ErrTransition <$> err)
  end.

End Memory.

(** ** ad_service.go over the in-memory repository and the Redis queue
    manager *)

Module Service.
Import GoInt.

Inductive ServiceError : Type :=
| ErrInvalidPriorityValue (priority : Ad.Priority)
    (* "invalid priority: %d" *)
| ErrUpdatePriorities (cause : Persistence.RepoError).
    (* "failed to update priorities: %w" *)

(** What a call of the service produces: the count it returns, its error,
    or the panic of the queue manager. *)
Inductive outcome : Type :=
| Done (updatedCount : Z)
| Failed (e : ServiceError)
| Panicked.

Section AdService.

Variable range : gmap string Ad.Ad → list (string * Ad.Ad).
Variable r : Cache.RedisQueueManager.

(** The loop "Update queue priorities": an error of the queue manager is
    skipped.  The count is [None] after a panic. *)
Definition updateQueuePriorities (newPriority : Ad.Priority)
    (adIDs : list Ad.AdID) (db : gmap string (gmap string Z))
  : gmap string (gmap string Z) * option Z :=
  foldl (λ st adID,
           match st.2 with
           | None => st
           | Some updatedCount =>
               match Cache.UpdatePriority r adID newPriority st.1 with
               | (db', Cache.Ok _) => (db', Some (updatedCount + 1))
               | (db', Cache.Err _) => (db', Some updatedCount)
               | (db', Cache.Panic) => (db', None)
               end
           end)
        (db, Some 0) adIDs.

(** [ChangePriorityForGameFamily]. *)
Definition ChangePriorityForGameFamily (gameFamily : string)
    (newPriority : Ad.Priority) (ads : gmap string Ad.Ad)
    (db : gmap string (gmap string Z))
  : gmap string Ad.Ad * gmap string (gmap string Z) * outcome :=
  if negb (Ad.IsValid newPriority) then
    (ads, db, Failed (ErrInvalidPriorityValue newPriority))
  else
    let ads_ := Memory.FindByGameFamily range gameFamily ads in
    let adIDs :=
      Ad.id <$> filter (λ adEntity, Ad.status adEntity = Ad.AdStatusQueued)
                       ads_ in
    match adIDs with
    | [] => (ads, db, Done 0)
    | _ =>
        match Persistence.UpdatePriorityBatch adIDs newPriority ads with
        | (ads', Some e) => (ads', db, Failed (ErrUpdatePriorities e))
        | (ads', None) =>
            let '(db', updatedCount) :=
              updateQueuePriorities newPriority adIDs db in
            (ads', db',
             match updatedCount with
             | Some n => Done n
             | None => Panicked
             end)
        end
    end.

(** [CreateAdRequest] and [CreateAdResponse]; a [nil] field of the
    request is [None]. *)
Record CreateAdRequest : Type := mkCreateAdRequest {
  Title : string;
  GameFamily : string;
  TargetAudience : list string;
  Priority : option Z;
  MaxWaitTime : option Z
}.

Record CreateAdResponse : Type := mkCreateAdResponse {
  AdID : string;
  Status : Ad.AdStatus;
  ResponsePriority : Z;
  Position : Z;
  EstimatedProcessTime : Time
}.

(** What [CreateAd] produces: the response, the error of the factory
    (["failed to create ad: %w"]) or of the queue manager (["failed to
    enqueue ad: %w"]), or the panic of the queue manager. *)
Inductive creation : Type :=
| Created (response : CreateAdResponse)
| CreateFailed (cause : Ad.AdError)
| EnqueueFailed (cause : Cache.QueueError)
| CreatePanicked.

(** [CreateAd]; [newID] is the fresh UUID of the factory, [created],
    [enqueued] and [answered] are the three readings of the clock (by the
    factory, by [Enqueue] and for the estimate). *)
Definition CreateAd (newID : Ad.AdID) (created enqueued answered : Time)
    (req : CreateAdRequest) (ads : gmap string Ad.Ad)
    (db : gmap string (gmap string Z))
  : gmap string Ad.Ad * gmap string (gmap string Z) * creation :=
  let priority :=
    match Priority req with
    | Some p => p
    | None => Ad.PriorityNormal
    end in
  let maxWaitTime :=
    match MaxWaitTime req with
    | Some seconds => wrap64 (seconds * Second)
    | None => 5 * Minute
    end in
  match Ad.CreateAd newID created (Title req) (GameFamily req)
                    (TargetAudience req) priority maxWaitTime with
  | inr e => (ads, db, CreateFailed e)
  | inl newAd =>
      let ads' := Persistence.Save newAd ads in
      match Cache.Enqueue r enqueued (Ad.id newAd) (Ad.priority newAd) db
      with
      | (db', Cache.Panic) => (ads', db', CreatePanicked)
      | (db', Cache.Err e) => (ads', db', EnqueueFailed e)
      | (db', Cache.Ok _) =>
          match Cache.GetPosition r (Ad.id newAd) db' with
          | Cache.Panic => (ads', db', CreatePanicked)
          | got =>
              let position :=
                match got with
                | Cache.Ok position => position
                | _ => -1
                end in
              let estimatedTime :=
                answered + wrap64 (wrap64 (position * 3) * Second) in
              (ads', db',
               Created (mkCreateAdResponse (Ad.id newAd) (Ad.status newAd)
                          (Ad.priority newAd) position estimatedTime))
          end
      end
  end.

End AdService.

End Service.

(** ** The ad processor of cmd/migrate/main.go over the in-memory
    repository *)

Module Processor.
Import GoInt.

(** The errors of [processAd], by the step that returned them. *)
Inductive ProcessError : Type :=
| ErrFindAd          (* "failed to find ad: %w" *)
| ErrStartProcessing (cause : Ad.AdError)
    (* "failed to start processing: %w" *)
| ErrCompleteProcessing (cause : Ad.AdError)
    (* "failed to complete processing: %w" *)
| ErrContext.        (* ctx.Err() *)

(** [processAd] for the item of [adID].  The repository hands out the
    aggregate it points to, so the transitions show in the repository
    under [adID] as they are made; [Save] stores the aggregate under its
    own id.  [started] and [completed] are the readings of the clock by
    the two transitions; [cancelled] tells whether the context is done
    before the mock processing time has passed.  No other goroutine
    touches the aggregate during the call. *)
Definition processAd (started completed : Time) (cancelled : bool)
    (adID : Ad.AdID) (ads : gmap string Ad.Ad)
  : gmap string Ad.Ad * option ProcessError :=
  match Persistence.FindByID adID ads with
  | None => (ads, Some ErrFindAd)
  | Some adEntity =>
      match Ad.StartProcessing started adEntity with
      | (_, Some e) => (ads, Some (ErrStartProcessing e))
      | (adEntity, None) =>
          let ads := Persistence.Save adEntity (<[adID := adEntity]> ads) in
          if cancelled then (ads, Some ErrContext)
          else
            match Ad.CompleteProcessing completed adEntity with
            | (_, Some e) => (ads, Some (ErrCompleteProcessing e))
            | (adEntity, None) =>
                (Persistence.Save adEntity (<[adID := adEntity]> ads), None)
            end
      end
  end.

End Processor.

(** ** redis_queue_manager.go: the stored configuration *)

Module Config.
Import GoInt.

(** The verb [%t] of [fmt.Sprintf]. *)
Definition formatBool (b : bool) : string := if b then "true" else "false".

Section Seconds.

(** [int(d.Seconds())]: the seconds of a duration as a [float64],
    truncated to an [int]. *)
Variable truncSeconds : Duration → Z.

(** [UpdateConfig]: the manager afterwards and the string keys of Redis
    afterwards ([SET] with no expiry); [%d] prints the decimal form of an
    [int]. *)
Definition UpdateConfig (config : Queue.QueueConfig)
    (r : Cache.RedisQueueManager) (strs : gmap string string)
  : Cache.RedisQueueManager * gmap string string :=
  let configKey := "queue:config" in
  let configData :=
    formatBool (Queue.AntiStarvationEnabled config)
    +:+ ":" +:+ pretty (truncSeconds (Queue.MaxWaitTime config))
    +:+ ":" +:+ pretty (Queue.WorkerCount config)
    +:+ ":" +:+ pretty (Queue.BatchSize config)
    +:+ ":" +:+ pretty (truncSeconds (Queue.ProcessingTimeout config)) in
  (Cache.mkRedisQueueManager config (Cache.shardCount r),
   <[configKey := configData]> strs).

End Seconds.

(** [GetConfig]: a missing key ([redis.Nil]) and a value that does not
    split into five parts give the configuration the manager holds; the
    errors of the four conversions are dropped. *)
Definition GetConfig (r : Cache.RedisQueueManager)
    (strs : gmap string string) : Queue.QueueConfig :=
  let configKey := "queue:config" in
  match strs !! configKey with
  | None => Cache.config r
  | Some configData =>
      match Strings.SplitColon configData with
      | [p0; p1; p2; p3; p4] =>
          let antiStarvation := Strconv.ParseBoolValue p0 in
          let maxWaitTime := Strconv.AtoiValue p1 in
          let workerCount := Strconv.AtoiValue p2 in
          let batchSize := Strconv.AtoiValue p3 in
          let processingTimeout := Strconv.AtoiValue p4 in
          Queue.mkQueueConfig antiStarvation
            (wrap64 (maxWaitTime * Second)) workerCount batchSize
            (wrap64 (processingTimeout * Second))
      | _ => Cache.config r
      end
  end.

End Config.


(** * Vocabulary of the statements *)

(** The edges of the status machine. *)
Definition edge (s s' : Ad.AdStatus) : Prop :=
  (s = Ad.AdStatusQueued ∧ s' = Ad.AdStatusProcessing)
  ∨ (s = Ad.AdStatusProcessing
     ∧ (s' = Ad.AdStatusCompleted ∨ s' = Ad.AdStatusFailed)).

(** The entries of the queue: the members of every shard, with their
    scores. *)
Definition queueEntries (r : Cache.RedisQueueManager)
    (db : gmap string (gmap string Z)) : list (string * Z) :=
  mjoin ((λ shardKey, map_to_list (Redis.zset shardKey db))
           <$> Cache.shardKeys r).

(** The number of queue entries whose score is strictly above [target]. *)
Definition strictlyAbove (target : Z) (entries : list (string * Z)) : Z :=
  Z.of_nat (length (filter (λ e, target < e.2) entries)).

(** Decoding of a score into its band and its time component. *)
Definition bandOf (score : Z) : Z := score / Cache.P.
Definition timeComponent (score : Z) : Z := score mod Cache.P.

(** Every shard of the queue is empty. *)
Definition allShardsEmpty (r : Cache.RedisQueueManager)
    (db : gmap string (gmap string Z)) : Prop :=
  ∀ shardKey, shardKey ∈ Cache.shardKeys r → Redis.zset shardKey db = ∅.

(** The row an [UPDATE] of the batch leaves behind. *)
Definition rewritten (newPriority : Ad.Priority) (row : Ad.Ad) : Ad.Ad :=
  Ad.mkAd (Ad.id row) (Ad.title row) (Ad.gameFamily row)
          (Ad.targetAudience row) newPriority (Ad.maxWaitTime row)
          (Ad.status row) (Ad.createdAt row) (Ad.processingStartedAt row)
          (Ad.processedAt row) (Ad.queuePosition row) (Ad.version row + 1).

(** What the batch does to the row of [id]. *)
Definition batchEffect (ids : list Ad.AdID) (newPriority : Ad.Priority)
    (id : Ad.AdID) (row : Ad.Ad) : Ad.Ad :=
  if bool_decide (id ∈ ids ∧ Ad.status row = Ad.AdStatusQueued)
  then rewritten newPriority row else row.



(** ** Sample data *)

Module Sample.
Import GoInt.

(** A manager with four shards, anti-starvation on, ten minutes of
    maximal wait. *)
Definition cfg : Queue.QueueConfig :=
  Queue.mkQueueConfig true (10 * Minute) 4 10 (30 * Second).

Definition manager : Cache.RedisQueueManager :=
  Cache.mkRedisQueueManager cfg 4.

Definition idA : Ad.AdID := "123e4567-e89b-12d3-a456-426614174000".
Definition idB : Ad.AdID := "123e4567-e89b-12d3-a456-426614174001".
Definition idC : Ad.AdID := "00000000-0000-0000-0000-000000000003".

(** 2023-11-14T22:13:20Z. *)
Definition t0 : Time := 1700000000 * Second.

(** [idA] and [idB] at priority 3, one second apart, then [idC] at
    priority 5. *)
Definition db3 : gmap string (gmap string Z) :=
  (Cache.Enqueue manager (t0 + 2 * Second) idC 5
     (Cache.Enqueue manager (t0 + 1 * Second) idB 3
        (Cache.Enqueue manager t0 idA 3 ∅).1).1).1.

(** A single entry of priority 1 enqueued at [t0]. *)
Definition dbLow : gmap string (gmap string Z) :=
  (Cache.Enqueue manager t0 idA 1 ∅).1.

(** The aggregate [CreateAd] returns at [t0] for priority [p] and a
    maximal wait of five minutes. *)
Definition queuedAd (i : Ad.AdID) (p : Ad.Priority) : Ad.Ad :=
  Ad.mkAd i "Summer sale" "RPG-Fantasy" ["gamers"] p (5 * Minute)
          Ad.AdStatusQueued t0 None None None 1.

(** A queued aggregate of priority 1 that tolerates ten minutes of wait. *)
Definition patientAd : Ad.Ad :=
  Ad.mkAd idA "Summer sale" "RPG-Fantasy" ["gamers"] 1 (10 * Minute)
          Ad.AdStatusQueued t0 None None None 1.

(** An aggregate that was started and then failed. *)
Definition failedAd : Ad.Ad :=
  (Ad.FailProcessing (Ad.StartProcessing (t0 + Second) (queuedAd idA 2)).1).1.

(** A store with a queued row [idA] and a row [idB] being processed. *)
Definition ads2 : gmap string Ad.Ad :=
  Persistence.Save
    (Ad.StartProcessing (t0 + Second) (queuedAd idB 2)).1
    (Persistence.Save (queuedAd idA 2) ∅).

(** The command the mock parser builds for a wait time of zero. *)
Definition zeroWaitText : string := "set maximum wait time to 0 seconds".


End Sample.

(** ** Further vocabulary *)

(** No key of the database holds an empty sorted set (Redis drops such a
    key). *)
Definition wellFormed (db : gmap string (gmap string Z)) : Prop :=
  ∀ key, db !! key ≠ Some ∅.

(** The number of queue entries in the band of priority [p]. *)
Definition inBand (p : Z) (entries : list (string * Z)) : Z :=
  Z.of_nat (length (filter (λ e, bandOf e.2 = p) entries)).

(** Every entry of a shard sits in the shard the manager computes for its
    member. *)
Definition routed (r : Cache.RedisQueueManager)
    (db : gmap string (gmap string Z)) : Prop :=
  ∀ key member,
    key ∈ Cache.shardKeys r → is_Some (Redis.ZScore key member db) →
    Cache.getShardKey r member = Some key.

(** No member has an entry in two shards. *)
Definition oneShard (r : Cache.RedisQueueManager)
    (db : gmap string (gmap string Z)) : Prop :=
  ∀ key key' member,
    key ∈ Cache.shardKeys r → key' ∈ Cache.shardKeys r →
    is_Some (Redis.ZScore key member db) →
    is_Some (Redis.ZScore key' member db) → key = key'.

(** A call of one of the mutating methods of the aggregate, with the value
    its clock reads. *)
Inductive Call : Type :=
| CallStartProcessing (now : GoInt.Time)
| CallCompleteProcessing (now : GoInt.Time)
| CallFailProcessing
| CallChangePriority (newPriority : Ad.Priority)
| CallSetQueuePosition (position : Z).

Definition call (c : Call) (a : Ad.Ad) : Ad.Ad * option Ad.AdError :=
  match c with
  | CallStartProcessing now => Ad.StartProcessing now a
  | CallCompleteProcessing now => Ad.CompleteProcessing now a
  | CallFailProcessing => Ad.FailProcessing a
  | CallChangePriority newPriority => Ad.ChangePriority newPriority a
  | CallSetQueuePosition position =>
      (Aggregate.SetQueuePosition position a, None)
  end.

(** The aggregate after a sequence of calls, whatever they returned. *)
Fixpoint calls (cs : list Call) (a : Ad.Ad) : Ad.Ad :=
  match cs with
  | [] => a
  | c :: cs => calls cs (call c a).1
  end.

(** The number of calls of the sequence that returned [nil], the calls of
    [SetQueuePosition] apart. *)
Fixpoint accepted (cs : list Call) (a : Ad.Ad) : nat :=
  match cs with
  | [] => 0
  | c :: cs =>
      (match c, (call c a).2 with
       | CallSetQueuePosition _, _ => 0
       | _, None => 1
       | _, Some _ => 0
       end + accepted cs (call c a).1)%nat
  end.

(** What every call keeps, for an aggregate whose version is [v] up to
    wrap-around. *)
Definition sound (a0 a : Ad.Ad) (v : Z) : Prop :=
  Ad.id a = Ad.id a0 ∧ Ad.title a = Ad.title a0 ∧ Ad.gameFamily a = Ad.gameFamily a0
  ∧ Ad.targetAudience a = Ad.targetAudience a0 ∧ Ad.maxWaitTime a = Ad.maxWaitTime a0
  ∧ Ad.createdAt a = Ad.createdAt a0
  ∧ Ad.IsValid (Ad.priority a) = true
  ∧ (Ad.status a = Ad.AdStatusQueued ↔ Ad.processingStartedAt a = None)
  ∧ (Ad.status a = Ad.AdStatusCompleted ↔ Ad.processedAt a ≠ None)
  ∧ Ad.version a = GoInt.wrap64 v.

(** Every aggregate of the repository is stored under its own id, as
    [Save] stores it. *)
Definition keyed (ads : gmap string Ad.Ad) : Prop :=
  ∀ key adEntity, ads !! key = Some adEntity → Ad.id adEntity = key.

(** The aggregates a priority change for a game family is aimed at. *)
Definition targeted (gameFamily : string) (adEntity : Ad.Ad) : bool :=
  bool_decide (Ad.gameFamily adEntity = gameFamily)
  && bool_decide (Ad.status adEntity = Ad.AdStatusQueued).

(** The id has an entry in the shard the manager looks it up in. *)
Definition inQueue (r : Cache.RedisQueueManager)
    (db : gmap string (gmap string Z)) (adID : Ad.AdID) : bool :=
  match Cache.getShardKey r adID with
  | Some shardKey => bool_decide (is_Some (Redis.ZScore shardKey adID db))
  | None => false
  end.

(** The score [UpdatePriority] writes over [old]. *)
Definition rescored (newPriority : Ad.Priority) (old : Z) : Z :=
  newPriority * Cache.P + Z.rem old Cache.P.

(** A text without a colon (byte 58). *)
Definition noColon (s : string) : Prop :=
  forallb (λ c, negb (Ascii.eqb c (Ascii.ascii_of_N 58)))
          (String.list_ascii_of_string s) = true.

(** A text without an upper-case letter of ASCII (bytes 65 to 90). *)
Definition noUpper (s : string) : Prop :=
  forallb (λ c, negb ((65 <=? Ascii.N_of_ascii c)
                      && (Ascii.N_of_ascii c <=? 90))%N)
          (String.list_ascii_of_string s) = true.


(** * Properties *)

(** ** The aggregate

    The sample aggregates are what the factory returns. *)
Example sample_ads_created :
  Ad.CreateAd Sample.idA Sample.t0 "Summer sale" "RPG-Fantasy" ["gamers"] 2
              (5 * GoInt.Minute) = inl (Sample.queuedAd Sample.idA 2)
  ∧ Ad.CreateAd Sample.idA Sample.t0 "Summer sale" "RPG-Fantasy" ["gamers"] 1
                (10 * GoInt.Minute) = inl Sample.patientAd
  ∧ Ad.CreateAd Sample.idA Sample.t0 "Summer sale" "RPG-Fantasy" ["gamers"] 6
                (5 * GoInt.Minute) = inr Ad.ErrInvalidPriority.
Proof. vm_compute. by repeat split. Qed.

(** ** The status machine of the aggregate *)

Section StatusMachine.
Import Ad.

Lemma StartProcessing_ok now a :
  status a = AdStatusQueued →
  StartProcessing now a =
    (mkAd (id a) (title a) (gameFamily a) (targetAudience a) (priority a)
          (maxWaitTime a) AdStatusProcessing (createdAt a) (Some now)
          (processedAt a) None (GoInt.add (version a) 1), None).
Proof. intros Hs. unfold StartProcessing. by rewrite Hs. Qed.

Lemma StartProcessing_rejected now a :
  status a ≠ AdStatusQueued →
  StartProcessing now a = (a, Some ErrInvalidStatusTransition).
Proof.
  intros Hs. unfold StartProcessing.
  by rewrite bool_decide_eq_false_2.
Qed.

Lemma CompleteProcessing_ok now a :
  status a = AdStatusProcessing →
  CompleteProcessing now a =
    (mkAd (id a) (title a) (gameFamily a) (targetAudience a) (priority a)
          (maxWaitTime a) AdStatusCompleted (createdAt a)
          (processingStartedAt a) (Some now) (queuePosition a)
          (GoInt.add (version a) 1), None).
Proof. intros Hs. unfold CompleteProcessing. by rewrite Hs. Qed.

Lemma CompleteProcessing_rejected now a :
  status a ≠ AdStatusProcessing →
  CompleteProcessing now a = (a, Some ErrInvalidStatusTransition).
Proof.
  intros Hs. unfold CompleteProcessing.
  by rewrite bool_decide_eq_false_2.
Qed.

Lemma FailProcessing_ok a :
  status a = AdStatusProcessing →
  FailProcessing a =
    (mkAd (id a) (title a) (gameFamily a) (targetAudience a) (priority a)
          (maxWaitTime a) AdStatusFailed (createdAt a)
          (processingStartedAt a) (processedAt a) (queuePosition a)
          (GoInt.add (version a) 1), None).
Proof. intros Hs. unfold FailProcessing. by rewrite Hs. Qed.

Lemma FailProcessing_rejected a :
  status a ≠ AdStatusProcessing →
  FailProcessing a = (a, Some ErrInvalidStatusTransition).
Proof.
  intros Hs. unfold FailProcessing.
  by rewrite bool_decide_eq_false_2.
Qed.

(** [FailProcessing] never writes [processedAt]. *)
Lemma FailProcessing_processedAt a :
  processedAt (FailProcessing a).1 = processedAt a.
Proof. unfold FailProcessing. by case_bool_decide. Qed.

(** [ChangePriority] looks at two of the four statuses only. *)
Lemma ChangePriority_ok newPriority a :
  IsValid newPriority = true →
  status a = AdStatusQueued ∨ status a = AdStatusFailed →
  ChangePriority newPriority a =
    (mkAd (id a) (title a) (gameFamily a) (targetAudience a) newPriority
          (maxWaitTime a) (status a) (createdAt a) (processingStartedAt a)
          (processedAt a) (queuePosition a) (GoInt.add (version a) 1),
     None).
Proof.
  intros Hv Hs. unfold ChangePriority. rewrite Hv. simpl.
  by destruct Hs as [-> | ->].
Qed.

Lemma ChangePriority_rejected newPriority a :
  IsValid newPriority = true →
  status a = AdStatusProcessing ∨ status a = AdStatusCompleted →
  ChangePriority newPriority a =
    (a, Some ErrCannotChangePriorityAfterProcessing).
Proof.
  intros Hv Hs. unfold ChangePriority. rewrite Hv. simpl.
  by destruct Hs as [-> | ->].
Qed.

End StatusMachine.

(** C5. The three transition methods guard the status machine
    QUEUED -> PROCESSING -> {COMPLETED, FAILED}: [StartProcessing] succeeds
    exactly from QUEUED, [CompleteProcessing] and [FailProcessing] exactly
    from PROCESSING; a successful call moves along an edge of the machine,
    a rejected call returns [ErrInvalidStatusTransition] and leaves the
    aggregate as it was.  A second [StartProcessing] is rejected, and so is
    [CompleteProcessing] on a queued aggregate. *)
Theorem status_machine_guards (now now' : GoInt.Time) (a : Ad.Ad) :
  let sp := Ad.StartProcessing now a in
  let cp := Ad.CompleteProcessing now a in
  let fp := Ad.FailProcessing a in
  (sp.2 = None ↔ Ad.status a = Ad.AdStatusQueued)
  ∧ (cp.2 = None ↔ Ad.status a = Ad.AdStatusProcessing)
  ∧ (fp.2 = None ↔ Ad.status a = Ad.AdStatusProcessing)
  ∧ (sp.2 = None → Ad.status sp.1 = Ad.AdStatusProcessing)
  ∧ (cp.2 = None → Ad.status cp.1 = Ad.AdStatusCompleted)
  ∧ (fp.2 = None → Ad.status fp.1 = Ad.AdStatusFailed)
  ∧ (sp.2 = None → edge (Ad.status a) (Ad.status sp.1))
  ∧ (cp.2 = None → edge (Ad.status a) (Ad.status cp.1))
  ∧ (fp.2 = None → edge (Ad.status a) (Ad.status fp.1))
  ∧ (sp.2 ≠ None → sp = (a, Some Ad.ErrInvalidStatusTransition))
  ∧ (cp.2 ≠ None → cp = (a, Some Ad.ErrInvalidStatusTransition))
  ∧ (fp.2 ≠ None → fp = (a, Some Ad.ErrInvalidStatusTransition))
  ∧ (sp.2 = None →
     Ad.StartProcessing now' sp.1
     = (sp.1, Some Ad.ErrInvalidStatusTransition))
  ∧ (Ad.status a = Ad.AdStatusQueued →
     cp = (a, Some Ad.ErrInvalidStatusTransition)).
Proof.
  unfold edge, Ad.StartProcessing, Ad.CompleteProcessing, Ad.FailProcessing.
  destruct a as [i t g aud p w s c ps pd qp v].
  destruct s; simpl; repeat split; intros; try done; auto.
Qed.

(** C6. [ChangePriority] on an aggregate whose status is FAILED: the call
    is accepted, the priority is rewritten and the version advances,
    although the aggregate left QUEUED when its processing started. *)
Theorem change_priority_accepts_failed_ad :
  Ad.status Sample.failedAd = Ad.AdStatusFailed
  ∧ Ad.priority Sample.failedAd = 2
  ∧ Ad.version Sample.failedAd = 3
  ∧ (Ad.ChangePriority 5 Sample.failedAd).2 = None
  ∧ Ad.priority (Ad.ChangePriority 5 Sample.failedAd).1 = 5
  ∧ Ad.version (Ad.ChangePriority 5 Sample.failedAd).1 = 4.
Proof. vm_compute. by repeat split. Qed.

(** C7. A queued aggregate that is started and then failed ends in status
    FAILED with [processedAt] still unset, whereas completing it sets
    [processedAt]. *)
Theorem fail_processing_leaves_processedAt_unset :
  let started :=
    (Ad.StartProcessing (Sample.t0 + GoInt.Second)
                        (Sample.queuedAd Sample.idA 2)).1 in
  (Ad.FailProcessing started).2 = None
  ∧ Ad.status (Ad.FailProcessing started).1 = Ad.AdStatusFailed
  ∧ Ad.processedAt (Ad.FailProcessing started).1 = None
  ∧ Ad.processedAt
      (Ad.CompleteProcessing (Sample.t0 + 4 * GoInt.Second) started).1
    = Some (Sample.t0 + 4 * GoInt.Second).
Proof. vm_compute. by repeat split. Qed.

(** ** The score of the domain queue item *)

(** The domain score grows with the time stamp: of two items of one
    priority the one enqueued later has the strictly larger score. *)
Lemma domain_score_grows_with_time p t1 t2 :
  GoInt.Unix t1 < GoInt.Unix t2 →
  (Queue.calculateScore p t1 < Queue.calculateScore p t2)%Q.
Proof.
  intros Hlt. unfold Queue.calculateScore.
  apply Qplus_lt_r. unfold Qdiv.
  apply Qmult_lt_compat_r; [reflexivity |].
  by rewrite <- Zlt_Qlt.
Qed.

(** C1. Two queue items of priority 3, enqueued at Unix seconds 1000000000
    and 2000000000: the score computed by [calculateScore] of the domain
    package is 3000001 for the older item and 3000002 for the newer one, so
    the older item does not have the greater score. *)
Theorem domain_score_prefers_newer_item :
  let older := Queue.NewQueueItem Sample.idA 3 (GoInt.UnixTime 1000000000) in
  let newer := Queue.NewQueueItem Sample.idB 3 (GoInt.UnixTime 2000000000) in
  (Queue.score older == 3000001)%Q
  ∧ (Queue.score newer == 3000002)%Q
  ∧ (Queue.score older < Queue.score newer)%Q.
Proof. vm_compute. by repeat split. Qed.

(** ** The sorted-set model *)

Section RedisFacts.
Implicit Types (db : gmap string (gmap string Z)) (key member : string).

Lemma zset_ZAdd_eq key member score db :
  Redis.zset key (Redis.ZAdd key member score db)
  = <[member := score]> (Redis.zset key db).
Proof. unfold Redis.ZAdd, Redis.zset at 1. by rewrite lookup_insert_eq. Qed.

Lemma zset_ZAdd_ne key key' member score db :
  key ≠ key' →
  Redis.zset key' (Redis.ZAdd key member score db) = Redis.zset key' db.
Proof.
  intros Hne. unfold Redis.ZAdd, Redis.zset.
  by rewrite lookup_insert_ne.
Qed.

Lemma ZScore_ZAdd_eq key member score db :
  Redis.ZScore key member (Redis.ZAdd key member score db) = Some score.
Proof. unfold Redis.ZScore. by rewrite zset_ZAdd_eq, lookup_insert_eq. Qed.

Lemma ZScore_ZAdd_ne key member key' member' score db :
  (key', member') ≠ (key, member) →
  Redis.ZScore key' member' (Redis.ZAdd key member score db)
  = Redis.ZScore key' member' db.
Proof.
  intros Hne. unfold Redis.ZScore.
  destruct (decide (key = key')) as [<- | Hk].
  - rewrite zset_ZAdd_eq, lookup_insert_ne; [done | congruence].
  - by rewrite zset_ZAdd_ne.
Qed.

(** The size of a filtered sorted set, counted on its list of entries. *)
Lemma size_filter_entries (Pred : string * Z → Prop)
    `{!∀ e, Decision (Pred e)} (s : gmap string Z) :
  size (filter Pred s) = length (filter Pred (map_to_list s)).
Proof.
  rewrite <- length_map_to_list.
  apply Permutation_length, NoDup_Permutation.
  - apply NoDup_map_to_list.
  - apply NoDup_filter, NoDup_map_to_list.
  - intros [m sc]. rewrite list_elem_of_filter, !elem_of_map_to_list.
    rewrite map_lookup_filter_Some. tauto.
Qed.

Lemma slice_nil {A : Type} start stop : Redis.slice start stop (@nil A) = [].
Proof.
  unfold Redis.slice. cbn [length].
  set (start' := if start <? 0 then _ else _).
  assert (Hs : (Z.of_nat 0 <=? start') = true).
  { apply Z.leb_le. subst start'. destruct (Z.ltb_spec start 0); lia. }
  by rewrite Hs, orb_true_r.
Qed.

Lemma ZRevRange_empty key start stop db :
  Redis.zset key db = ∅ →
  Redis.ZRevRangeWithScores key start stop db = [].
Proof.
  intros He. unfold Redis.ZRevRangeWithScores, Redis.ascending.
  rewrite He, map_to_list_empty. apply slice_nil.
Qed.

End RedisFacts.

(** ** The score of the queue manager *)

Section ManagerScore.
Import Cache.



(** A score decodes to the priority and to the age component it was built
    from. *)
Lemma manager_score_decode p t :
  0 ≤ GoInt.Unix t ≤ maxTime →
  bandOf (calculateScore p t) = p
  ∧ timeComponent (calculateScore p t) = maxTime - GoInt.Unix t.
Proof.
  intros Ht. unfold bandOf, timeComponent, calculateScore, P, maxTime in *.
  assert (Hq : (p * 10000000000 + (9999999999 - GoInt.Unix t))
               / 10000000000 = p).
  { symmetry. apply (Z.div_unique _ _ _ (9999999999 - GoInt.Unix t)); lia. }
  split; [done |].
  rewrite Z.mod_eq by lia. rewrite Hq. lia.
Qed.

(** On a score that is not negative the truncating decoding of the manager
    is the decoding by band. *)
Lemma timestampPart_nonneg score :
  0 ≤ score → timestampPartOf score = timeComponent score.
Proof.
  intros Hs. unfold timestampPartOf, priorityOf, timeComponent, P.
  rewrite Z.quot_div_nonneg by lia. rewrite Z.mod_eq by lia. lia.
Qed.

Lemma priorityOf_nonneg score : 0 ≤ score → priorityOf score = bandOf score.
Proof.
  intros Hs. unfold priorityOf, bandOf, P. by rewrite Z.quot_div_nonneg by lia.
Qed.

Lemma band_of_rebuilt newPriority score :
  bandOf (newPriority * P + timeComponent score) = newPriority
  ∧ timeComponent (newPriority * P + timeComponent score)
    = timeComponent score.
Proof.
  unfold bandOf, timeComponent, P.
  pose proof (Z.mod_pos_bound score 10000000000 ltac:(lia)) as Hb.
  assert (Hq : (newPriority * 10000000000 + score mod 10000000000)
               / 10000000000 = newPriority).
  { symmetry. apply (Z.div_unique _ _ _ (score mod 10000000000)); lia. }
  split; [done |].
  rewrite (Z.mod_eq (_ + _)) by lia. rewrite Hq. lia.
Qed.

End ManagerScore.

(** ** UpdatePriority *)

(** The part of a score the manager keeps is its truncated remainder by
    [P]. *)
Lemma timestampPart_rem score :
  score - Z.quot score 10000000000 * 10000000000 = Z.rem score Cache.P.
Proof.
  unfold Cache.P.
  pose proof (Z.quot_rem' score 10000000000). lia.
Qed.

(** The two outcomes of [UpdatePriority]. *)
Lemma UpdatePriority_present r adID newPriority db shardKey old :
  Cache.getShardKey r adID = Some shardKey →
  Redis.ZScore shardKey adID db = Some old →
  Cache.UpdatePriority r adID newPriority db
  = (Redis.ZAdd shardKey adID (newPriority * Cache.P + Z.rem old Cache.P) db,
     Cache.Ok tt).
Proof.
  intros Hkey Hold. unfold Cache.UpdatePriority. rewrite Hkey, Hold.
  cbn zeta. by rewrite timestampPart_rem.
Qed.

Lemma UpdatePriority_absent r adID newPriority db shardKey :
  Cache.getShardKey r adID = Some shardKey →
  Redis.ZScore shardKey adID db = None →
  Cache.UpdatePriority r adID newPriority db
  = (db, Cache.Err (Cache.ErrNotFoundInQueue adID)).
Proof.
  intros Hkey Hold. unfold Cache.UpdatePriority. by rewrite Hkey, Hold.
Qed.

Lemma rem_is_timeComponent old :
  0 ≤ old → Z.rem old Cache.P = timeComponent old.
Proof.
  intros Hnonneg. unfold timeComponent, Cache.P.
  apply Z.rem_mod_nonneg; lia.
Qed.

(** C2. [UpdatePriority] on an id whose shard holds it with a score [old]
    succeeds and rewrites that score to [newPriority * P] plus the part of
    [old] below its priority band, the truncated remainder of [old] by [P];
    no other entry of the database changes.  For a score that is not
    negative (every score of a valid priority is not) that part is the time
    component of [old]: the new score lies in the band of [newPriority] and
    carries the time component of [old] unchanged.  When the shard of the
    id does not hold it, the call fails with the not-in-queue error and the
    database is as before. *)
Theorem update_priority_keeps_time_component
    (r : Cache.RedisQueueManager) (adID : Ad.AdID)
    (newPriority : Ad.Priority) (db : gmap string (gmap string Z))
    (shardKey : string) :
  Cache.getShardKey r adID = Some shardKey →
  match Redis.ZScore shardKey adID db with
  | Some old =>
      let after := Cache.UpdatePriority r adID newPriority db in
      let new := newPriority * Cache.P + Z.rem old Cache.P in
      after.2 = Cache.Ok tt
      ∧ Redis.ZScore shardKey adID after.1 = Some new
      ∧ (0 ≤ old →
         Z.rem old Cache.P = timeComponent old
         ∧ bandOf new = newPriority
         ∧ timeComponent new = timeComponent old)
      ∧ ∀ key member, (key, member) ≠ (shardKey, adID) →
          Redis.ZScore key member after.1 = Redis.ZScore key member db
  | None =>
      Cache.UpdatePriority r adID newPriority db
      = (db, Cache.Err (Cache.ErrNotFoundInQueue adID))
  end.
Proof.
  intros Hkey.
  destruct (Redis.ZScore shardKey adID db) as [old |] eqn:Hold.
  - rewrite (UpdatePriority_present _ _ _ _ _ _ Hkey Hold). cbn [fst snd].
    split; [done |]. split; [apply ZScore_ZAdd_eq |]. split.
    + intros Hnonneg. rewrite (rem_is_timeComponent old Hnonneg).
      split; [done |]. apply band_of_rebuilt.
    + intros key member Hne. by apply ZScore_ZAdd_ne.
  - by apply (UpdatePriority_absent _ _ _ _ shardKey).
Qed.

Lemma update_priority_keeps_time_component_witness :
  Cache.getShardKey Sample.manager Sample.idB = Some "queue:shard:1"
  ∧ Redis.ZScore "queue:shard:1" Sample.idB Sample.db3 = Some 38299999998
  ∧ (Cache.UpdatePriority Sample.manager Sample.idB 5 Sample.db3).2
    = Cache.Ok tt
  ∧ Redis.ZScore "queue:shard:1" Sample.idB
      (Cache.UpdatePriority Sample.manager Sample.idB 5 Sample.db3).1
    = Some 58299999998.
Proof.
  pose proof (update_priority_keeps_time_component
                Sample.manager Sample.idB 5 Sample.db3 "queue:shard:1") as H.
  assert (Hs : Redis.ZScore "queue:shard:1" Sample.idB Sample.db3
               = Some 38299999998) by (vm_compute; reflexivity).
  rewrite Hs in H.
  destruct H as (Hok & Hnew & _).
  - vm_compute; reflexivity.
  - split; [vm_compute; reflexivity |].
    split; [exact Hs |].
    split; [exact Hok |].
    rewrite Hnew. vm_compute. reflexivity.
Defined.

(** An entry enqueued at time [t] whose priority is changed afterwards has
    the score of an entry enqueued at [t] with the new priority: the change
    does not reset its age. *)
Lemma update_priority_after_enqueue r adID p p' t db shardKey :
  Cache.getShardKey r adID = Some shardKey →
  0 ≤ GoInt.Unix t ≤ Cache.maxTime → 0 ≤ p →
  Redis.ZScore shardKey adID
    (Cache.UpdatePriority r adID p' (Cache.Enqueue r t adID p db).1).1
  = Some (Cache.calculateScore p' t).
Proof.
  intros Hkey Ht Hp. unfold Cache.Enqueue. rewrite Hkey. cbn [fst].
  rewrite (UpdatePriority_present _ _ _ _ _ _ Hkey (ZScore_ZAdd_eq _ _ _ _)).
  cbn [fst]. rewrite ZScore_ZAdd_eq. f_equal.
  assert (Hnonneg : 0 ≤ Cache.calculateScore p t).
  { unfold Cache.calculateScore, Cache.maxTime in *. lia. }
  rewrite (rem_is_timeComponent _ Hnonneg).
  destruct (manager_score_decode p t Ht) as [_ ->].
  unfold Cache.calculateScore, Cache.P, Cache.maxTime. lia.
Qed.

(** ** GetPosition *)

Lemma ZCount_above key target (db : gmap string (gmap string Z)) :
  Redis.ZCount key (Redis.Excl target) Redis.PosInf db
  = strictlyAbove target (map_to_list (Redis.zset key db)).
Proof.
  unfold Redis.ZCount, strictlyAbove. f_equal.
  rewrite size_filter_entries. f_equal.
  apply list_filter_iff. intros [m s]. unfold Redis.inRange. simpl.
  rewrite andb_true_r. split.
  - intros H. by apply Z.ltb_lt, Is_true_true.
  - intros H. by apply Is_true_true, Z.ltb_lt.
Qed.

Lemma strictlyAbove_app target (l k : list (string * Z)) :
  strictlyAbove target (l ++ k)
  = strictlyAbove target l + strictlyAbove target k.
Proof. unfold strictlyAbove. rewrite filter_app, length_app. lia. Qed.

(** The counting loop of [GetPosition] adds up to the number of entries of
    the visited shards that lie above the target. *)
Lemma position_loop target (db : gmap string (gmap string Z)) keys acc :
  foldl (λ position shardKey,
           position
           + Redis.ZCount shardKey (Redis.Excl target) Redis.PosInf db)
        acc keys
  = acc + strictlyAbove target
            (mjoin ((λ shardKey, map_to_list (Redis.zset shardKey db))
                      <$> keys)).
Proof.
  revert acc. induction keys as [| key keys IH]; intros acc.
  - change (strictlyAbove target (mjoin _)) with 0. simpl. lia.
  - rewrite fmap_cons. cbn [foldl mjoin list_join].
    rewrite IH, ZCount_above, strictlyAbove_app. by rewrite Z.add_assoc.
Qed.

(** The shard names are pairwise distinct, so an entry of the queue is
    listed once for the shard that holds it. *)
Lemma shardKeys_NoDup r : NoDup (Cache.shardKeys r).
Proof.
  unfold Cache.shardKeys. apply NoDup_fmap_2; [| apply NoDup_seqZ].
  intros i j Hij. unfold Cache.shardName in Hij.
  apply (inj (String.app "queue:shard:")) in Hij.
  by apply (inj pretty) in Hij.
Qed.

(** A value in the range of [int] is its own wrap-around. *)
Lemma wrap64_small z : - 2 ^ 63 ≤ z < 2 ^ 63 → GoInt.wrap64 z = z.
Proof. intros Hz. unfold GoInt.wrap64. rewrite Z.mod_small; lia. Qed.

(** With a positive number of shards the shard of an id is one of the
    shards the loops visit. *)
Lemma getShardKey_in_shardKeys r adID :
  0 < Cache.shardCount r ≤ GoInt.maxInt64 →
  ∃ shardKey, Cache.getShardKey r adID = Some shardKey
              ∧ shardKey ∈ Cache.shardKeys r.
Proof.
  intros Hn. unfold Cache.getShardKey, Cache.shardKeys.
  destruct (Z.eqb_spec (Cache.shardCount r) 0) as [? | _]; [lia |].
  eexists; split; [reflexivity |].
  apply list_elem_of_fmap. eexists; split; [reflexivity |].
  apply elem_of_seqZ.
  pose proof (Z.rem_bound_abs (Cache.hashRunes adID) (Cache.shardCount r)
                ltac:(lia)) as Hb.
  set (rm := Z.rem _ _) in *.
  unfold GoInt.maxInt64 in Hn.
  destruct (Z.ltb_spec rm 0).
  - unfold GoInt.sub. rewrite wrap64_small; lia.
  - lia.
Qed.

(** C8. For an id that its shard holds with score [target],
    [GetPosition] returns one plus the number of entries, over all the
    shards of the queue, whose score is strictly greater than [target]. *)
Theorem position_counts_all_shards
    (r : Cache.RedisQueueManager) (adID : Ad.AdID)
    (db : gmap string (gmap string Z)) (shardKey : string) (target : Z) :
  Cache.getShardKey r adID = Some shardKey →
  Redis.ZScore shardKey adID db = Some target →
  Cache.GetPosition r adID db
  = Cache.Ok (strictlyAbove target (queueEntries r db) + 1).
Proof.
  intros Hkey Hscore. unfold Cache.GetPosition.
  rewrite Hkey, Hscore. f_equal.
  by rewrite position_loop, Z.add_0_l.
Qed.

Lemma position_counts_all_shards_witness :
  Cache.getShardKey Sample.manager Sample.idA = Some "queue:shard:0"
  ∧ Redis.ZScore "queue:shard:0" Sample.idA Sample.db3 = Some 38299999999
  ∧ strictlyAbove 38299999999 (queueEntries Sample.manager Sample.db3) = 1
  ∧ Cache.GetPosition Sample.manager Sample.idA Sample.db3 = Cache.Ok 2.
Proof.
  split; [vm_compute; reflexivity |].
  split; [vm_compute; reflexivity |].
  split; [vm_compute; reflexivity |].
  rewrite (position_counts_all_shards Sample.manager Sample.idA Sample.db3
             "queue:shard:0" 38299999999).
  - vm_compute. reflexivity.
  - vm_compute. reflexivity.
  - vm_compute. reflexivity.
Defined.

(** An id that its shard does not hold has no position. *)
Lemma position_of_absent_id r adID db shardKey :
  Cache.getShardKey r adID = Some shardKey →
  Redis.ZScore shardKey adID db = None →
  Cache.GetPosition r adID db = Cache.Err (Cache.ErrNotFoundInQueue adID).
Proof.
  intros Hkey Hscore. unfold Cache.GetPosition. by rewrite Hkey, Hscore.
Qed.

(** ** Dequeue *)

Lemma peek_empty_shards (db : gmap string (gmap string Z)) keys :
  (∀ shardKey, shardKey ∈ keys → Redis.zset shardKey db = ∅) →
  foldl (Cache.peekShard db) None keys = None.
Proof.
  induction keys as [| key keys IH]; intros Hempty; [done |].
  cbn [foldl]. unfold Cache.peekShard at 2.
  rewrite ZRevRange_empty by (apply Hempty; left).
  apply IH. intros k Hk. apply Hempty. by right.
Qed.

(** C10. [Dequeue] on a queue all of whose shards are empty returns no
    item and no error, and the database is the one it was called on. *)
Theorem dequeue_empty_queue
    (validUUID : string → bool) (r : Cache.RedisQueueManager)
    (now : GoInt.Time) (db : gmap string (gmap string Z)) :
  allShardsEmpty r db →
  Cache.Dequeue validUUID r now db = (db, Cache.Ok None).
Proof.
  intros Hempty. unfold Cache.Dequeue.
  by rewrite peek_empty_shards.
Qed.

Lemma dequeue_empty_queue_witness :
  allShardsEmpty Sample.manager ∅
  ∧ Cache.Dequeue (λ _, true) Sample.manager Sample.t0 ∅
    = (∅, Cache.Ok None).
Proof.
  assert (He : allShardsEmpty Sample.manager ∅).
  { intros shardKey _. reflexivity. }
  split; [exact He |].
  exact (dequeue_empty_queue (λ _, true) Sample.manager Sample.t0 ∅ He).
Defined.

(** A queue that holds an entry hands out the best one: the sample queue
    yields the priority-5 item first. *)
Example dequeue_sample :
  (Cache.Dequeue (λ _, true) Sample.manager Sample.t0 Sample.db3).2
  = Cache.Ok (Some (Queue.NewQueueItem Sample.idC 5 Sample.t0)).
Proof. vm_compute. reflexivity. Qed.

(** ** The anti-starvation pass *)

Lemma Sub_bounds t u : - 2 ^ 63 ≤ GoInt.Sub t u ≤ 2 ^ 63 - 1.
Proof.
  unfold GoInt.Sub, GoInt.minInt64, GoInt.maxInt64.
  change (2 ^ 63) with 9223372036854775808. lia.
Qed.

Section Starvation.
Import Cache.

(** An item that has not waited longer than the maximal wait, or whose
    priority is already the highest, is not rewritten. *)
Lemma boostedScore_skip cfg now score :
  ageOf now score ≤ Queue.MaxWaitTime cfg ∨ Ad.PriorityHigh ≤ priorityOf score →
  boostedScore cfg now score = None.
Proof.
  intros Hskip. unfold boostedScore.
  fold (priorityOf score).
  destruct (Z.ltb_spec (Queue.MaxWaitTime cfg) (ageOf now score));
    destruct (Z.ltb_spec (priorityOf score) Ad.PriorityHigh);
    simpl; try done; lia.
Qed.

(** Otherwise the manager adds one priority level for every five minutes
    of the whole age of the item, caps the sum at the highest priority and
    keeps the time-stamp part of the score. *)
Lemma boostedScore_boost cfg now score :
  Queue.MaxWaitTime cfg < ageOf now score →
  priorityOf score < Ad.PriorityHigh →
  - 2 ^ 62 ≤ priorityOf score →
  boostedScore cfg now score
  = Some (Z.min Ad.PriorityHigh
                (priorityOf score + Z.quot (ageOf now score) (5 * GoInt.Minute))
          * P + timestampPartOf score).
Proof.
  intros Hage Hprio Hlow. unfold boostedScore.
  fold (priorityOf score).
  destruct (Z.ltb_spec (Queue.MaxWaitTime cfg) (ageOf now score)); [| lia].
  destruct (Z.ltb_spec (priorityOf score) Ad.PriorityHigh); [| lia].
  cbn [andb].
  set (boost := Z.quot (ageOf now score) (5 * GoInt.Minute)).
  assert (Hbounds : - 2 ^ 63 ≤ ageOf now score ≤ 2 ^ 63 - 1)
    by apply Sub_bounds.
  assert (Hboost : - 2 ^ 62 ≤ boost ≤ 2 ^ 62).
  { subst boost. unfold GoInt.Minute, GoInt.Second. split.
    - apply Z.quot_le_lower_bound; lia.
    - apply Z.quot_le_upper_bound; lia. }
  unfold GoInt.add. unfold Ad.PriorityHigh in *.
  destruct (Z.le_gt_cases (2 ^ 63) (priorityOf score + boost)) as [Hov | Hfit].
  - lia.
  - rewrite wrap64_small by lia.
    unfold timestampPartOf, P.
    destruct (Z.ltb_spec 5 (priorityOf score + boost)).
    + by rewrite Z.min_l by lia.
    + by rewrite Z.min_r by lia.
Qed.

(** A pass with anti-starvation switched off leaves the queue alone. *)
Lemma ApplyAntiStarvation_disabled r clock db :
  Queue.AntiStarvationEnabled (config r) = false →
  ApplyAntiStarvation r clock db = db.
Proof. intros Hoff. unfold ApplyAntiStarvation. by rewrite Hoff. Qed.

End Starvation.

(** The domain rule: a starving aggregate gains one level for every five
    minutes of its overrun, the wait beyond its maximal wait. *)
Lemma effective_priority_counts_overrun now (a : Ad.Ad) :
  Ad.status a = Ad.AdStatusQueued →
  0 ≤ Ad.maxWaitTime a < Ad.WaitTime now a →
  1 ≤ Ad.priority a ≤ 5 →
  Ad.CalculateEffectivePriority true now now a
  = Z.min 5 (Ad.priority a
             + (Ad.WaitTime now a - Ad.maxWaitTime a) / (5 * GoInt.Minute)).
Proof.
  intros Hq Hw Hp. unfold Ad.CalculateEffectivePriority, Ad.IsStarving.
  rewrite Hq. simpl.
  destruct (Z.ltb_spec (Ad.maxWaitTime a) (Ad.WaitTime now a)); [| lia].
  assert (Hhi : Ad.WaitTime now a ≤ 2 ^ 63 - 1).
  { unfold Ad.WaitTime. destruct (Ad.processingStartedAt a);
      apply Sub_bounds. }
  unfold GoInt.sub. rewrite wrap64_small by lia.
  set (overrun := Ad.WaitTime now a - Ad.maxWaitTime a) in *.
  rewrite Z.quot_div_nonneg by (unfold GoInt.Minute, GoInt.Second; lia).
  assert (Hb : 0 ≤ overrun / (5 * GoInt.Minute) ≤ 2 ^ 62).
  { unfold GoInt.Minute, GoInt.Second. split.
    - apply Z.div_pos; lia.
    - apply Z.div_le_upper_bound; lia. }
  unfold GoInt.add. rewrite wrap64_small by lia.
  unfold Ad.PriorityHigh.
  destruct (Z.ltb_spec 5 (Ad.priority a + overrun / (5 * GoInt.Minute))).
  - by rewrite Z.min_l by lia.
  - by rewrite Z.min_r by lia.
Qed.

(** C3. An entry of priority 1 that has waited eleven minutes under a
    maximal wait of ten minutes.  The overrun of one minute gives the boost
    [⌊1 min / 5 min⌋ = 0], so the specified rule (and
    [CalculateEffectivePriority] of the aggregate) keeps priority 1; the
    pass of the queue manager divides the whole age by five minutes, boosts
    by 2 and moves the entry to the band of priority 3, with the time
    component of its score unchanged. *)
Theorem starvation_pass_boosts_by_whole_age :
  let now := Sample.t0 + 11 * GoInt.Minute in
  let old := 18299999999 in
  let after := Cache.ApplyAntiStarvation Sample.manager (λ _, now)
                                         Sample.dbLow in
  Redis.ZScore "queue:shard:0" Sample.idA Sample.dbLow = Some old
  ∧ bandOf old = 1
  ∧ Cache.ageOf now old = 11 * GoInt.Minute
  ∧ Queue.MaxWaitTime (Cache.config Sample.manager) = 10 * GoInt.Minute
  ∧ Z.min 5 (bandOf old
             + (Cache.ageOf now old
                - Queue.MaxWaitTime (Cache.config Sample.manager))
               / (5 * GoInt.Minute)) = 1
  ∧ Ad.CalculateEffectivePriority true now now Sample.patientAd = 1
  ∧ Redis.ZScore "queue:shard:0" Sample.idA after = Some 38299999999
  ∧ bandOf 38299999999 = 3
  ∧ timeComponent 38299999999 = timeComponent old.
Proof. vm_compute. by repeat split. Qed.

(** ** The pass over the whole queue *)

Section Pass.
Import Cache.
Implicit Types (db : gmap string (gmap string Z)).

Lemma slice_all {A : Type} (l : list A) : Redis.slice 0 (-1) l = l.
Proof.
  unfold Redis.slice. cbn [Z.ltb Z.compare].
  destruct l as [| x l]; [done |].
  set (n := Z.of_nat (length (x :: l))).
  assert (Hn : 0 < n) by (subst n; simpl; lia).
  replace (Z.min (-1 + n) (n - 1)) with (n - 1) by lia.
  destruct (Z.ltb_spec (n - 1) 0); [lia |].
  destruct (Z.leb_spec n 0); [lia |]. cbn [orb].
  replace (Z.to_nat (n - 1 - 0 + 1)) with (length (x :: l)) by (subst n; lia).
  by rewrite drop_0, firstn_all.
Qed.

(** The items the pass reads from a shard are the entries of the shard. *)
Lemma pass_items_entries key db m s :
  (m, s) ∈ Redis.ZRangeWithScores key 0 (-1) db ↔ Redis.ZScore key m db = Some s.
Proof.
  unfold Redis.ZRangeWithScores, Redis.ascending, Redis.ZScore.
  rewrite slice_all, merge_sort_Permutation. apply elem_of_map_to_list.
Qed.

Lemma pass_items_NoDup key db :
  NoDup (Redis.ZRangeWithScores key 0 (-1) db).*1.
Proof.
  unfold Redis.ZRangeWithScores, Redis.ascending.
  rewrite slice_all, merge_sort_Permutation. apply NoDup_fst_map_to_list.
Qed.

(** One item: the score written for it, and nothing else touched. *)
Lemma boostItem_own cfg clock key db tick m s :
  Redis.ZScore key m db = Some s →
  Redis.ZScore key m (boostItem cfg clock key (db, tick) (m, s)).1
  = Some (default s (boostedScore cfg (clock tick) s)).
Proof.
  intros Hs. unfold boostItem. cbn [fst snd].
  destruct (boostedScore cfg (clock tick) s) as [s' |]; cbn [fst default].
  - apply ZScore_ZAdd_eq.
  - done.
Qed.

Lemma boostItem_other cfg clock key db tick item k m :
  (k, m) ≠ (key, item.1) →
  Redis.ZScore k m (boostItem cfg clock key (db, tick) item).1
  = Redis.ZScore k m db.
Proof.
  intros Hne. unfold boostItem.
  destruct (boostedScore cfg (clock tick) item.2); cbn [fst]; [| done].
  by apply ZScore_ZAdd_ne.
Qed.

Lemma boostItem_tick cfg clock key db tick item :
  (boostItem cfg clock key (db, tick) item).2 = S tick.
Proof.
  unfold boostItem. by destruct (boostedScore cfg (clock tick) item.2).
Qed.

(** The inner loop over the items read from one shard. *)
Lemma boost_loop cfg clock key items : ∀ db tick,
  NoDup items.*1 →
  (∀ m s, (m, s) ∈ items → Redis.ZScore key m db = Some s) →
  let st' := foldl (boostItem cfg clock key) (db, tick) items in
  (∀ k m, (k = key → m ∉ items.*1) →
          Redis.ZScore k m st'.1 = Redis.ZScore k m db)
  ∧ (∀ m s, (m, s) ∈ items →
            ∃ n, Redis.ZScore key m st'.1
                 = Some (default s (boostedScore cfg (clock n) s))).
Proof.
  induction items as [| [m0 s0] items IH]; intros db tick Hnd Hsnap.
  - split; [done |]. intros m s Hin. by apply elem_of_nil in Hin.
  - cbn [foldl]. rewrite fmap_cons in Hnd. cbn [fst] in Hnd.
    apply NoDup_cons in Hnd as [Hfresh Hnd].
    pose proof (boostItem_tick cfg clock key db tick (m0, s0)) as Htick.
    destruct (boostItem cfg clock key (db, tick) (m0, s0))
      as [db1 tick1] eqn:Hstep.
    assert (Hown : Redis.ZScore key m0 db1
                   = Some (default s0 (boostedScore cfg (clock tick) s0))).
    { pose proof (boostItem_own cfg clock key db tick m0 s0) as H.
      rewrite Hstep in H. apply H, Hsnap. left. }
    assert (Hother : ∀ k m, (k, m) ≠ (key, m0) →
                            Redis.ZScore k m db1 = Redis.ZScore k m db).
    { intros k m Hne.
      pose proof (boostItem_other cfg clock key db tick (m0, s0) k m Hne)
        as H.
      by rewrite Hstep in H. }
    destruct (IH db1 tick1 Hnd) as [Hframe Hitems].
    { intros m s Hin. rewrite Hother.
      - apply Hsnap. by right.
      - intros [= ->]. apply Hfresh.
        apply list_elem_of_fmap. by exists (m0, s). }
    split.
    + intros k m Hout. rewrite Hframe.
      * apply Hother. intros [= -> ->]. apply (Hout eq_refl).
        rewrite fmap_cons. left.
      * intros Hk. specialize (Hout Hk). rewrite fmap_cons in Hout.
        intros Hin. apply Hout. by right.
    + intros m s Hin. apply elem_of_cons in Hin as [[= -> ->] | Hin].
      * exists tick. rewrite Hframe; [done |]. by intros _.
      * by apply Hitems.
Qed.

(** The outer loop over the shards. *)
Lemma pass_loop cfg clock keys : ∀ db tick,
  NoDup keys →
  let st' :=
    foldl (λ st shardKey,
             let items := Redis.ZRangeWithScores shardKey 0 (-1) st.1 in
             foldl (boostItem cfg clock shardKey) st items)
          (db, tick) keys in
  (∀ k m, k ∉ keys → Redis.ZScore k m st'.1 = Redis.ZScore k m db)
  ∧ (∀ k m s, k ∈ keys → Redis.ZScore k m db = Some s →
              ∃ n, Redis.ZScore k m st'.1
                   = Some (default s (boostedScore cfg (clock n) s)))
  ∧ (∀ k m, k ∈ keys → Redis.ZScore k m db = None →
            Redis.ZScore k m st'.1 = None).
Proof.
  induction keys as [| key keys IH]; intros db tick Hnd.
  - repeat split; try done; intros ? ? ? Hin; by apply elem_of_nil in Hin.
  - cbn [foldl fst]. apply NoDup_cons in Hnd as [Hfresh Hnd].
    destruct (boost_loop cfg clock key
                (Redis.ZRangeWithScores key 0 (-1) db) db tick
                (pass_items_NoDup key db)) as [Hframe Hitems].
    { intros m s. apply pass_items_entries. }
    destruct (foldl (boostItem cfg clock key) (db, tick)
                    (Redis.ZRangeWithScores key 0 (-1) db))
      as [db1 tick1] eqn:Hinner.
    cbn [fst] in Hframe, Hitems.
    destruct (IH db1 tick1 Hnd) as (Hout & Hin & Hnone).
    assert (Hrest : ∀ k m, k ≠ key →
                           Redis.ZScore k m db1 = Redis.ZScore k m db).
    { intros k m Hk. apply Hframe. by intros ->. }
    split; [| split].
    + intros k m Hk. rewrite Hout.
      * apply Hrest. intros ->. apply Hk. left.
      * intros Hin'. apply Hk. by right.
    + intros k m s Hk Hs. apply elem_of_cons in Hk as [-> | Hk].
      * rewrite Hout by done. apply Hitems. by apply pass_items_entries.
      * apply Hin; [done |]. rewrite Hrest; [done |]. by intros ->.
    + intros k m Hk Hs. apply elem_of_cons in Hk as [-> | Hk].
      * rewrite Hout by done. rewrite Hframe; [done |].
        intros _ Hm. apply list_elem_of_fmap in Hm as [[m' s'] [-> Hm]].
        apply pass_items_entries in Hm. cbn [fst] in Hs. congruence.
      * apply Hnone; [done |]. rewrite Hrest; [done |]. by intros ->.
Qed.

(** What an anti-starvation pass does to the queue.  Every entry of a
    shard is rewritten to the score [boostedScore] computes from it at the
    time its item is visited, or kept when [boostedScore] asks for no
    rewrite; no entry appears or disappears, and keys other than the shards
    are not touched. *)
Lemma starvation_pass_entries r clock db :
  Queue.AntiStarvationEnabled (config r) = true →
  let after := ApplyAntiStarvation r clock db in
  (∀ k m, k ∉ shardKeys r → Redis.ZScore k m after = Redis.ZScore k m db)
  ∧ (∀ k m s, k ∈ shardKeys r → Redis.ZScore k m db = Some s →
              ∃ n, Redis.ZScore k m after
                   = Some (default s (boostedScore (config r) (clock n) s)))
  ∧ (∀ k m, k ∈ shardKeys r → Redis.ZScore k m db = None →
            Redis.ZScore k m after = None).
Proof.
  intros Hon. unfold ApplyAntiStarvation. rewrite Hon. cbn [negb].
  apply pass_loop, shardKeys_NoDup.
Qed.

(** A rewritten score keeps the time component of the score it replaces
    and lies in a band between the old priority and the highest one, as
    long as the age is not negative. *)
Lemma boostedScore_keeps_time_component cfg now score score' :
  0 ≤ score →
  boostedScore cfg now score = Some score' →
  timeComponent score' = timeComponent score
  ∧ bandOf score' ≤ Ad.PriorityHigh
  ∧ (0 ≤ ageOf now score → bandOf score ≤ bandOf score').
Proof.
  intros Hnonneg Hb.
  assert (Hp : 0 ≤ priorityOf score).
  { unfold priorityOf. apply Z.quot_pos; lia. }
  destruct (Z.ltb_spec (Queue.MaxWaitTime cfg) (ageOf now score)) as [Ha | Ha].
  2: { rewrite boostedScore_skip in Hb by (by left). done. }
  destruct (Z.ltb_spec (priorityOf score) Ad.PriorityHigh) as [Hq | Hq].
  2: { rewrite boostedScore_skip in Hb by (by right). done. }
  rewrite boostedScore_boost in Hb by lia. injection Hb as <-.
  rewrite timestampPart_nonneg by done.
  destruct (band_of_rebuilt
              (Z.min Ad.PriorityHigh
                 (priorityOf score
                  + Z.quot (ageOf now score) (5 * GoInt.Minute))) score)
    as [-> ->].
  split; [done |]. split; [lia |]. intros Hage.
  rewrite <- priorityOf_nonneg by done.
  assert (0 ≤ Z.quot (ageOf now score) (5 * GoInt.Minute)).
  { apply Z.quot_pos; [done |]. unfold GoInt.Minute, GoInt.Second. lia. }
  lia.
Qed.

End Pass.

(** ** The priority batch of the repositories *)

(** C4. The in-memory repository on a store with a queued row [idA] and a
    row [idB] that is being processed: the batch over [idA; idB] returns the
    error of [idB], yet the row [idA] visited before it keeps its new
    priority and its incremented version. *)
Theorem memory_batch_keeps_partial_update :
  let after := Persistence.UpdatePriorityBatch
                 [Sample.idA; Sample.idB] 5 Sample.ads2 in
  Ad.status <$> (Sample.ads2 !! Sample.idA) = Some Ad.AdStatusQueued
  ∧ Ad.status <$> (Sample.ads2 !! Sample.idB) = Some Ad.AdStatusProcessing
  ∧ Ad.priority <$> (Sample.ads2 !! Sample.idA) = Some 2
  ∧ Ad.version <$> (Sample.ads2 !! Sample.idA) = Some 1
  ∧ after.2 = Some (Persistence.ErrUpdatePriority
                      Sample.idB Ad.ErrCannotChangePriorityAfterProcessing)
  ∧ Ad.priority <$> (after.1 !! Sample.idA) = Some 5
  ∧ Ad.version <$> (after.1 !! Sample.idA) = Some 2.
Proof. vm_compute. by repeat split. Qed.

(** The in-memory batch also rewrites a row whose status is FAILED. *)
Example memory_batch_rewrites_failed_row :
  let store := Persistence.Save Sample.failedAd ∅ in
  let after := Persistence.UpdatePriorityBatch [Sample.idA] 5 store in
  after.2 = None
  ∧ Ad.status <$> (after.1 !! Sample.idA) = Some Ad.AdStatusFailed
  ∧ Ad.priority <$> (after.1 !! Sample.idA) = Some 5.
Proof. vm_compute. by repeat split. Qed.

Section Postgres.
Import Persistence.

Lemma batchEffect_nil newPriority j row : batchEffect [] newPriority j row = row.
Proof.
  unfold batchEffect. case_bool_decide as Hc; [| done].
  destruct Hc as [Hin _]. by apply elem_of_nil in Hin.
Qed.

Lemma batchEffect_cons id ids newPriority j row :
  id ∉ ids →
  batchEffect (id :: ids) newPriority j row
  = batchEffect ids newPriority j (batchEffect [id] newPriority j row).
Proof.
  intros Hnotin. unfold batchEffect.
  destruct (decide (j = id)) as [-> | Hne].
  - rewrite (bool_decide_eq_false_2 (id ∈ ids ∧ _)) by tauto.
    erewrite bool_decide_ext; [reflexivity |].
    rewrite list_elem_of_singleton, elem_of_cons. tauto.
  - rewrite (bool_decide_eq_false_2 (j ∈ [id] ∧ _)).
    + erewrite bool_decide_ext; [reflexivity |].
      rewrite elem_of_cons. tauto.
    + rewrite list_elem_of_singleton. tauto.
Qed.

Lemma batchEffect_single_eq newPriority id row :
  batchEffect [id] newPriority id row
  = if bool_decide (Ad.status row = Ad.AdStatusQueued)
    then rewritten newPriority row else row.
Proof.
  unfold batchEffect. erewrite bool_decide_ext; [reflexivity |].
  rewrite list_elem_of_singleton. tauto.
Qed.

Lemma batchEffect_single_ne newPriority id j row :
  j ≠ id → batchEffect [id] newPriority j row = row.
Proof.
  intros Hne. unfold batchEffect. case_bool_decide as Hc; [| done].
  destruct Hc as [Hin _]. by apply list_elem_of_singleton in Hin.
Qed.

Lemma execUpdate_lookup newPriority id tx tx' j :
  execUpdate newPriority id tx = Some tx' →
  tx' !! j = batchEffect [id] newPriority j <$> tx !! j.
Proof.
  unfold execUpdate. intros Hex.
  destruct (decide (j = id)) as [-> | Hne].
  - destruct (tx !! id) as [row |] eqn:Hrow.
    + cbn [fmap option_fmap option_map]. rewrite batchEffect_single_eq.
      case_bool_decide as Hq.
      * destruct (Ad.IsValid newPriority && _); [| done].
        injection Hex as <-. by rewrite lookup_insert_eq.
      * injection Hex as <-. done.
    + injection Hex as <-. by rewrite Hrow.
  - assert (Hj : tx' !! j = tx !! j).
    { destruct (tx !! id) as [row |] eqn:Hrow.
      - case_bool_decide as Hq.
        + destruct (Ad.IsValid newPriority && _); [| done].
          injection Hex as <-. by rewrite lookup_insert_ne.
        + by injection Hex as <-.
      - by injection Hex as <-. }
    rewrite Hj. destruct (tx !! j) as [rowj |]; [| done].
    cbn [fmap option_fmap option_map]. by rewrite batchEffect_single_ne.
Qed.

Lemma execAll_lookup down ids : ∀ n newPriority tx tx' n' j,
  NoDup ids →
  execAll down n ids newPriority tx = (tx', n', None) →
  tx' !! j = batchEffect ids newPriority j <$> tx !! j.
Proof.
  induction ids as [| id ids IH]; intros n newPriority tx tx' n' j Hnd Hex.
  - injection Hex as <- _.
    destruct (tx !! j) as [row |]; [| done].
    cbn [fmap option_fmap option_map]. by rewrite batchEffect_nil.
  - cbn [execAll] in Hex. destruct (down n); [done |].
    destruct (execUpdate newPriority id tx) as [tx1 |] eqn:Hup; [| done].
    apply NoDup_cons in Hnd as [Hnotin Hnd].
    rewrite (IH _ _ _ _ _ j Hnd Hex).
    rewrite (execUpdate_lookup _ _ _ _ j Hup).
    destruct (tx !! j) as [row |]; [| done].
    simpl. by rewrite (batchEffect_cons _ _ _ _ _ Hnotin).
Qed.

(** The PostgreSQL batch is all-or-nothing: with an error the table is
    the one the call started from. *)
Lemma postgres_batch_error_changes_nothing down ids newPriority table
    table' e :
  PostgresUpdatePriorityBatch down ids newPriority table = (table', Some e) →
  table' = table.
Proof.
  unfold PostgresUpdatePriorityBatch. destruct ids as [| id ids]; [done |].
  destruct (down 0%nat); [by intros [= <- _] |].
  destruct (execAll down 1 (id :: ids) newPriority table)
    as [[tx n] [e' |]].
  - by intros [= <- _].
  - destruct (down n); by intros [= <- _].
Qed.

(** A batch that succeeds over distinct ids rewrites exactly the rows of
    the given ids whose status is QUEUED, each to the new priority and to
    its version plus one. *)
Lemma postgres_batch_success down ids newPriority table table' id :
  NoDup ids →
  PostgresUpdatePriorityBatch down ids newPriority table = (table', None) →
  table' !! id = batchEffect ids newPriority id <$> table !! id.
Proof.
  intros Hnd. unfold PostgresUpdatePriorityBatch.
  destruct ids as [| i ids].
  - intros [= <-].
    destruct (table !! id) as [row |]; [| done].
    cbn [fmap option_fmap option_map]. by rewrite batchEffect_nil.
  - destruct (down 0%nat); [done |].
    destruct (execAll down 1 (i :: ids) newPriority table)
      as [[tx n] [e' |]] eqn:Hex; [done |].
    destruct (down n); [done |]. intros [= <-].
    by apply (execAll_lookup down (i :: ids) 1 newPriority table tx n id).
Qed.

(** An id listed twice is updated twice inside the transaction. *)
Example postgres_batch_duplicate_id :
  let table := Save (Sample.queuedAd Sample.idA 2) ∅ in
  let after := PostgresUpdatePriorityBatch (λ _, false)
                 [Sample.idA; Sample.idA] 5 table in
  after.2 = None
  ∧ Ad.priority <$> (after.1 !! Sample.idA) = Some 5
  ∧ Ad.version <$> (after.1 !! Sample.idA) = Some 3.
Proof. vm_compute. by repeat split. Qed.

(** A row that is being processed is skipped, not reported. *)
Example postgres_batch_skips_processing_row :
  let after := PostgresUpdatePriorityBatch (λ _, false)
                 [Sample.idA; Sample.idB] 5 Sample.ads2 in
  after.2 = None
  ∧ Ad.priority <$> (after.1 !! Sample.idA) = Some 5
  ∧ Ad.version <$> (after.1 !! Sample.idA) = Some 2
  ∧ after.1 !! Sample.idB = Sample.ads2 !! Sample.idB.
Proof. vm_compute. by repeat split. Qed.

End Postgres.

(** ** Command validation *)

Section Validation.
Import Command.










End Validation.



(** ** Removal from a sorted set *)

Section RedisRemoval.
Implicit Types (db : gmap string (gmap string Z)) (key member : string).

Lemma zset_store_eq key s db : Redis.zset key (Redis.store key s db) = s.
Proof.
  unfold Redis.store, Redis.zset. case_decide as He.
  - by rewrite lookup_delete_eq, He.
  - by rewrite lookup_insert_eq.
Qed.

Lemma zset_store_ne key key' s db :
  key ≠ key' → Redis.zset key' (Redis.store key s db) = Redis.zset key' db.
Proof.
  intros Hne. unfold Redis.store, Redis.zset. case_decide.
  - by rewrite lookup_delete_ne.
  - by rewrite lookup_insert_ne.
Qed.

Lemma zset_ZRem_eq key member db :
  Redis.zset key (Redis.ZRem key [member] db).1
  = delete member (Redis.zset key db).
Proof. unfold Redis.ZRem. cbn [fst foldr]. apply zset_store_eq. Qed.

Lemma zset_ZRem_ne key key' member db :
  key ≠ key' →
  Redis.zset key' (Redis.ZRem key [member] db).1 = Redis.zset key' db.
Proof. intros Hne. unfold Redis.ZRem. cbn [fst]. by apply zset_store_ne. Qed.

Lemma ZScore_ZRem_eq key member db :
  Redis.ZScore key member (Redis.ZRem key [member] db).1 = None.
Proof. unfold Redis.ZScore. by rewrite zset_ZRem_eq, lookup_delete_eq. Qed.

Lemma ZScore_ZRem_ne key member key' member' db :
  (key', member') ≠ (key, member) →
  Redis.ZScore key' member' (Redis.ZRem key [member] db).1
  = Redis.ZScore key' member' db.
Proof.
  intros Hne. unfold Redis.ZScore.
  destruct (decide (key = key')) as [<- | Hk].
  - rewrite zset_ZRem_eq, lookup_delete_ne; [done | congruence].
  - by rewrite zset_ZRem_ne.
Qed.

Lemma ZRem_count key member db :
  (Redis.ZRem key [member] db).2
  = match Redis.ZScore key member db with Some _ => 1 | None => 0 end.
Proof.
  unfold Redis.ZRem, Redis.ZScore. cbn [snd foldr].
  destruct (Redis.zset key db !! member) as [s |] eqn:Hm.
  - assert (Hsome : is_Some (Redis.zset key db !! member)) by eauto.
    pose proof (map_size_delete_Some member (Redis.zset key db) Hsome).
    pose proof (map_size_ne_0_lookup_2 (Redis.zset key db) member Hsome).
    lia.
  - rewrite map_size_delete_None by done. lia.
Qed.

(** Two well-formed databases with the same sorted sets are equal. *)
Lemma wellFormed_ext db db' :
  wellFormed db → wellFormed db' →
  (∀ key, Redis.zset key db = Redis.zset key db') → db = db'.
Proof.
  intros Hwf Hwf' Heq. apply map_eq. intros key.
  specialize (Heq key). unfold Redis.zset in Heq.
  specialize (Hwf key). specialize (Hwf' key).
  destruct (db !! key) as [s |], (db' !! key) as [s' |];
    simpl in Heq; subst; done.
Qed.

Lemma wellFormed_store key s db :
  wellFormed db → wellFormed (Redis.store key s db).
Proof.
  intros Hwf k. unfold Redis.store. case_decide as He.
  - destruct (decide (key = k)) as [<- | Hne].
    + by rewrite lookup_delete_eq.
    + rewrite lookup_delete_ne by done. apply Hwf.
  - destruct (decide (key = k)) as [<- | Hne].
    + rewrite lookup_insert_eq. congruence.
    + rewrite lookup_insert_ne by done. apply Hwf.
Qed.

Lemma wellFormed_ZAdd key member score db :
  wellFormed db → wellFormed (Redis.ZAdd key member score db).
Proof.
  intros Hwf k. unfold Redis.ZAdd.
  destruct (decide (key = k)) as [<- | Hne].
  - rewrite lookup_insert_eq. intros [= He].
    apply (insert_non_empty _ _ _ He).
  - rewrite lookup_insert_ne by done. apply Hwf.
Qed.

Lemma wellFormed_empty : wellFormed ∅.
Proof. intros key. by rewrite lookup_empty. Qed.

End RedisRemoval.

(** ** Enqueue and Remove *)

Section EnqueueRemove.
Import Cache.
Implicit Types (db : gmap string (gmap string Z)).

Lemma Enqueue_unfold r now adID p db shardKey :
  getShardKey r adID = Some shardKey →
  Enqueue r now adID p db
  = (Redis.ZAdd shardKey adID (calculateScore p now) db, Ok tt).
Proof. intros Hkey. unfold Enqueue. by rewrite Hkey. Qed.

Lemma Remove_unfold r adID db shardKey :
  getShardKey r adID = Some shardKey →
  Remove r adID db
  = ((Redis.ZRem shardKey [adID] db).1,
     match Redis.ZScore shardKey adID db with
     | Some _ => Ok tt
     | None => Err (ErrNotFoundInQueue adID)
     end).
Proof.
  intros Hkey. unfold Remove. rewrite Hkey.
  destruct (Redis.ZRem shardKey [adID] db) as [db' removed] eqn:Hrem.
  assert (Hc : removed = match Redis.ZScore shardKey adID db with
                         | Some _ => 1 | None => 0 end).
  { rewrite <- ZRem_count. unfold Ad.AdID in *. by rewrite Hrem. }
  cbn [fst snd]. rewrite Hc.
  by destruct (Redis.ZScore shardKey adID db).
Qed.

(** Removing a member a sorted set does not hold changes no lookup. *)
Lemma ZRem_absent shardKey adID db k m :
  Redis.ZScore shardKey adID db = None →
  Redis.ZScore k m (Redis.ZRem shardKey [adID] db).1 = Redis.ZScore k m db.
Proof.
  intros Habs. destruct (decide ((k, m) = (shardKey, adID))) as [[= -> ->] | Hne].
  - by rewrite ZScore_ZRem_eq.
  - by apply ZScore_ZRem_ne.
Qed.

Lemma wellFormed_ZRem shardKey adID db :
  wellFormed db → wellFormed (Redis.ZRem shardKey [adID] db).1.
Proof. intros Hwf. unfold Redis.ZRem. cbn [fst]. by apply wellFormed_store. Qed.

End EnqueueRemove.

(** X1. [Remove] of an id its shard holds succeeds, deletes that entry and
    no other; of an id its shard does not hold it returns the
    not-in-queue error and every entry is as before.  In both cases a
    well-formed database stays well-formed. *)
Theorem remove_deletes_only_its_entry
    (r : Cache.RedisQueueManager) (adID : Ad.AdID)
    (db : gmap string (gmap string Z)) (shardKey : string) :
  Cache.getShardKey r adID = Some shardKey →
  let after := Cache.Remove r adID db in
  (wellFormed db → wellFormed after.1)
  ∧ match Redis.ZScore shardKey adID db with
    | Some _ =>
        after.2 = Cache.Ok tt
        ∧ Redis.ZScore shardKey adID after.1 = None
        ∧ ∀ key member, (key, member) ≠ (shardKey, adID) →
            Redis.ZScore key member after.1 = Redis.ZScore key member db
    | None =>
        after.2 = Cache.Err (Cache.ErrNotFoundInQueue adID)
        ∧ ∀ key member,
            Redis.ZScore key member after.1 = Redis.ZScore key member db
    end.
Proof.
  intros Hkey. rewrite (Remove_unfold _ _ _ _ Hkey). cbn [fst snd].
  split; [apply wellFormed_ZRem |].
  destruct (Redis.ZScore shardKey adID db) as [s |] eqn:Hs.
  - split; [done |]. split; [apply ZScore_ZRem_eq |].
    intros key member Hne. by apply ZScore_ZRem_ne.
  - split; [done |]. intros key member. by apply ZRem_absent.
Qed.

Lemma remove_deletes_only_its_entry_witness :
  Cache.getShardKey Sample.manager Sample.idB = Some "queue:shard:1"
  ∧ (Cache.Remove Sample.manager Sample.idB Sample.db3).2 = Cache.Ok tt
  ∧ Redis.ZScore "queue:shard:1" Sample.idB
      (Cache.Remove Sample.manager Sample.idB Sample.db3).1 = None
  ∧ Redis.ZScore "queue:shard:1" Sample.idC
      (Cache.Remove Sample.manager Sample.idB Sample.db3).1
    = Some 58299999997.
Proof.
  assert (Hkey : Cache.getShardKey Sample.manager Sample.idB
                 = Some "queue:shard:1") by (vm_compute; reflexivity).
  pose proof (remove_deletes_only_its_entry
                Sample.manager Sample.idB Sample.db3 "queue:shard:1" Hkey)
    as [_ H].
  assert (Hs : Redis.ZScore "queue:shard:1" Sample.idB Sample.db3
               = Some 38299999998) by (vm_compute; reflexivity).
  rewrite Hs in H. destruct H as (Hok & Hgone & Hframe).
  split; [exact Hkey |]. split; [exact Hok |]. split; [exact Hgone |].
  rewrite Hframe.
  - vm_compute. reflexivity.
  - unfold Sample.idC, Sample.idB. intros Heq. discriminate Heq.
Defined.

(** X2. Enqueueing an id that is not queued and removing it again gives
    back the very database the pair of calls started from. *)
Theorem enqueue_then_remove_restores
    (r : Cache.RedisQueueManager) (now : GoInt.Time) (adID : Ad.AdID)
    (p : Ad.Priority) (db : gmap string (gmap string Z))
    (shardKey : string) :
  Cache.getShardKey r adID = Some shardKey →
  wellFormed db →
  Redis.ZScore shardKey adID db = None →
  Cache.Remove r adID (Cache.Enqueue r now adID p db).1 = (db, Cache.Ok tt).
Proof.
  intros Hkey Hwf Habs.
  rewrite (Enqueue_unfold _ _ _ _ _ _ Hkey). cbn [fst].
  rewrite (Remove_unfold _ _ _ _ Hkey), ZScore_ZAdd_eq. f_equal.
  apply wellFormed_ext; [by apply wellFormed_ZRem, wellFormed_ZAdd | done |].
  intros key. destruct (decide (shardKey = key)) as [<- | Hne].
  - rewrite zset_ZRem_eq, zset_ZAdd_eq, delete_insert_eq.
    by apply delete_id.
  - by rewrite zset_ZRem_ne, zset_ZAdd_ne.
Qed.

Lemma enqueue_then_remove_restores_witness :
  Cache.getShardKey Sample.manager Sample.idB = Some "queue:shard:1"
  ∧ wellFormed Sample.dbLow
  ∧ Redis.ZScore "queue:shard:1" Sample.idB Sample.dbLow = None
  ∧ Cache.Remove Sample.manager Sample.idB
      (Cache.Enqueue Sample.manager Sample.t0 Sample.idB 4 Sample.dbLow).1
    = (Sample.dbLow, Cache.Ok tt).
Proof.
  assert (Hkey : Cache.getShardKey Sample.manager Sample.idB
                 = Some "queue:shard:1") by (vm_compute; reflexivity).
  assert (Hwf : wellFormed Sample.dbLow).
  { unfold Sample.dbLow, Cache.Enqueue.
    destruct (Cache.getShardKey Sample.manager Sample.idA);
      cbn [fst]; [apply wellFormed_ZAdd |]; apply wellFormed_empty. }
  assert (Habs : Redis.ZScore "queue:shard:1" Sample.idB Sample.dbLow = None)
    by (vm_compute; reflexivity).
  split; [exact Hkey |]. split; [exact Hwf |]. split; [exact Habs |].
  exact (enqueue_then_remove_restores Sample.manager Sample.t0 Sample.idB 4
           Sample.dbLow "queue:shard:1" Hkey Hwf Habs).
Defined.

(** ** The size of the queue *)

Section Size.
Import Cache.
Implicit Types (db : gmap string (gmap string Z)).

(** A sum over the shards in which one shard changes by [d]. *)
Lemma shard_sum_change (f g : string → Z) keys key d : ∀ acc,
  NoDup keys → key ∈ keys →
  g key = f key + d → (∀ k, k ≠ key → g k = f k) →
  foldl (λ total k, total + g k) acc keys
  = foldl (λ total k, total + f k) acc keys + d.
Proof.
  induction keys as [| k keys IH]; intros acc Hnd Hin Hkey Hother.
  - by apply elem_of_nil in Hin.
  - cbn [foldl]. apply NoDup_cons in Hnd as [Hfresh Hnd].
    destruct (decide (k = key)) as [-> | Hne].
    + rewrite Hkey.
      assert (Hsame : ∀ a,
                foldl (λ total k, total + g k) a keys
                = foldl (λ total k, total + f k) a keys).
      { clear -Hfresh Hother. induction keys as [| k' keys IH']; intros a;
          [done |]. cbn [foldl]. rewrite Hother.
        - apply IH'. intros Hin. apply Hfresh. by right.
        - intros ->. apply Hfresh. left. }
      rewrite Hsame.
      assert (Hshift : ∀ l a e,
                foldl (λ total k, total + f k) (a + e) l
                = foldl (λ total k, total + f k) a l + e).
      { clear. induction l as [| k' l IHl]; intros a e; [done |].
        cbn [foldl]. rewrite <- IHl. f_equal. lia. }
      rewrite <- Hshift. f_equal. lia.
    + rewrite Hother by done. apply IH; try done.
      apply elem_of_cons in Hin as [-> | Hin]; [done | exact Hin].
Qed.

Lemma ZCard_ZAdd key adID score db :
  Redis.ZCard key (Redis.ZAdd key adID score db)
  = Redis.ZCard key db
    + match Redis.ZScore key adID db with Some _ => 0 | None => 1 end.
Proof.
  unfold Redis.ZCard, Redis.ZScore. rewrite zset_ZAdd_eq, map_size_insert.
  destruct (Redis.zset key db !! adID); simpl; lia.
Qed.

Lemma ZCard_ZRem key adID db :
  Redis.ZCard key (Redis.ZRem key [adID] db).1
  = Redis.ZCard key db
    + match Redis.ZScore key adID db with Some _ => -1 | None => 0 end.
Proof.
  unfold Redis.ZCard, Redis.ZScore. rewrite zset_ZRem_eq, map_size_delete.
  destruct (Redis.zset key db !! adID) as [s |] eqn:Hs; simpl; [| lia].
  assert (Hsome : is_Some (Redis.zset key db !! adID)) by eauto.
  pose proof (map_size_ne_0_lookup_2 (Redis.zset key db) adID Hsome). lia.
Qed.

End Size.

(** X3. [GetSize] keeps count of the ids: with a positive number of shards
    it grows by one when an id that is not queued is enqueued, stays the
    same when a queued id is enqueued again, and shrinks by one when a
    queued id is removed. *)
Theorem size_counts_queued_ids
    (r : Cache.RedisQueueManager) (now : GoInt.Time) (adID : Ad.AdID)
    (p : Ad.Priority) (db : gmap string (gmap string Z))
    (shardKey : string) :
  0 < Cache.shardCount r ≤ GoInt.maxInt64 →
  Cache.getShardKey r adID = Some shardKey →
  Cache.GetSize r (Cache.Enqueue r now adID p db).1
  = Cache.GetSize r db
    + match Redis.ZScore shardKey adID db with Some _ => 0 | None => 1 end
  ∧ Cache.GetSize r (Cache.Remove r adID db).1
    = Cache.GetSize r db
      + match Redis.ZScore shardKey adID db with Some _ => -1 | None => 0 end.
Proof.
  intros Hn Hkey.
  destruct (getShardKey_in_shardKeys r adID Hn) as (key' & Hkey' & Hin).
  rewrite Hkey in Hkey'. injection Hkey' as <-.
  rewrite (Enqueue_unfold _ _ _ _ _ _ Hkey), (Remove_unfold _ _ _ _ Hkey).
  cbn [fst]. unfold Cache.GetSize. split.
  - apply (shard_sum_change _ _ _ shardKey); [apply shardKeys_NoDup | done | |].
    + apply ZCard_ZAdd.
    + intros k Hne. unfold Redis.ZCard. by rewrite zset_ZAdd_ne.
  - apply (shard_sum_change _ _ _ shardKey); [apply shardKeys_NoDup | done | |].
    + apply ZCard_ZRem.
    + intros k Hne. unfold Redis.ZCard. by rewrite zset_ZRem_ne.
Qed.

Lemma size_counts_queued_ids_witness :
  0 < Cache.shardCount Sample.manager ≤ GoInt.maxInt64
  ∧ Cache.getShardKey Sample.manager Sample.idB = Some "queue:shard:1"
  ∧ Cache.GetSize Sample.manager Sample.db3 = 3
  ∧ Cache.GetSize Sample.manager
      (Cache.Enqueue Sample.manager Sample.t0 Sample.idB 1 Sample.db3).1 = 3
  ∧ Cache.GetSize Sample.manager
      (Cache.Remove Sample.manager Sample.idB Sample.db3).1 = 2.
Proof.
  assert (Hn : 0 < Cache.shardCount Sample.manager ≤ GoInt.maxInt64)
    by (vm_compute; split; [reflexivity | discriminate]).
  assert (Hkey : Cache.getShardKey Sample.manager Sample.idB
                 = Some "queue:shard:1") by (vm_compute; reflexivity).
  destruct (size_counts_queued_ids Sample.manager Sample.t0 Sample.idB 1
              Sample.db3 "queue:shard:1" Hn Hkey) as [He Hr].
  split; [exact Hn |]. split; [exact Hkey |].
  split; [vm_compute; reflexivity |].
  split.
  - rewrite He. vm_compute. reflexivity.
  - rewrite Hr. vm_compute. reflexivity.
Defined.

(** X4. Enqueueing an id again replaces its entry: the database after two
    calls for one id is the database after the second call alone, and the
    entry carries the score of the second call. *)
Theorem enqueue_again_overwrites
    (r : Cache.RedisQueueManager) (t1 t2 : GoInt.Time) (adID : Ad.AdID)
    (p1 p2 : Ad.Priority) (db : gmap string (gmap string Z))
    (shardKey : string) :
  Cache.getShardKey r adID = Some shardKey →
  Cache.Enqueue r t2 adID p2 (Cache.Enqueue r t1 adID p1 db).1
  = Cache.Enqueue r t2 adID p2 db
  ∧ Redis.ZScore shardKey adID (Cache.Enqueue r t2 adID p2 db).1
    = Some (Cache.calculateScore p2 t2)
  ∧ ∀ key member, (key, member) ≠ (shardKey, adID) →
      Redis.ZScore key member (Cache.Enqueue r t2 adID p2 db).1
      = Redis.ZScore key member db.
Proof.
  intros Hkey. rewrite !(Enqueue_unfold _ _ _ _ _ _ Hkey). cbn [fst].
  split; [| split].
  - f_equal. unfold Redis.ZAdd at 1. rewrite zset_ZAdd_eq.
    unfold Redis.ZAdd. by rewrite !insert_insert_eq.
  - apply ZScore_ZAdd_eq.
  - intros key member Hne. by apply ZScore_ZAdd_ne.
Qed.

Lemma enqueue_again_overwrites_witness :
  Cache.getShardKey Sample.manager Sample.idA = Some "queue:shard:0"
  ∧ Cache.Enqueue Sample.manager (Sample.t0 + GoInt.Minute) Sample.idA 4
      Sample.dbLow
    = Cache.Enqueue Sample.manager (Sample.t0 + GoInt.Minute) Sample.idA 4 ∅.
Proof.
  assert (Hkey : Cache.getShardKey Sample.manager Sample.idA
                 = Some "queue:shard:0") by (vm_compute; reflexivity).
  split; [exact Hkey |].
  exact (proj1 (enqueue_again_overwrites Sample.manager Sample.t0
                  (Sample.t0 + GoInt.Minute) Sample.idA 1 4 ∅
                  "queue:shard:0" Hkey)).
Defined.

(** ** What Dequeue hands out *)

Section TopOfShard.
Implicit Types (db : gmap string (gmap string Z)) (s : gmap string Z).

Lemma entry_leb_total (x y : string * Z) :
  Redis.entry_leb x y ∨ Redis.entry_leb y x.
Proof.
  unfold Redis.entry_leb.
  destruct (Z.ltb_spec x.2 y.2); [by left |].
  destruct (Z.ltb_spec y.2 x.2); [by right |].
  assert (He : x.2 = y.2) by lia.
  rewrite He, Z.eqb_refl. cbn [orb andb].
  rewrite (String.compare_antisym y.1 x.1).
  destruct (String.compare x.1 y.1); cbn [CompOpp];
    [by left | by left | by right].
Qed.

Lemma entry_leb_score (x y : string * Z) : Redis.entry_leb x y → x.2 ≤ y.2.
Proof.
  unfold Redis.entry_leb.
  destruct (Z.ltb_spec x.2 y.2); [lia |].
  destruct (Z.eqb_spec x.2 y.2); [lia | done].
Qed.

Lemma Sorted_weaken {A : Type} (R R' : relation A) (l : list A) :
  (∀ x y, R x y → R' x y) → Sorted R l → Sorted R' l.
Proof.
  intros Himp. induction 1 as [| x l Hs IH Hhd]; constructor; [done |].
  destruct Hhd; constructor; auto.
Qed.

(** The listing of a sorted set ascends in score. *)
Lemma ascending_by_score s :
  StronglySorted (λ x y : string * Z, x.2 ≤ y.2) (Redis.ascending s).
Proof.
  apply Sorted_StronglySorted.
  { intros x y z ? ?. lia. }
  apply (Sorted_weaken (λ x y, Redis.entry_leb x y)).
  { apply entry_leb_score. }
  apply Sorted_merge_sort. intros x y. apply entry_leb_total.
Qed.

Lemma ascending_entries s m sc :
  (m, sc) ∈ Redis.ascending s ↔ s !! m = Some sc.
Proof.
  unfold Redis.ascending. rewrite merge_sort_Permutation.
  apply elem_of_map_to_list.
Qed.

Lemma slice_first {A : Type} (l : list A) : Redis.slice 0 0 l = take 1 l.
Proof.
  unfold Redis.slice. cbn [Z.ltb Z.compare].
  destruct l as [| x l]; [done |].
  set (n := Z.of_nat (length (x :: l))).
  assert (Hn : 0 < n) by (subst n; simpl; lia).
  replace (Z.min 0 (n - 1)) with 0 by lia.
  destruct (Z.leb_spec n 0); [lia |]. done.
Qed.

(** The top of a shard: nothing for an empty shard, else one entry of the
    shard that no entry of the shard beats. *)
Lemma top_of_shard key db :
  match Redis.ZRevRangeWithScores key 0 0 db with
  | [] => Redis.zset key db = ∅
  | top :: _ =>
      Redis.ZScore key top.1 db = Some top.2
      ∧ ∀ m sc, Redis.ZScore key m db = Some sc → sc ≤ top.2
  end.
Proof.
  unfold Redis.ZRevRangeWithScores, Redis.ZScore. rewrite slice_first.
  pose proof (ascending_by_score (Redis.zset key db)) as Hsorted.
  pose proof (ascending_entries (Redis.zset key db)) as Hent.
  destruct (reverse (Redis.ascending (Redis.zset key db)))
    as [| [tm ts] rest] eqn:Hrev; cbn [take].
  - apply (f_equal reverse) in Hrev. rewrite reverse_involutive in Hrev.
    cbn in Hrev. apply map_empty. intros m.
    destruct (Redis.zset key db !! m) as [sc |] eqn:Hm; [| done].
    apply Hent in Hm. rewrite Hrev in Hm. by apply elem_of_nil in Hm.
  - apply (f_equal reverse) in Hrev. rewrite reverse_involutive in Hrev.
    rewrite reverse_cons in Hrev. rewrite Hrev in Hsorted.
    cbn [fst snd]. split.
    + apply Hent. rewrite Hrev. apply elem_of_app. right. left.
    + intros m sc Hm. apply Hent in Hm. rewrite Hrev in Hm.
      apply elem_of_app in Hm as [Hm | Hm].
      * apply (StronglySorted_app_1_elem_of _ _ _ (m, sc) (tm, ts)) in Hsorted;
          [exact Hsorted | done | left].
      * apply list_elem_of_singleton in Hm. injection Hm as -> ->. lia.
Qed.

(** The peek loop: the best item over the shards visited. *)
Lemma peek_best db keys : ∀ best,
  match best with
  | None => True
  | Some (item, key) => Redis.ZScore key item.1 db = Some item.2
  end →
  match foldl (Cache.peekShard db) best keys with
  | None => best = None ∧ ∀ k, k ∈ keys → Redis.zset k db = ∅
  | Some (item, key) =>
      Redis.ZScore key item.1 db = Some item.2
      ∧ (key ∈ keys ∨ ∃ item0, best = Some (item0, key))
      ∧ (∀ item0 k0, best = Some (item0, k0) → item0.2 ≤ item.2)
      ∧ ∀ k m sc, k ∈ keys → Redis.ZScore k m db = Some sc → sc ≤ item.2
  end.
Proof.
  induction keys as [| key keys IH]; intros best Hbest.
  - cbn [foldl]. destruct best as [[item key] |].
    + split; [done |]. split; [right; eauto |]. split.
      * intros item0 k0 [= <- <-]. lia.
      * intros k m sc Hk. by apply elem_of_nil in Hk.
    + split; [done |]. intros k Hk. by apply elem_of_nil in Hk.
  - cbn [foldl]. pose proof (top_of_shard key db) as Htop.
    unfold Cache.peekShard at 2.
    destruct (Redis.ZRevRangeWithScores key 0 0 db) as [| top rest].
    + specialize (IH best Hbest).
      destruct (foldl (Cache.peekShard db) best keys) as [[item k1] |].
      * destruct IH as (Hitem & Hwhere & Hge & Hall).
        split; [done |]. split.
        { destruct Hwhere as [Hin | Hb]; [left; by right | by right]. }
        split; [done |]. intros k m sc Hk Hm.
        apply elem_of_cons in Hk as [-> | Hk]; [| by eapply Hall].
        unfold Redis.ZScore in Hm. rewrite Htop in Hm.
        by rewrite lookup_empty in Hm.
      * destruct IH as [-> Hall]. split; [done |].
        intros k Hk. apply elem_of_cons in Hk as [-> | Hk]; auto.
    + destruct Htop as [Htop_in Htop_max].
      set (best' := match best with
                    | None => Some (top, key)
                    | Some (bestItem, _) =>
                        if bestItem.2 <? top.2 then Some (top, key) else best
                    end).
      assert (Hbest' : match best' with
                       | None => True
                       | Some (item, k) =>
                           Redis.ZScore k item.1 db = Some item.2
                       end).
      { subst best'. destruct best as [[bi bk] |]; [| done].
        by destruct (bi.2 <? top.2). }
      assert (Hsome : ∃ it k, best' = Some (it, k) ∧ top.2 ≤ it.2
                              ∧ (k = key ∨ ∃ i0, best = Some (i0, k))
                              ∧ ∀ i0 k0, best = Some (i0, k0) → i0.2 ≤ it.2).
      { subst best'. destruct best as [[bi bk] |].
        - destruct (Z.ltb_spec bi.2 top.2).
          + exists top, key. repeat split; [lia | by left |].
            intros i0 k0 [= <- <-]. lia.
          + exists bi, bk. repeat split; [done | right; eauto |].
            intros i0 k0 [= <- <-]. lia.
        - exists top, key. repeat split; [lia | by left | done]. }
      destruct Hsome as (it & k' & Heq & Htop_le & Hk' & Hold).
      specialize (IH best' Hbest'). fold best'.
      destruct (foldl (Cache.peekShard db) best' keys) as [[item k1] |].
      * destruct IH as (Hitem & Hwhere & Hge & Hall).
        specialize (Hge it k' Heq).
        split; [done |]. split.
        { destruct Hwhere as [Hin | [i0 Hb]]; [left; by right |].
          rewrite Heq in Hb. injection Hb as _ <-.
          destruct Hk' as [-> | Hk']; [left; left | by right]. }
        split.
        { intros i0 k0 Hb. specialize (Hold i0 k0 Hb). lia. }
        intros k m sc Hk Hm.
        apply elem_of_cons in Hk as [-> | Hk]; [| by eapply Hall].
        specialize (Htop_max m sc Hm). lia.
      * destruct IH as [Hnone _]. congruence.
Qed.

End TopOfShard.

(** [Dequeue] by the outcome of the peek loop. *)
Lemma Dequeue_peeked validUUID r now (db : gmap string (gmap string Z)) :
  match foldl (Cache.peekShard db) None (Cache.shardKeys r) with
  | None =>
      allShardsEmpty r db
      ∧ Cache.Dequeue validUUID r now db = (db, Cache.Ok None)
  | Some (item, key) =>
      key ∈ Cache.shardKeys r
      ∧ Redis.ZScore key item.1 db = Some item.2
      ∧ (∀ k m sc, k ∈ Cache.shardKeys r →
                   Redis.ZScore k m db = Some sc → sc ≤ item.2)
      ∧ Cache.Dequeue validUUID r now db
        = ((Redis.ZRem key [item.1] db).1,
           if validUUID item.1
           then Cache.Ok (Some (Queue.NewQueueItem
                                  item.1 (Cache.priorityOf item.2) now))
           else Cache.Err (Cache.ErrInvalidAdID item.1))
  end.
Proof.
  pose proof (peek_best db (Cache.shardKeys r) None I) as Hpeek.
  unfold Cache.Dequeue.
  destruct (foldl (Cache.peekShard db) None (Cache.shardKeys r))
    as [[item key] |].
  - destruct Hpeek as (Hitem & Hwhere & _ & Hall).
    destruct Hwhere as [Hin | [? [=]]].
    repeat split; try done.
    unfold Cache.ParseAdID. by destruct (validUUID item.1).
  - destruct Hpeek as [_ Hall]. done.
Qed.

(** X5. When [Dequeue] hands out an item, the item is an entry of the
    queue that no entry of any shard beats in score; its priority is
    decoded from that score, and the call removes this entry and no
    other. *)
Theorem dequeue_hands_out_best
    (validUUID : string → bool) (r : Cache.RedisQueueManager)
    (now : GoInt.Time) (db db' : gmap string (gmap string Z))
    (qi : Queue.QueueItem) :
  Cache.Dequeue validUUID r now db = (db', Cache.Ok (Some qi)) →
  ∃ key score,
    key ∈ Cache.shardKeys r
    ∧ Redis.ZScore key (Queue.adID qi) db = Some score
    ∧ Queue.priority qi = Cache.priorityOf score
    ∧ (∀ k m sc, k ∈ Cache.shardKeys r →
                 Redis.ZScore k m db = Some sc → sc ≤ score)
    ∧ Redis.ZScore key (Queue.adID qi) db' = None
    ∧ ∀ k m, (k, m) ≠ (key, Queue.adID qi) →
             Redis.ZScore k m db' = Redis.ZScore k m db.
Proof.
  intros Hdq. pose proof (Dequeue_peeked validUUID r now db) as Hp.
  destruct (foldl (Cache.peekShard db) None (Cache.shardKeys r))
    as [[item key] |].
  - destruct Hp as (Hin & Hitem & Hall & Heq). rewrite Heq in Hdq.
    destruct (validUUID item.1); [| done].
    injection Hdq as <- <-. exists key, item.2. cbn [Queue.adID Queue.priority].
    repeat split; try done.
    + apply ZScore_ZRem_eq.
    + intros k m Hne. by apply ZScore_ZRem_ne.
  - destruct Hp as [_ Heq]. rewrite Heq in Hdq. done.
Qed.

Lemma dequeue_hands_out_best_witness :
  Cache.Dequeue (λ _, true) Sample.manager Sample.t0 Sample.db3
  = ((Cache.Remove Sample.manager Sample.idC Sample.db3).1,
     Cache.Ok (Some (Queue.NewQueueItem Sample.idC 5 Sample.t0)))
  ∧ ∃ key score,
      Redis.ZScore key Sample.idC Sample.db3 = Some score
      ∧ ∀ k m sc, k ∈ Cache.shardKeys Sample.manager →
                  Redis.ZScore k m Sample.db3 = Some sc → sc ≤ score.
Proof.
  assert (Hdq : Cache.Dequeue (λ _, true) Sample.manager Sample.t0 Sample.db3
                = ((Cache.Remove Sample.manager Sample.idC Sample.db3).1,
                   Cache.Ok (Some (Queue.NewQueueItem Sample.idC 5
                                                      Sample.t0))))
    by (vm_compute; reflexivity).
  split; [exact Hdq |].
  destruct (dequeue_hands_out_best _ _ _ _ _ _ Hdq)
    as (key & score & _ & Hs & _ & Hall & _).
  exists key, score. split; [exact Hs | exact Hall].
Defined.


(** ** Round trips of the queue manager *)







(** ** The distribution by priority *)

Lemma ZCount_band key p (db : gmap string (gmap string Z)) :
  Redis.ZCount key (Redis.Incl (p * 10000000000))
               (Redis.Incl ((p + 1) * 10000000000 - 1)) db
  = inBand p (map_to_list (Redis.zset key db)).
Proof.
  unfold Redis.ZCount, inBand. f_equal.
  rewrite size_filter_entries. f_equal.
  apply list_filter_iff. intros [m s]. unfold Redis.inRange, bandOf, Cache.P.
  cbn [Redis.above Redis.below snd].
  rewrite andb_True, !Is_true_true, !Z.leb_le. split.
  - intros [Hlo Hhi]. symmetry.
    apply (Z.div_unique _ _ _ (s - p * 10000000000)); lia.
  - intros <-.
    pose proof (Z.div_mod s 10000000000 ltac:(lia)).
    pose proof (Z.mod_pos_bound s 10000000000 ltac:(lia)). lia.
Qed.

Lemma inBand_app p (l k : list (string * Z)) :
  inBand p (l ++ k) = inBand p l + inBand p k.
Proof. unfold inBand. rewrite filter_app, length_app. lia. Qed.

Lemma band_loop p (db : gmap string (gmap string Z)) keys acc :
  foldl (λ totalCount shardKey,
           totalCount
           + Redis.ZCount shardKey (Redis.Incl (p * 10000000000))
                          (Redis.Incl ((p + 1) * 10000000000 - 1)) db)
        acc keys
  = acc + inBand p
            (mjoin ((λ shardKey, map_to_list (Redis.zset shardKey db))
                      <$> keys)).
Proof.
  revert acc. induction keys as [| key keys IH]; intros acc.
  - change (inBand p (mjoin _)) with 0. simpl. lia.
  - rewrite fmap_cons. cbn [foldl mjoin list_join].
    rewrite IH, ZCount_band, inBand_app. by rewrite Z.add_assoc.
Qed.

(** X10. [GetSizeByPriority] reports exactly the priorities 1 to 5, each
    with the number of queue entries whose score lies in the band of that
    priority; entries of any other band are not counted. *)
Theorem distribution_counts_bands
    (r : Cache.RedisQueueManager) (db : gmap string (gmap string Z))
    (p : Z) :
  RedisQueue.GetSizeByPriority r db !! p
  = if bool_decide (1 ≤ p ≤ 5) then Some (inBand p (queueEntries r db))
    else None.
Proof.
  unfold RedisQueue.GetSizeByPriority, queueEntries.
  change (seqZ 1 5) with [1; 2; 3; 4; 5]. cbn [foldl].
  rewrite !band_loop, !Z.add_0_l.
  repeat (rewrite lookup_insert; case_decide;
          [subst p; by rewrite bool_decide_eq_true_2 by lia |]).
  rewrite lookup_empty, bool_decide_eq_false_2; [done | lia].
Qed.

(** ** The sort of GetNext and DequeueBatch *)

Section ExchangeSort.
Import RedisQueue.
Implicit Types (a : list (string * Z)) (i j k m c n : nat).
Local Open Scope nat_scope.

Lemma insert_one_Permutation (t : list (string * Z)) : ∀ j y h,
  t !! j = Some y → y :: <[j := h]> t ≡ₚ h :: t.
Proof.
  induction t as [| z t IH]; intros [| j] y h Hj; try done.
  - injection Hj as ->. apply perm_swap.
  - cbn in Hj. cbn [insert list_insert].
    change (<[S j:=h]> (z :: t)) with (z :: <[j:=h]> t).
    rewrite perm_swap, (IH j y h Hj). apply perm_swap.
Qed.

Lemma swap_Permutation a : ∀ i j x y,
  i < j → a !! i = Some x → a !! j = Some y →
  <[j := x]> (<[i := y]> a) ≡ₚ a.
Proof.
  induction a as [| h t IH]; intros [| i] [| j] x y Hij Hi Hj;
    try done; try lia.
  - injection Hi as ->. cbn in Hj.
    change (<[S j:=x]> (<[0:=y]> (x :: t))) with (y :: <[j:=x]> t).
    by apply insert_one_Permutation.
  - cbn in Hi, Hj.
    change (<[S j:=x]> (<[S i:=y]> (h :: t)))
      with (h :: <[j:=x]> (<[i:=y]> t)).
    f_equiv. apply (IH i j x y); [lia | done | done].
Qed.

Lemma swapIfLess_length i j a : length (swapIfLess i j a) = length a.
Proof.
  unfold swapIfLess. destruct (a !! i) as [x |]; [| done].
  destruct (a !! j) as [y |]; [| done].
  destruct (x.2 <? y.2)%Z; [| done]. by rewrite !length_insert.
Qed.

Lemma swapIfLess_Permutation i j a : i < j → swapIfLess i j a ≡ₚ a.
Proof.
  intros Hij. unfold swapIfLess. destruct (a !! i) as [x |] eqn:Hi; [| done].
  destruct (a !! j) as [y |] eqn:Hj; [| done].
  destruct (x.2 <? y.2)%Z; [| done]. by apply swap_Permutation.
Qed.

Lemma swapIfLess_other i j k a :
  k ≠ i → k ≠ j → swapIfLess i j a !! k = a !! k.
Proof.
  intros Hi Hj. unfold swapIfLess. destruct (a !! i) as [x |]; [| done].
  destruct (a !! j) as [y |]; [| done].
  destruct (x.2 <? y.2)%Z; [| done].
  by rewrite !list_lookup_insert_ne by done.
Qed.

Lemma swapIfLess_take i j a : i < j → take i (swapIfLess i j a) = take i a.
Proof.
  intros Hij. unfold swapIfLess. destruct (a !! i) as [x |]; [| done].
  destruct (a !! j) as [y |]; [| done].
  destruct (x.2 <? y.2)%Z; [| done].
  by rewrite !take_insert_ge by lia.
Qed.

(** After the exchange the item at [i] is no smaller than before, and no
    smaller than the item at [j]. *)
Lemma swapIfLess_ordered i j a x' :
  i < j → swapIfLess i j a !! i = Some x' →
  (∀ x, a !! i = Some x → (x.2 ≤ x'.2)%Z)
  ∧ (∀ y', swapIfLess i j a !! j = Some y' → (y'.2 ≤ x'.2)%Z).
Proof.
  intros Hij. unfold swapIfLess.
  destruct (a !! i) as [x |] eqn:Hi.
  2: { intros Hx. congruence. }
  destruct (a !! j) as [y |] eqn:Hj.
  2: { intros Hx. rewrite Hi in Hx. injection Hx as <-.
       split; [intros ? [= <-]; lia |]. intros y' Hy'. congruence. }
  pose proof (lookup_lt_Some _ _ _ Hi). pose proof (lookup_lt_Some _ _ _ Hj).
  destruct (Z.ltb_spec x.2 y.2).
  - rewrite list_lookup_insert_ne by lia.
    rewrite list_lookup_insert_eq by done. intros [= <-]. split.
    + intros ? [= <-]. lia.
    + rewrite list_lookup_insert_eq by (rewrite length_insert; lia).
      intros ? [= <-]. lia.
  - rewrite Hi. intros [= <-]. split.
    + intros ? [= <-]. lia.
    + rewrite Hj. intros ? [= <-]. lia.
Qed.

(** The inner loop for position [i], over [j = i + 1, ..., i + m]. *)
Lemma inner_loop i a : ∀ m,
  let a' := foldl (λ a j, swapIfLess i j a) a (seq (S i) m) in
  length a' = length a
  ∧ a' ≡ₚ a
  ∧ take i a' = take i a
  ∧ ∀ k x y, i < k < S i + m → a' !! i = Some x → a' !! k = Some y →
      (y.2 ≤ x.2)%Z.
Proof.
  induction m as [| m IH].
  - cbn. repeat split; try done. intros; lia.
  - rewrite seq_S, foldl_app. cbn [foldl].
    destruct IH as (Hlen & Hperm & Htake & Hord).
    set (a1 := foldl (λ a j, swapIfLess i j a) a (seq (S i) m)) in *.
    assert (Hij : i < S i + m) by lia.
    split; [by rewrite swapIfLess_length |].
    split; [by rewrite swapIfLess_Permutation |].
    split; [by rewrite swapIfLess_take |].
    intros k x y Hk Hx Hy.
    destruct (swapIfLess_ordered i (S i + m) a1 x Hij Hx) as [Hgrow Hj].
    destruct (decide (k = S i + m)) as [-> | Hne].
    + by apply Hj.
    + rewrite swapIfLess_other in Hy by lia.
      assert (Hi1 : is_Some (a1 !! i)).
      { apply lookup_lt_is_Some. rewrite <- (swapIfLess_length i (S i + m)).
        by eapply lookup_lt_Some. }
      destruct Hi1 as [x1 Hx1].
      specialize (Hgrow x1 Hx1).
      specialize (Hord k x1 y ltac:(lia) Hx1 Hy). lia.
Qed.

(** The outer loop, after the positions [0, ..., c - 1]. *)
Lemma outer_loop a n : ∀ c,
  n = length a →
  let a' :=
    foldl (λ a i, foldl (λ a j, swapIfLess i j a) a (seq (S i) (n - S i)))
          a (seq 0 c) in
  length a' = length a
  ∧ a' ≡ₚ a
  ∧ ∀ k m x y, k < c → k < m → a' !! k = Some x → a' !! m = Some y →
      (y.2 ≤ x.2)%Z.
Proof.
  intros c Hn. induction c as [| c IH].
  - cbn. repeat split; try done. intros; lia.
  - rewrite seq_S, foldl_app. cbn [foldl]. rewrite Nat.add_0_l.
    destruct IH as (Hlen & Hperm & Hord).
    set (a1 := foldl _ a (seq 0 c)) in *.
    destruct (inner_loop c a1 (n - S c)) as (Hlen2 & Hperm2 & Htake & Hin).
    set (a2 := foldl (λ a j, swapIfLess c j a) a1 (seq (S c) (n - S c))) in *.
    split; [congruence |]. split; [by rewrite Hperm2 |].
    intros k m x y Hk Hkm Hx Hy.
    pose proof (lookup_lt_Some _ _ _ Hy) as Hm.
    destruct (decide (k = c)) as [-> | Hne].
    + apply (Hin m x y); [lia | done | done].
    + assert (Hk1 : a1 !! k = Some x).
      { rewrite <- (lookup_take_lt a1 c k) by lia.
        rewrite <- Htake. by rewrite lookup_take_lt by lia. }
      destruct (decide (m < c)) as [Hmc | Hmc].
      * assert (Hm1 : a1 !! m = Some y).
        { rewrite <- (lookup_take_lt a1 c m) by lia.
          rewrite <- Htake. by rewrite lookup_take_lt by lia. }
        apply (Hord k m x y); [lia | done | done | done].
      * assert (Hdrop : drop c a2 ≡ₚ drop c a1).
        { apply (Permutation_app_inv_l (take c a1)).
          rewrite <- Htake at 1. by rewrite !take_drop. }
        assert (Hy2 : y ∈ drop c a1).
        { rewrite <- Hdrop. apply list_elem_of_lookup. exists (m - c).
          rewrite lookup_drop. by replace (c + (m - c)) with m by lia. }
        apply list_elem_of_lookup in Hy2 as [m' Hm'].
        rewrite lookup_drop in Hm'.
        apply (Hord k (c + m') x y); [lia | lia | done | done].
Qed.

Lemma descending_by_index (l : list (string * Z)) :
  (∀ k m x y, k < m → l !! k = Some x → l !! m = Some y → (y.2 ≤ x.2)%Z) →
  StronglySorted (λ x y : string * Z, (y.2 ≤ x.2)%Z) l.
Proof.
  induction l as [| h t IH]; intros Hidx; constructor.
  - apply IH. intros k m x y Hkm Hx Hy.
    apply (Hidx (S k) (S m) x y); [lia | done | done].
  - apply Forall_forall. intros y Hy.
    apply list_elem_of_lookup in Hy as [m Hm].
    apply (Hidx 0 (S m) h y); [lia | done | done].
Qed.

Lemma sortByScore_Permutation (allItems : list (string * Z)) :
  RedisQueue.sortByScore allItems ≡ₚ allItems.
Proof.
  unfold RedisQueue.sortByScore.
  by destruct (outer_loop allItems (length allItems) (length allItems)
                 eq_refl) as (_ & Hperm & _).
Qed.

Lemma sortByScore_descending (allItems : list (string * Z)) :
  StronglySorted (λ x y : string * Z, (y.2 ≤ x.2)%Z)
                 (RedisQueue.sortByScore allItems).
Proof.
  unfold RedisQueue.sortByScore.
  destruct (outer_loop allItems (length allItems) (length allItems) eq_refl)
    as (Hlen & _ & Hord).
  apply descending_by_index. intros k m x y Hkm Hx Hy.
  apply (Hord k m x y); [| done | done | done].
  apply lookup_lt_Some in Hy. rewrite Hlen in Hy. lia.
Qed.

End ExchangeSort.

(** X11. The hand-written sort of [GetNext] and [DequeueBatch] is a sort:
    its result holds the items it was given, each as often as before, in an
    order in which no item is followed by an item of greater score. *)
Theorem sort_descends_by_score (allItems : list (string * Z)) :
  RedisQueue.sortByScore allItems ≡ₚ allItems
  ∧ StronglySorted (λ x y : string * Z, y.2 ≤ x.2)
                   (RedisQueue.sortByScore allItems).
Proof.
  split; [apply sortByScore_Permutation | apply sortByScore_descending].
Qed.

(** ** GetNext *)

Section NextItems.
Import RedisQueue.

Lemma StronglySorted_sublist {A : Type} (R : relation A) (l k : list A) :
  k `sublist_of` l → StronglySorted R l → StronglySorted R k.
Proof.
  intros Hsub Hs. revert k Hsub.
  induction Hs as [| x l Hs IH Hall]; intros k Hsub.
  - apply sublist_nil_r in Hsub as ->. constructor.
  - apply sublist_cons_r in Hsub as [Hsub | (k' & -> & Hsub)]; [by apply IH |].
    constructor; [by apply IH |].
    apply Forall_forall. intros y Hy.
    rewrite Forall_forall in Hall. apply Hall.
    by eapply elem_of_sublist.
Qed.

Lemma StronglySorted_unmap {A B : Type} (f : A → B) (R : relation B)
    (l : list A) :
  StronglySorted R (f <$> l) → StronglySorted (λ x y, R (f x) (f y)) l.
Proof.
  induction l as [| x l IH]; intros Hs; [constructor |].
  rewrite fmap_cons in Hs. apply StronglySorted_cons in Hs as [Hall Hs].
  constructor; [by apply IH |].
  apply Forall_forall. intros y Hy.
  rewrite Forall_forall in Hall. apply Hall.
  apply list_elem_of_fmap. by exists y.
Qed.

(** The conversion loop keeps the members that are UUIDs, in order, each
    with the priority decoded from its score. *)
Lemma toQueueItems_shape validUUID (l : list (string * Z)) : ∀ clock,
  (λ qi, (Queue.adID qi, Queue.priority qi))
    <$> omap id
          (imap (λ i item,
                   match Cache.ParseAdID validUUID item.1 with
                   | Some adID =>
                       Some (Queue.NewQueueItem
                               adID (Cache.priorityOf item.2) (clock i))
                   | None => None
                   end) l)
  = (λ e, (e.1, Cache.priorityOf e.2))
      <$> filter (λ e, validUUID e.1 = true) l.
Proof.
  induction l as [| e l IH]; intros clock; [done |].
  cbn [imap]. rewrite filter_cons.
  specialize (IH (clock ∘ S)).
  unfold Cache.ParseAdID at 1.
  destruct (validUUID e.1) eqn:Hv.
  - rewrite decide_True by done.
    change (omap id (Some ?x :: ?k)) with (x :: omap id k).
    rewrite !fmap_cons. f_equal. exact IH.
  - rewrite decide_False by done.
    change (omap id (None :: ?k)) with (omap id k). exact IH.
Qed.

Lemma slice_subseteq {A : Type} start stop (l : list A) :
  Redis.slice start stop l ⊆ l.
Proof.
  unfold Redis.slice. destruct (_ || _); [apply list_subseteq_nil |].
  etrans; [apply subseteq_take | apply subseteq_drop].
Qed.

(** What [GetNext] collects are entries of the queue. *)
Lemma collect_entries r count (db : gmap string (gmap string Z)) e :
  e ∈ collect r count db →
  ∃ key, key ∈ Cache.shardKeys r ∧ Redis.ZScore key e.1 db = Some e.2.
Proof.
  unfold collect. intros He.
  apply list_elem_of_join in He as (l & He & Hl).
  apply list_elem_of_fmap in Hl as (key & -> & Hkey).
  exists key. split; [done |].
  unfold Redis.ZRevRangeWithScores in He.
  apply slice_subseteq in He. rewrite elem_of_reverse in He.
  destruct e as [m s]. by apply ascending_entries in He.
Qed.

End NextItems.

(** X12. [GetNext] returns at most [count] items, every one of them an
    entry of the queue whose member is a UUID, with the priority decoded
    from the score of the entry, and no item is followed by one of higher
    priority. *)
Theorem next_items_in_priority_order
    (validUUID : string → bool) (r : Cache.RedisQueueManager)
    (clock : nat → GoInt.Time) (count : Z)
    (db : gmap string (gmap string Z)) :
  let items := RedisQueue.GetNext validUUID r clock count db in
  (length items ≤ Z.to_nat count)%nat
  ∧ StronglySorted (λ a b, Queue.priority b ≤ Queue.priority a) items
  ∧ ∀ qi, qi ∈ items →
      validUUID (Queue.adID qi) = true
      ∧ ∃ key score,
          key ∈ Cache.shardKeys r
          ∧ Redis.ZScore key (Queue.adID qi) db = Some score
          ∧ Queue.priority qi = Cache.priorityOf score.
Proof.
  unfold RedisQueue.GetNext, RedisQueue.toQueueItems.
  set (sorted := RedisQueue.sortByScore (RedisQueue.collect r count db)).
  set (top := take (Z.to_nat count) sorted).
  pose proof (toQueueItems_shape validUUID top clock) as Hshape.
  set (items := omap id (imap _ top)) in *.
  pose proof (sortByScore_Permutation (RedisQueue.collect r count db))
    as Hperm.
  pose proof (sortByScore_descending (RedisQueue.collect r count db))
    as Hsorted.
  fold sorted in Hperm, Hsorted.
  split; [| split].
  - apply (f_equal length) in Hshape. rewrite !length_fmap in Hshape.
    rewrite Hshape.
    etrans; [apply length_filter |]. subst top. rewrite length_take. lia.
  - apply (StronglySorted_unmap Queue.priority (λ x y, y ≤ x)).
    apply (f_equal (fmap snd)) in Hshape.
    rewrite <- !list_fmap_compose in Hshape.
    change (snd ∘ (λ qi, (Queue.adID qi, Queue.priority qi)))
      with Queue.priority in Hshape.
    rewrite Hshape.
    apply (StronglySorted_fmap _ (λ x y : string * Z, y.2 ≤ x.2)).
    { intros x y Hxy. cbn. unfold Cache.priorityOf.
      apply Z.quot_le_mono; [done | exact Hxy]. }
    apply (StronglySorted_sublist _ sorted); [| done].
    etrans; [apply sublist_filter | apply sublist_take].
  - intros qi Hqi.
    pose proof (list_elem_of_fmap_2
                  (λ qi, (Queue.adID qi, Queue.priority qi)) _ _ Hqi) as Hin.
    cbv beta in Hin. rewrite Hshape in Hin.
    apply list_elem_of_fmap in Hin as (e & [= Hid Hprio] & He).
    apply list_elem_of_filter in He as [Hv He].
    apply subseteq_take in He. rewrite Hperm in He.
    apply collect_entries in He as (key & Hkey & Hscore).
    unfold Ad.AdID in *. rewrite Hid. split; [done |]. by exists key, e.2.
Qed.
(** ** Invariants of the aggregate *)

Section Lifecycle.
Import Ad.

Lemma wrap64_add_l x y : GoInt.wrap64 (GoInt.wrap64 x + y) = GoInt.wrap64 (x + y).
Proof.
  unfold GoInt.wrap64.
  replace ((x + 2 ^ 63) mod 2 ^ 64 - 2 ^ 63 + y + 2 ^ 63)
    with ((x + 2 ^ 63) mod 2 ^ 64 + y) by lia.
  rewrite Z.add_mod_idemp_l by lia.
  by replace (x + 2 ^ 63 + y) with (x + y + 2 ^ 63) by lia.
Qed.

Local Ltac kept Hq Hd Hv :=
  cbn; rewrite ?Z.add_0_r, ?Hv; unfold GoInt.add; rewrite ?wrap64_add_l;
  repeat split; try (done || tauto || congruence);
  intros Hx; first [apply Hd in Hx | apply Hq in Hx | apply Hd | apply Hq];
  congruence.

Lemma call_sound a0 a v c :
  sound a0 a v →
  sound a0 (call c a).1 (v + Z.of_nat (accepted [c] a)).
Proof.
  intros (Hid & Ht & Hg & Hta & Hm & Hc & Hp & Hq & Hd & Hv).
  unfold sound.
  destruct c as [now | now | | newPriority | position];
    cbn [call accepted].
  - destruct (decide (status a = AdStatusQueued)) as [Hs | Hs].
    + rewrite (StartProcessing_ok now a Hs). kept Hq Hd Hv.
    + rewrite (StartProcessing_rejected now a Hs). kept Hq Hd Hv.
  - destruct (decide (status a = AdStatusProcessing)) as [Hs | Hs].
    + rewrite (CompleteProcessing_ok now a Hs). kept Hq Hd Hv.
    + rewrite (CompleteProcessing_rejected now a Hs). kept Hq Hd Hv.
  - destruct (decide (status a = AdStatusProcessing)) as [Hs | Hs].
    + rewrite (FailProcessing_ok a Hs). kept Hq Hd Hv.
    + rewrite (FailProcessing_rejected a Hs). kept Hq Hd Hv.
  - destruct (IsValid newPriority) eqn:Hnew.
    + destruct (status a) eqn:Hs.
      * rewrite (ChangePriority_ok newPriority a Hnew) by auto. kept Hq Hd Hv.
      * rewrite (ChangePriority_rejected newPriority a Hnew) by auto.
        kept Hq Hd Hv.
      * rewrite (ChangePriority_rejected newPriority a Hnew) by auto.
        kept Hq Hd Hv.
      * rewrite (ChangePriority_ok newPriority a Hnew) by auto. kept Hq Hd Hv.
    + unfold ChangePriority. rewrite Hnew. kept Hq Hd Hv.
  - kept Hq Hd Hv.
Qed.

Lemma calls_sound a0 cs : ∀ a v,
  sound a0 a v →
  sound a0 (calls cs a) (v + Z.of_nat (accepted cs a)).
Proof.
  induction cs as [| c cs IH]; intros a v Hs.
  - cbn. by rewrite Z.add_0_r.
  - cbn [calls]. apply (call_sound a0 a v c) in Hs. apply IH in Hs.
    replace (v + Z.of_nat (accepted (c :: cs) a))
      with (v + Z.of_nat (accepted [c] a)
            + Z.of_nat (accepted cs (call c a).1)); [done |].
    cbn [accepted]. lia.
Qed.

Lemma Sub_mono t t' u : t ≤ t' → GoInt.Sub t u ≤ GoInt.Sub t' u.
Proof. unfold GoInt.Sub. lia. Qed.

End Lifecycle.

(** X13. Whatever sequence of calls an aggregate made by the factory goes
    through, and whatever they return: its identity, title, game family,
    audience, maximal wait and creation time stay what the factory set;
    its priority stays valid; [processingStartedAt] is unset exactly while
    it is QUEUED; [processedAt] is set exactly when it is COMPLETED; and
    its version is 1 plus the number of calls that returned [nil] (up to
    the wrap-around of [int]). *)
Theorem aggregate_invariants
    (newID : Ad.AdID) (now : GoInt.Time) (title gameFamily : string)
    (targetAudience : list string) (priority : Ad.Priority)
    (maxWaitTime : GoInt.Duration) (a0 : Ad.Ad) (cs : list Call) :
  Ad.CreateAd newID now title gameFamily targetAudience priority maxWaitTime
    = inl a0 →
  let a := calls cs a0 in
  Ad.id a = newID ∧ Ad.title a = title ∧ Ad.gameFamily a = gameFamily
  ∧ Ad.targetAudience a = targetAudience ∧ Ad.maxWaitTime a = maxWaitTime
  ∧ Ad.createdAt a = now
  ∧ Ad.IsValid (Ad.priority a) = true
  ∧ (Ad.status a = Ad.AdStatusQueued ↔ Ad.processingStartedAt a = None)
  ∧ (Ad.status a = Ad.AdStatusCompleted ↔ Ad.processedAt a ≠ None)
  ∧ Ad.version a = GoInt.wrap64 (1 + Z.of_nat (accepted cs a0)).
Proof.
  intros Hcreate. unfold Ad.CreateAd in Hcreate.
  repeat case_bool_decide; try done.
  destruct (Ad.IsValid priority) eqn:Hvalid; [| done].
  injection Hcreate as <-.
  set (a0 := Ad.mkAd _ _ _ _ _ _ _ _ _ _ _ _).
  assert (Hs : sound a0 a0 1).
  { unfold sound. subst a0. cbn. repeat split; done. }
  apply (calls_sound a0 cs) in Hs. exact Hs.
Qed.

Lemma aggregate_invariants_witness :
  let cs := [CallChangePriority 4; CallStartProcessing (Sample.t0 + 1);
             CallChangePriority 5; CallFailProcessing;
             CallCompleteProcessing (Sample.t0 + 2)] in
  let a := calls cs (Sample.queuedAd Sample.idA 2) in
  accepted cs (Sample.queuedAd Sample.idA 2) = 3%nat
  ∧ Ad.status a = Ad.AdStatusFailed
  ∧ (Ad.status a = Ad.AdStatusCompleted ↔ Ad.processedAt a ≠ None)
  ∧ Ad.version a = GoInt.wrap64 (1 + Z.of_nat 3).
Proof.
  split; [by vm_compute |]. split; [by vm_compute |].
  pose proof (aggregate_invariants Sample.idA Sample.t0 "Summer sale"
                "RPG-Fantasy" ["gamers"] 2 (5 * GoInt.Minute)
                (Sample.queuedAd Sample.idA 2)
                [CallChangePriority 4; CallStartProcessing (Sample.t0 + 1);
                 CallChangePriority 5; CallFailProcessing;
                 CallCompleteProcessing (Sample.t0 + 2)] eq_refl)
    as (_ & _ & _ & _ & _ & _ & _ & _ & Hdone & Hversion).
  split; [exact Hdone | exact Hversion].
Defined.

(** X14. For an aggregate of valid priority whose maximal wait is not
    negative, read with a clock that does not run backwards, the effective
    priority lies between the aggregate's own priority and 5; it is the
    aggregate's own priority when anti-starvation is off and when the
    aggregate is not QUEUED. *)
Theorem effective_priority_bounds
    (antiStarvationEnabled : bool) (now1 now2 : GoInt.Time) (a : Ad.Ad) :
  1 ≤ Ad.priority a ≤ 5 →
  0 ≤ Ad.maxWaitTime a →
  now1 ≤ now2 →
  let effective :=
    Ad.CalculateEffectivePriority antiStarvationEnabled now1 now2 a in
  Ad.priority a ≤ effective ≤ 5
  ∧ (antiStarvationEnabled = false → effective = Ad.priority a)
  ∧ (Ad.status a ≠ Ad.AdStatusQueued → effective = Ad.priority a).
Proof.
  intros Hp Hm Hnow. cbv zeta.
  unfold Ad.CalculateEffectivePriority.
  destruct antiStarvationEnabled; cbn [negb]; [| by repeat split; try lia].
  destruct (Ad.IsStarving now1 a) eqn:Hstarving; cycle 1.
  { repeat split; try lia; done. }
  unfold Ad.IsStarving in Hstarving.
  apply andb_prop in Hstarving as [Hq Hwait].
  apply bool_decide_eq_true in Hq. apply Z.ltb_lt in Hwait.
  assert (Hle : Ad.WaitTime now1 a ≤ Ad.WaitTime now2 a).
  { unfold Ad.WaitTime. destruct (Ad.processingStartedAt a); [lia |].
    by apply Sub_mono. }
  assert (Hhi : Ad.WaitTime now2 a ≤ 2 ^ 63 - 1).
  { unfold Ad.WaitTime. destruct (Ad.processingStartedAt a);
      apply Sub_bounds. }
  unfold GoInt.sub. rewrite wrap64_small by lia.
  set (overrun := Ad.WaitTime now2 a - Ad.maxWaitTime a) in *.
  rewrite Z.quot_div_nonneg by (unfold GoInt.Minute, GoInt.Second; lia).
  assert (Hb : 0 ≤ overrun / (5 * GoInt.Minute) ≤ 2 ^ 62).
  { unfold GoInt.Minute, GoInt.Second. split.
    - apply Z.div_pos; lia.
    - apply Z.div_le_upper_bound; lia. }
  unfold GoInt.add. rewrite wrap64_small by lia.
  unfold Ad.PriorityHigh.
  destruct (Z.ltb_spec 5 (Ad.priority a + overrun / (5 * GoInt.Minute)));
    repeat split; try lia; try done.
Qed.

Lemma effective_priority_bounds_witness :
  let a := Sample.patientAd in
  let effective :=
    Ad.CalculateEffectivePriority true (Sample.t0 + 21 * GoInt.Minute)
      (Sample.t0 + 21 * GoInt.Minute) a in
  effective = 3 ∧ Ad.priority a ≤ effective ≤ 5.
Proof.
  split; [by vm_compute |].
  apply (effective_priority_bounds true (Sample.t0 + 21 * GoInt.Minute)
           (Sample.t0 + 21 * GoInt.Minute) Sample.patientAd);
    vm_compute; try done; by split.
Defined.
(** ** The mock parser, the validator and the command service *)

Section Decimal.
Import Command.

Lemma append_cons c (a s : string) : String c a +:+ s = String c (a +:+ s).
Proof. reflexivity. Qed.

Lemma list_ascii_app (a b : string) :
  String.list_ascii_of_string (a +:+ b)
  = String.list_ascii_of_string a ++ String.list_ascii_of_string b.
Proof.
  induction a as [| c a IH]; [done |].
  rewrite append_cons. cbn. by rewrite IH.
Qed.

Lemma append_snoc (a : string) c (s : string) :
  (a +:+ String c EmptyString) +:+ s = a +:+ String c s.
Proof.
  induction a as [| d a IH]; [done |]. by rewrite !append_cons, IH.
Qed.

Lemma pretty_N_go_app (x : N) : ∀ s,
  pretty_N_go x s = pretty_N_go x EmptyString +:+ s.
Proof.
  induction (N.lt_wf_0 x) as [x _ IH]; intros s.
  assert (x = 0 ∨ 0 < x)%N as [-> | Hpos] by lia; [done |].
  rewrite (pretty_N_go_step x s), (pretty_N_go_step x EmptyString) by done.
  assert (Hlt : (x `div` 10 < x)%N) by (by apply N.div_lt).
  rewrite (IH _ Hlt (String _ s)), (IH _ Hlt (String _ EmptyString)).
  by rewrite append_snoc.
Qed.

Lemma pretty_N_go_snoc (x : N) :
  (0 < x)%N →
  pretty_N_go x EmptyString
  = pretty_N_go (x `div` 10)%N EmptyString
    +:+ String (pretty_N_char (x `mod` 10)%N) EmptyString.
Proof.
  intros Hpos. rewrite pretty_N_go_step by done. apply pretty_N_go_app.
Qed.

Lemma pretty_N_char_digit (d : N) :
  (d < 10)%N →
  isDigit (pretty_N_char d) = true
  ∧ Z.of_N (Ascii.N_of_ascii (pretty_N_char d)) - 48 = Z.of_N d.
Proof.
  intros Hd.
  assert (d = 0 ∨ d = 1 ∨ d = 2 ∨ d = 3 ∨ d = 4 ∨ d = 5 ∨ d = 6 ∨ d = 7
          ∨ d = 8 ∨ d = 9)%N as Hcases by lia.
  repeat destruct Hcases as [-> | Hcases]; try subst d; by vm_compute.
Qed.

Lemma digitsValue_snoc (a : string) c :
  digitsValue (a +:+ String c EmptyString)
  = digitsValue a * 10 + (Z.of_N (Ascii.N_of_ascii c) - 48).
Proof. unfold digitsValue. by rewrite list_ascii_app, foldl_app. Qed.

(** The decimal digits of a natural number. *)
Lemma pretty_N_go_digits (x : N) :
  forallb isDigit (String.list_ascii_of_string (pretty_N_go x EmptyString))
  = true
  ∧ digitsValue (pretty_N_go x EmptyString) = Z.of_N x
  ∧ ((0 < x)%N → pretty_N_go x EmptyString ≠ EmptyString).
Proof.
  induction (N.lt_wf_0 x) as [x _ IH].
  assert (x = 0 ∨ 0 < x)%N as [-> | Hpos] by lia.
  { repeat split; done. }
  destruct (IH (x `div` 10)%N) as (Hall & Hval & _); [by apply N.div_lt |].
  destruct (pretty_N_char_digit (x `mod` 10)%N) as [Hdigit Hcode].
  { by apply N.mod_lt. }
  rewrite pretty_N_go_snoc by done. split; [| split].
  - rewrite list_ascii_app, forallb_app, Hall. cbn. by rewrite Hdigit.
  - rewrite digitsValue_snoc, Hval, Hcode.
    pose proof (N.div_mod x 10 ltac:(done)) as Hdm. lia.
  - intros _. by destruct (pretty_N_go (x `div` 10)%N EmptyString).
Qed.

Lemma pretty_Z_digits (n : Z) :
  0 ≤ n →
  forallb isDigit (String.list_ascii_of_string (pretty n)) = true
  ∧ digitsValue (pretty n) = n
  ∧ pretty n ≠ EmptyString.
Proof.
  intros Hn. destruct n as [| p | p]; [by vm_compute | | lia].
  change (pretty (Z.pos p)) with (pretty_N_go (N.pos p) EmptyString).
  destruct (pretty_N_go_digits (N.pos p)) as (Hall & Hval & Hne).
  repeat split; [done | by rewrite Hval | by apply Hne].
Qed.

(** The run of digits at the head of a text that goes on with something
    else. *)
Lemma spanDigits_digits (ds : string) c (rest : string) :
  forallb isDigit (String.list_ascii_of_string ds) = true →
  isDigit c = false →
  spanDigits (ds +:+ String c rest) = (ds, String c rest).
Proof.
  intros Hall Hc. induction ds as [| d ds IH].
  - change (EmptyString +:+ String c rest) with (String c rest).
    cbn [spanDigits]. by rewrite Hc.
  - cbn in Hall. apply andb_prop in Hall as [Hd Hall].
    rewrite append_cons. cbn [spanDigits]. by rewrite Hd, (IH Hall).
Qed.

End Decimal.

Section ParserAgreement.
Import Command.

Lemma stripPrefix_app (p s : string) : stripPrefix p (p +:+ s) = Some s.
Proof.
  induction p as [| c p IH]; [done |].
  rewrite append_cons. cbn [stripPrefix]. by rewrite Ascii.eqb_refl.
Qed.

Lemma findSubmatch_here (text ds : string) :
  matchHere text = Some ds → findSubmatch text = Some ds.
Proof. intros Hm. destruct text; cbn [findSubmatch]; by rewrite Hm. Qed.

Lemma matchHere_decimal (n : Z) (plural : bool) :
  0 ≤ n →
  matchHere ("set maximum wait time to "
             +:+ pretty n
             +:+ (if plural then " seconds" else " second"))
  = Some (pretty n).
Proof.
  intros Hn. destruct (pretty_Z_digits n Hn) as (Hall & _ & Hne).
  unfold matchHere. rewrite stripPrefix_app.
  destruct plural.
  - rewrite (spanDigits_digits (pretty n) _ _ Hall) by done.
    destruct (pretty n); done.
  - rewrite (spanDigits_digits (pretty n) _ _ Hall) by done.
    destruct (pretty n); done.
Qed.

(** What [ValidateCommand] looks up in the parameters the parser builds. *)
Lemma valid_priority (priority : Z) :
  (priority <? 1) || (5 <? priority) = false → Ad.IsValid priority = true.
Proof. unfold Ad.IsValid. lia. Qed.

End ParserAgreement.

(** X15. Parser, validator and executor agree: whatever the functions of
    [strings] and [regexp] return, a command that [Parse] builds is
    PENDING, carries the lower-cased and trimmed text as its original
    text, passes [ValidateCommand], is accepted by [CanExecute], and is
    therefore handed to the executor by the command service. *)
Theorem parsed_command_is_executed
    (ToLower TrimSpace : string → string)
    (Contains MatchString : string → string → bool)
    (FindStringSubmatch : string → string → list string)
    (Execute : Command.Command → Command.Command * option string)
    (newID : string) (now failed : GoInt.Time) (text : string)
    (cmd : Command.Command) :
  Parser.Parse ToLower TrimSpace Contains MatchString FindStringSubmatch
               newID now text = inl cmd →
  Command.status cmd = Command.CommandStatusPending
  ∧ Command.originalText cmd = TrimSpace (ToLower text)
  ∧ Command.ValidateCommand cmd = None
  ∧ Command.CanExecute cmd = true
  ∧ Command.ExecuteParsed Command.CanExecute Execute failed cmd
    = match Execute (Command.StartExecution cmd) with
      | (cmd', Some err) => Command.FailExecution failed err cmd'
      | (cmd', None) => cmd'
      end.
Proof.
  intros Hparse.
  assert (Hmain : Command.status cmd = Command.CommandStatusPending
                  ∧ Command.originalText cmd = TrimSpace (ToLower text)
                  ∧ Command.ValidateCommand cmd = None
                  ∧ Command.CanExecute cmd = true).
  { unfold Parser.Parse in Hparse.
    repeat match type of Hparse with
           | (if ?b then _ else _) = _ => destruct b
           end; [.. | done].
    - unfold Parser.parsePriorityChangeByGameFamily in Hparse.
      destruct (FindStringSubmatch _ _) as [| ? [| m1 [| m2 [| ? ?]]]];
        try done.
      destruct (Strconv.Atoi m1) as [priority |]; [| done].
      destruct (_ || _) eqn:Hrange; [done |].
      injection Hparse as <-. apply valid_priority in Hrange.
      repeat split; try done.
      all: unfold Command.ValidateCommand, Command.GetPriorityParameter,
        Command.GetIntParameter, Command.GetStringParameter; cbn.
      all: rewrite lookup_insert_eq.
      all: rewrite lookup_insert_ne, lookup_insert_eq by done.
      all: by rewrite Hrange.
    - unfold Parser.parsePriorityChangeByAge in Hparse.
      destruct (FindStringSubmatch _ _) as [| ? [| m1 [| m2 [| ? ?]]]];
        try done.
      destruct (Strconv.Atoi m1) as [priority |]; [| done].
      destruct (_ || _) eqn:Hrange; [done |].
      destruct (Strconv.Atoi m2) as [minutes |]; [| done].
      injection Hparse as <-. apply valid_priority in Hrange.
      repeat split; try done.
      all: unfold Command.ValidateCommand, Command.GetPriorityParameter,
        Command.GetIntParameter; cbn.
      all: rewrite lookup_insert_eq.
      all: rewrite lookup_insert_ne, lookup_insert_eq by done.
      all: by rewrite Hrange.
    - unfold Parser.parseShowNextAds in Hparse.
      destruct (FindStringSubmatch _ _) as [| ? [| m1 [| ? ?]]]; try done.
      destruct (Strconv.Atoi m1) as [count |]; [| done].
      destruct (count <=? 0) eqn:Hcount; [done |].
      injection Hparse as <-.
      repeat split; try done.
      all: unfold Command.ValidateCommand, Command.GetIntParameter; cbn.
      all: rewrite lookup_insert_eq; by rewrite Hcount.
    - injection Hparse as <-. by repeat split.
    - unfold Parser.parseWaitingAds in Hparse.
      destruct (FindStringSubmatch _ _) as [| ? [| m1 [| ? ?]]]; try done.
      destruct (Strconv.Atoi m1) as [minutes |]; [| done].
      injection Hparse as <-.
      repeat split; try done.
      all: unfold Command.ValidateCommand, Command.GetIntParameter; cbn.
      all: by rewrite lookup_insert_eq.
    - injection Hparse as <-. by repeat split.
    - unfold Parser.parseSetMaxWaitTime in Hparse.
      destruct (FindStringSubmatch _ _) as [| ? [| m1 [| ? ?]]]; try done.
      destruct (Strconv.Atoi m1) as [seconds |]; [| done].
      injection Hparse as <-.
      repeat split; try done.
      all: unfold Command.ValidateCommand, Command.GetIntParameter; cbn.
      all: by rewrite lookup_insert_eq. }
  destruct Hmain as (Hstatus & Htext & Hvalid & Hcan).
  repeat split; try done.
  unfold Command.ExecuteParsed. by rewrite Hvalid, Hcan.
Qed.

Lemma parsed_command_is_executed_witness :
  let find := λ (_ text : string),
                match Command.findSubmatch text with
                | Some ds => [text; ds]
                | None => []
                end in
  let matches := λ (pattern text : string),
                   String.eqb pattern "set maximum wait time to \d+ seconds?"
                   && bool_decide (is_Some (Command.findSubmatch text)) in
  let cmd := Command.NewCommand "7d444840-9dc0-11d1-b245-5ffdce74fad2"
               Sample.t0 Sample.zeroWaitText
               Command.CommandTypeSystemConfiguration "set_max_wait_time"
               (<["seconds" := Command.VInt 0]> ∅) in
  Parser.Parse id id (λ _ _, false) matches find
    "7d444840-9dc0-11d1-b245-5ffdce74fad2" Sample.t0 Sample.zeroWaitText
  = inl cmd
  ∧ Command.ValidateCommand cmd = None.
Proof.
  split; [by vm_compute |].
  eapply (parsed_command_is_executed id id (λ _ _, false)
            (λ (pattern text : string),
               String.eqb pattern "set maximum wait time to \d+ seconds?"
               && bool_decide (is_Some (Command.findSubmatch text)))
            (λ (_ text : string),
               match Command.findSubmatch text with
               | Some ds => [text; ds]
               | None => []
               end)
            (λ c, (c, None))
            "7d444840-9dc0-11d1-b245-5ffdce74fad2" Sample.t0 Sample.t0
            Sample.zeroWaitText).
  by vm_compute.
Defined.

(** X16. A command whose intent is none of the seven the executor
    supports passes [ValidateCommand] (which knows no rule for it), is
    refused by [CanExecute], and is marked invalid with the reason
    "Command cannot be executed"; the executor is not called. *)
Theorem unsupported_intent_is_not_executed
    (Execute : Command.Command → Command.Command * option string)
    (now : GoInt.Time) (cmd : Command.Command) :
  Command.intent cmd ∉ Command.supportedIntents →
  Command.ValidateCommand cmd = None
  ∧ Command.ExecuteParsed Command.CanExecute Execute now cmd
    = Command.MarkInvalid "Command cannot be executed" cmd.
Proof.
  intros Hintent.
  assert (Hvalid : Command.ValidateCommand cmd = None).
  { unfold Command.ValidateCommand.
    repeat match goal with
           | |- context [String.eqb (Command.intent cmd) ?s] =>
               destruct (String.eqb_spec (Command.intent cmd) s) as [Heq | _];
               [exfalso; apply Hintent; rewrite Heq;
                unfold Command.supportedIntents;
                repeat first [apply list_elem_of_here
                             | apply list_elem_of_further] |]
           end.
    done. }
  split; [done |].
  unfold Command.ExecuteParsed, Command.CanExecute. rewrite Hvalid.
  by rewrite bool_decide_eq_false_2.
Qed.

Lemma unsupported_intent_is_not_executed_witness :
  let cmd := Command.NewCommand "7d444840-9dc0-11d1-b245-5ffdce74fad2"
               Sample.t0 "pause the queue"
               Command.CommandTypeSystemConfiguration "pause_queue" ∅ in
  Command.ValidateCommand cmd = None
  ∧ Command.ExecuteParsed Command.CanExecute
      (Command.executeSetMaxWaitTime Sample.t0) Sample.t0 cmd
    = Command.MarkInvalid "Command cannot be executed" cmd.
Proof.
  apply unsupported_intent_is_not_executed.
  cbn. unfold Command.supportedIntents. intros Hin.
  repeat (apply elem_of_cons in Hin as [Hin | Hin]; [discriminate |]).
  by apply elem_of_nil in Hin.
Defined.

(** X17. The text "set maximum wait time to N second(s)", with N the
    decimal form of a number from 0 to the largest [int], parses to a
    [set_max_wait_time] command whose [seconds] parameter is N; with a
    larger N the parser reports an invalid seconds value. *)
Theorem set_max_wait_text_round_trip
    (newID : string) (now : GoInt.Time) (n : Z) (plural : bool) :
  0 ≤ n →
  let text := "set maximum wait time to " +:+ pretty n
              +:+ (if plural then " seconds" else " second") in
  Command.parseSetMaxWaitTime newID now text
  = if bool_decide (n ≤ GoInt.maxInt64) then
      inl (Command.NewCommand newID now text
             Command.CommandTypeSystemConfiguration "set_max_wait_time"
             {[ "seconds" := Command.VInt n ]})
    else inr "invalid seconds value".
Proof.
  intros Hn. cbv zeta. unfold Command.parseSetMaxWaitTime.
  rewrite (findSubmatch_here _ _ (matchHere_decimal n plural Hn)).
  destruct (pretty_Z_digits n Hn) as (_ & Hval & _).
  unfold Command.Atoi. rewrite Hval.
  case_bool_decide as Hfit.
  - by rewrite (proj2 (Z.leb_le _ _) Hfit).
  - destruct (Z.leb_spec n GoInt.maxInt64); [done | done].
Qed.

Lemma set_max_wait_text_round_trip_witness :
  Command.parseSetMaxWaitTime "7d444840-9dc0-11d1-b245-5ffdce74fad2"
    Sample.t0 "set maximum wait time to 600 seconds"
  = inl (Command.NewCommand "7d444840-9dc0-11d1-b245-5ffdce74fad2"
           Sample.t0 "set maximum wait time to 600 seconds"
           Command.CommandTypeSystemConfiguration "set_max_wait_time"
           {[ "seconds" := Command.VInt 600 ]}).
Proof.
  exact (set_max_wait_text_round_trip
           "7d444840-9dc0-11d1-b245-5ffdce74fad2" Sample.t0 600 true
           ltac:(done)).
Defined.
(** ** The in-memory repository *)

Section MemoryCounts.

Lemma count_loop {A : Type} (P : A → Prop) `{∀ x, Decision (P x)}
    (l : list A) : ∀ count,
  foldl (λ count x, if bool_decide (P x) then count + 1 else count) count l
  = count + Z.of_nat (length (filter P l)).
Proof.
  induction l as [| x l IH]; intros count; [cbn; lia |].
  cbn [foldl]. rewrite IH, filter_cons.
  case_bool_decide; [rewrite decide_True by done | rewrite decide_False by done];
    cbn [length]; lia.
Qed.

Lemma statuses_partition (l : list Ad.Ad) :
  (length (filter (λ a, Ad.status a = Ad.AdStatusQueued) l)
   + length (filter (λ a, Ad.status a = Ad.AdStatusProcessing) l)
   + length (filter (λ a, Ad.status a = Ad.AdStatusCompleted) l)
   + length (filter (λ a, Ad.status a = Ad.AdStatusFailed) l))%nat
  = length l.
Proof.
  induction l as [| a l IH]; [done |].
  rewrite !filter_cons.
  destruct (Ad.status a) eqn:Hs;
    repeat case_decide; try done; cbn [length]; lia.
Qed.

End MemoryCounts.

(** X18. In whatever order each call walks the map of the repository,
    the counts of the four statuses add up to [Count], and [CountByStatus]
    is the number of aggregates [FindByStatus] returns. *)
Theorem status_counts_add_up
    (ranges : Ad.AdStatus → gmap string Ad.Ad → list (string * Ad.Ad))
    (range : gmap string Ad.Ad → list (string * Ad.Ad))
    (ads : gmap string Ad.Ad) :
  (∀ status m, ranges status m ≡ₚ map_to_list m) →
  (∀ m, range m ≡ₚ map_to_list m) →
  Memory.Count ads
  = Memory.CountByStatus (ranges Ad.AdStatusQueued) Ad.AdStatusQueued ads
    + Memory.CountByStatus (ranges Ad.AdStatusProcessing)
                           Ad.AdStatusProcessing ads
    + Memory.CountByStatus (ranges Ad.AdStatusCompleted)
                           Ad.AdStatusCompleted ads
    + Memory.CountByStatus (ranges Ad.AdStatusFailed) Ad.AdStatusFailed ads
  ∧ ∀ status,
      Memory.CountByStatus (ranges status) status ads
      = Z.of_nat (length (Memory.FindByStatus range status ads)).
Proof.
  intros Hranges Hrange.
  assert (Hcount : ∀ status,
            Memory.CountByStatus (ranges status) status ads
            = Z.of_nat
                (length (filter (λ a, Ad.status a = status)
                                (map_to_list ads).*2))).
  { intros status. unfold Memory.CountByStatus.
    rewrite (count_loop (λ a, Ad.status a = status)), Z.add_0_l.
    by rewrite (Hranges status ads). }
  split.
  - rewrite !Hcount. unfold Memory.Count.
    rewrite <- (length_map_to_list ads).
    rewrite <- (length_fmap snd (map_to_list ads)).
    rewrite <- (statuses_partition (map_to_list ads).*2). lia.
  - intros status. rewrite Hcount. unfold Memory.FindByStatus.
    by rewrite (Hrange ads).
Qed.

Lemma status_counts_add_up_witness :
  let ads : gmap string Ad.Ad :=
    <[Sample.idA := Sample.queuedAd Sample.idA 2]>
      (<[Sample.idB := Sample.failedAd]> ∅) in
  Memory.Count ads
  = Memory.CountByStatus map_to_list Ad.AdStatusQueued ads
    + Memory.CountByStatus map_to_list Ad.AdStatusProcessing ads
    + Memory.CountByStatus map_to_list Ad.AdStatusCompleted ads
    + Memory.CountByStatus map_to_list Ad.AdStatusFailed ads.
Proof.
  exact (proj1 (status_counts_add_up (λ _, map_to_list) map_to_list
                  (<[Sample.idA := Sample.queuedAd Sample.idA 2]>
                     (<[Sample.idB := Sample.failedAd]> ∅))
                  (λ _ m, reflexivity (map_to_list m))
                  (λ m, reflexivity (map_to_list m)))).
Defined.

(** X19. [UpdateStatus] of the in-memory repository reports a missing
    id; asked for QUEUED it returns [nil] and changes nothing, whatever
    the status of the aggregate; asked for another status it succeeds
    exactly along an edge of the status machine, and then the stored
    aggregate has the new status and the next version; otherwise it
    returns [ErrInvalidStatusTransition] and changes nothing.  The version
    it is given plays no part. *)
Theorem memory_update_status_outcomes
    (now : GoInt.Time) (id : Ad.AdID) (status : Ad.AdStatus) (version : Z)
    (ads : gmap string Ad.Ad) :
  (ads !! id = None →
   Memory.UpdateStatus now id status version ads
   = (ads, Some Memory.ErrAdNotFound))
  ∧ ∀ adEntity, ads !! id = Some adEntity →
      (status = Ad.AdStatusQueued →
       Memory.UpdateStatus now id status version ads = (ads, None))
      ∧ (edge (Ad.status adEntity) status →
         ∃ adEntity',
           Memory.UpdateStatus now id status version ads
           = (<[id := adEntity']> ads, None)
           ∧ Ad.status adEntity' = status
           ∧ Ad.version adEntity' = GoInt.add (Ad.version adEntity) 1
           ∧ Ad.priority adEntity' = Ad.priority adEntity)
      ∧ (status ≠ Ad.AdStatusQueued → ¬ edge (Ad.status adEntity) status →
         Memory.UpdateStatus now id status version ads
         = (ads, Some (Memory.ErrTransition Ad.ErrInvalidStatusTransition))).
Proof.
  split.
  { intros Hnone. unfold Memory.UpdateStatus. by rewrite Hnone. }
  intros adEntity Hsome. unfold Memory.UpdateStatus. rewrite Hsome.
  split; [| split].
  - intros ->. by rewrite insert_id.
  - intros [[Hq ->] | [Hp [-> | ->]]].
    + rewrite (StartProcessing_ok now adEntity Hq). by eexists.
    + rewrite (CompleteProcessing_ok now adEntity Hp). by eexists.
    + rewrite (FailProcessing_ok adEntity Hp). by eexists.
  - intros Hnq Hedge. unfold edge in Hedge.
    destruct status; [done | | |].
    + rewrite StartProcessing_rejected by tauto. by rewrite insert_id.
    + rewrite CompleteProcessing_rejected by tauto. by rewrite insert_id.
    + rewrite FailProcessing_rejected by tauto. by rewrite insert_id.
Qed.

Section Keyed.

Lemma transition_keeps_id now a :
  Ad.id (Ad.StartProcessing now a).1 = Ad.id a
  ∧ Ad.id (Ad.CompleteProcessing now a).1 = Ad.id a
  ∧ Ad.id (Ad.FailProcessing a).1 = Ad.id a.
Proof.
  unfold Ad.StartProcessing, Ad.CompleteProcessing, Ad.FailProcessing.
  repeat split; by case_bool_decide.
Qed.

Lemma ChangePriority_keeps_id newPriority a :
  Ad.id (Ad.ChangePriority newPriority a).1 = Ad.id a.
Proof.
  unfold Ad.ChangePriority.
  destruct (Ad.IsValid newPriority); [| done]. cbn [negb].
  by destruct (_ || _).
Qed.

Lemma keyed_empty : keyed ∅.
Proof. intros key a Hlook. by rewrite lookup_empty in Hlook. Qed.

Lemma keyed_insert ads key a :
  keyed ads → Ad.id a = key → keyed (<[key := a]> ads).
Proof.
  intros Hkeyed Hid key' a' Hlook.
  apply lookup_insert_Some in Hlook as [[<- <-] | [_ Hlook]]; [done |].
  by apply Hkeyed.
Qed.

Lemma keyed_Save ads a : keyed ads → keyed (Persistence.Save a ads).
Proof. intros Hkeyed. by apply keyed_insert. Qed.

Lemma keyed_batch newPriority ids : ∀ ads,
  keyed ads → keyed (Persistence.UpdatePriorityBatch ids newPriority ads).1.
Proof.
  induction ids as [| id rest IH]; intros ads Hkeyed; [done |].
  cbn [Persistence.UpdatePriorityBatch].
  destruct (ads !! id) as [a |] eqn:Ha; [| by apply IH].
  pose proof (ChangePriority_keeps_id newPriority a) as Hid.
  destruct (Ad.ChangePriority newPriority a) as [a' [e |]]; cbn [fst] in *.
  - apply keyed_insert; [done |]. rewrite Hid. by apply Hkeyed.
  - apply IH, keyed_insert; [done |]. rewrite Hid. by apply Hkeyed.
Qed.

End Keyed.

(** X20. The in-memory repository keeps every aggregate under its own
    id: the property holds of the empty repository and is kept by [Save],
    [Delete], [UpdatePriorityBatch] (whether it returns an error or not)
    and [UpdateStatus]. *)
Theorem repository_keeps_ids
    (ads : gmap string Ad.Ad) (adEntity : Ad.Ad) (id : Ad.AdID)
    (ids : list Ad.AdID) (newPriority : Ad.Priority) (now : GoInt.Time)
    (status : Ad.AdStatus) (version : Z) :
  keyed ads →
  keyed (Persistence.Save adEntity ads)
  ∧ keyed (Memory.Delete id ads)
  ∧ keyed (Persistence.UpdatePriorityBatch ids newPriority ads).1
  ∧ keyed (Memory.UpdateStatus now id status version ads).1.
Proof.
  intros Hkeyed. split; [by apply keyed_Save |].
  split; [| split; [by apply keyed_batch |]].
  - intros key a Hlook. unfold Memory.Delete in Hlook.
    apply lookup_delete_Some in Hlook as [_ Hlook]. by apply Hkeyed.
  - unfold Memory.UpdateStatus.
    destruct (ads !! id) as [a |] eqn:Ha; [| done].
    destruct (transition_keeps_id now a) as (Hstart & Hcomplete & Hfail).
    pose proof (Hkeyed id a Ha) as Hid.
    destruct status.
    + cbn. by apply keyed_insert.
    + destruct (Ad.StartProcessing now a) as [a' e]; cbn in *.
      apply keyed_insert; [done | congruence].
    + destruct (Ad.CompleteProcessing now a) as [a' e]; cbn in *.
      apply keyed_insert; [done | congruence].
    + destruct (Ad.FailProcessing a) as [a' e]; cbn in *.
      apply keyed_insert; [done | congruence].
Qed.

Lemma repository_keeps_ids_witness :
  keyed (Persistence.Save (Sample.queuedAd Sample.idB 3) Sample.ads2)
  ∧ keyed (Memory.Delete Sample.idB Sample.ads2)
  ∧ keyed (Persistence.UpdatePriorityBatch [Sample.idA; Sample.idB] 5
                                           Sample.ads2).1
  ∧ keyed (Memory.UpdateStatus Sample.t0 Sample.idB Ad.AdStatusCompleted 7
                               Sample.ads2).1.
Proof.
  apply repository_keeps_ids.
  unfold Sample.ads2. apply keyed_Save, keyed_Save, keyed_empty.
Defined.
(** ** The ad service: a priority change for a game family *)

Section FamilyChange.

Lemma filter_ext_in {A : Type} (P1 P2 : A → Prop)
    `{!∀ x, Decision (P1 x), !∀ x, Decision (P2 x)} (l : list A) :
  (∀ x, x ∈ l → P1 x ↔ P2 x) → filter P1 l = filter P2 l.
Proof.
  induction l as [| x l IH]; intros Hext; [done |].
  rewrite !filter_cons.
  rewrite IH by (intros y Hy; apply Hext; by right).
  pose proof (Hext x ltac:(by left)) as Hx.
  repeat case_decide; tauto || done.
Qed.

(** The batch of the in-memory repository over distinct ids whose stored
    aggregates are all QUEUED. *)
Lemma memory_batch_ok newPriority :
  Ad.IsValid newPriority = true →
  ∀ ids ads, NoDup ids →
  (∀ id a, id ∈ ids → ads !! id = Some a →
           Ad.status a = Ad.AdStatusQueued) →
  ∃ ads',
    Persistence.UpdatePriorityBatch ids newPriority ads = (ads', None)
    ∧ ∀ j, ads' !! j
           = if bool_decide (j ∈ ids)
             then (λ a, (Ad.ChangePriority newPriority a).1) <$> ads !! j
             else ads !! j.
Proof.
  intros Hv ids. induction ids as [| id rest IH]; intros ads Hnd Hq.
  - exists ads. split; [done |]. intros j.
    rewrite bool_decide_eq_false_2; [done | apply not_elem_of_nil].
  - apply NoDup_cons in Hnd as [Hnotin Hnd].
    cbn [Persistence.UpdatePriorityBatch].
    destruct (ads !! id) as [a |] eqn:Ha.
    + assert (Hqa : Ad.status a = Ad.AdStatusQueued).
      { apply (Hq id a); [by left | done]. }
      pose proof (ChangePriority_ok newPriority a Hv (or_introl Hqa))
        as Hchange.
      rewrite Hchange.
      destruct (IH (<[id := (Ad.ChangePriority newPriority a).1]> ads) Hnd)
        as (ads' & Heq & Hlook).
      { intros id' b Hin Hb.
        rewrite lookup_insert_ne in Hb by (by intros ->).
        apply (Hq id' b); [by right | done]. }
      rewrite Hchange in Heq, Hlook. cbn [fst] in Heq, Hlook.
      exists ads'. split; [done |]. intros j. rewrite Hlook.
      destruct (decide (j = id)) as [-> | Hne].
      * rewrite (bool_decide_eq_false_2 (id ∈ rest)) by done.
        rewrite bool_decide_eq_true_2 by (by left).
        rewrite lookup_insert_eq. unfold Ad.AdID in *. rewrite Ha.
        cbn [fmap option_fmap option_map]. by rewrite Hchange.
      * rewrite lookup_insert_ne by done.
        erewrite (bool_decide_ext (j ∈ id :: rest)); [reflexivity |].
        rewrite elem_of_cons. split; [by intros [? | ?] | by right].
    + destruct (IH ads Hnd) as (ads' & Heq & Hlook).
      { intros id' b Hin Hb. apply (Hq id' b); [by right | done]. }
      exists ads'. split; [done |]. intros j. rewrite Hlook.
      destruct (decide (j = id)) as [-> | Hne].
      * rewrite (bool_decide_eq_false_2 (id ∈ rest)) by done.
        rewrite bool_decide_eq_true_2 by (by left).
        unfold Ad.AdID in *. by rewrite Ha.
      * erewrite (bool_decide_ext (j ∈ id :: rest)); [reflexivity |].
        rewrite elem_of_cons. split; [by intros [? | ?] | by right].
Qed.

Lemma getShardKey_defined r adID :
  Cache.shardCount r ≠ 0 → is_Some (Cache.getShardKey r adID).
Proof.
  intros Hn. unfold Cache.getShardKey.
  destruct (Z.eqb_spec (Cache.shardCount r) 0); [done | by eexists].
Qed.

Lemma inQueue_ZAdd r db key member score adID :
  adID ≠ member →
  inQueue r (Redis.ZAdd key member score db) adID = inQueue r db adID.
Proof.
  intros Hne. unfold inQueue.
  destruct (Cache.getShardKey r adID) as [shardKey |]; [| done].
  rewrite ZScore_ZAdd_ne; [done | congruence].
Qed.

(** The loop that carries the new priority into the queue, over distinct
    ids. *)
Lemma queue_loop r newPriority :
  Cache.shardCount r ≠ 0 →
  ∀ adIDs db count, NoDup adIDs →
  ∃ db',
    foldl (λ st adID,
             match st.2 with
             | None => st
             | Some updatedCount =>
                 match Cache.UpdatePriority r adID newPriority st.1 with
                 | (db', Cache.Ok _) => (db', Some (updatedCount + 1))
                 | (db', Cache.Err _) => (db', Some updatedCount)
                 | (db', Cache.Panic) => (db', None)
                 end
             end)
          (db, Some count) adIDs
    = (db',
       Some (count
             + Z.of_nat
                 (length (filter (λ adID, inQueue r db adID = true) adIDs))))
    ∧ ∀ key member,
        Redis.ZScore key member db'
        = if bool_decide (member ∈ adIDs)
             && bool_decide (Cache.getShardKey r member = Some key)
          then rescored newPriority <$> Redis.ZScore key member db
          else Redis.ZScore key member db.
Proof.
  intros Hn adIDs.
  induction adIDs as [| adID rest IH]; intros db count Hnd.
  - exists db. split; [cbn; f_equal; f_equal; lia |].
    intros key member.
    by rewrite (bool_decide_eq_false_2 (member ∈ []))
      by apply not_elem_of_nil.
  - apply NoDup_cons in Hnd as [Hnotin Hnd]. cbn [foldl snd fst].
    destruct (getShardKey_defined r adID Hn) as [shardKey Hkey].
    assert (Hsame : ∀ db1 : gmap string (gmap string Z),
              (∀ adID', adID' ≠ adID →
                        inQueue r db1 adID' = inQueue r db adID') →
              filter (λ adID', inQueue r db1 adID' = true) rest
              = filter (λ adID', inQueue r db adID' = true) rest).
    { intros db1 Hdb1. apply filter_ext_in. intros adID' Hin.
      rewrite Hdb1; [done |]. by intros ->. }
    destruct (Redis.ZScore shardKey adID db) as [old |] eqn:Hold.
    + rewrite (UpdatePriority_present r adID newPriority db shardKey old
                 Hkey Hold).
      fold (rescored newPriority old).
      set (db1 := Redis.ZAdd shardKey adID (rescored newPriority old) db).
      destruct (IH db1 (count + 1) Hnd) as (db' & Heq & Hlook).
      exists db'. split.
      * rewrite Heq. f_equal. f_equal.
        rewrite (Hsame db1)
          by (intros adID' Hne; by apply inQueue_ZAdd).
        rewrite filter_cons.
        assert (Hin : inQueue r db adID = true).
        { unfold inQueue. rewrite Hkey, Hold.
          by apply bool_decide_eq_true_2. }
        rewrite decide_True by done. cbn [length]. lia.
      * intros key member. rewrite Hlook.
        destruct (decide (member = adID)) as [-> | Hne].
        -- rewrite (bool_decide_eq_false_2 (adID ∈ rest)) by done.
           rewrite (bool_decide_eq_true_2 (adID ∈ adID :: rest))
             by (by left).
           cbn [andb]. rewrite Hkey.
           case_bool_decide as Hk.
           ++ injection Hk as <-. subst db1.
              by rewrite ZScore_ZAdd_eq, Hold.
           ++ subst db1. rewrite ZScore_ZAdd_ne; [done | congruence].
        -- subst db1. rewrite ZScore_ZAdd_ne by congruence.
           erewrite (bool_decide_ext (member ∈ adID :: rest));
             [reflexivity |].
           rewrite elem_of_cons. split; [by intros [? | ?] | by right].
    + rewrite (UpdatePriority_absent r adID newPriority db shardKey
                 Hkey Hold).
      destruct (IH db count Hnd) as (db' & Heq & Hlook).
      exists db'. split.
      * rewrite Heq. f_equal. f_equal. rewrite filter_cons.
        assert (Hout : inQueue r db adID ≠ true).
        { unfold inQueue. rewrite Hkey, Hold.
          rewrite bool_decide_eq_false_2; [done |]. by intros [? ?]. }
        by rewrite decide_False by done.
      * intros key member. rewrite Hlook.
        destruct (decide (member = adID)) as [-> | Hne].
        -- rewrite (bool_decide_eq_false_2 (adID ∈ rest)) by done.
           rewrite (bool_decide_eq_true_2 (adID ∈ adID :: rest))
             by (by left).
           cbn [andb]. rewrite Hkey.
           case_bool_decide as Hk; [| done].
           injection Hk as <-. by rewrite Hold.
        -- erewrite (bool_decide_ext (member ∈ adID :: rest));
             [reflexivity |].
           rewrite elem_of_cons. split; [by intros [? | ?] | by right].
Qed.

Lemma updateQueuePriorities_spec r newPriority adIDs db :
  Cache.shardCount r ≠ 0 →
  NoDup adIDs →
  ∃ db',
    Service.updateQueuePriorities r newPriority adIDs db
    = (db',
       Some (Z.of_nat
               (length (filter (λ adID, inQueue r db adID = true) adIDs))))
    ∧ ∀ key member,
        Redis.ZScore key member db'
        = if bool_decide (member ∈ adIDs)
             && bool_decide (Cache.getShardKey r member = Some key)
          then rescored newPriority <$> Redis.ZScore key member db
          else Redis.ZScore key member db.
Proof.
  intros Hn Hnd.
  destruct (queue_loop r newPriority Hn adIDs db 0 Hnd)
    as (db' & Hloop & Hdb').
  exists db'. split; [| exact Hdb'].
  unfold Service.updateQueuePriorities. rewrite Hloop.
  by rewrite Z.add_0_l.
Qed.

(** The ids the service collects, for a repository whose aggregates are
    stored under their ids. *)
Lemma targeted_spec gameFamily a :
  targeted gameFamily a = true
  ↔ Ad.gameFamily a = gameFamily ∧ Ad.status a = Ad.AdStatusQueued.
Proof.
  unfold targeted. by rewrite andb_true_iff, !bool_decide_eq_true.
Qed.

Lemma collected_ids gameFamily (l : list (string * Ad.Ad)) :
  (∀ ka, ka ∈ l → Ad.id ka.2 = ka.1) →
  Ad.id <$> filter (λ a, Ad.status a = Ad.AdStatusQueued)
                   (filter (λ a, Ad.gameFamily a = gameFamily) l.*2)
  = (filter (λ ka, targeted gameFamily ka.2 = true) l).*1.
Proof.
  induction l as [| [k a] l IH]; intros Hkeyed; [done |].
  specialize (IH ltac:(intros ka Hka; apply Hkeyed; by right)).
  pose proof (Hkeyed (k, a) ltac:(by left)) as Hk. cbn in Hk.
  rewrite fmap_cons. cbn [snd].
  rewrite (filter_cons (λ ka, targeted gameFamily ka.2 = true)).
  rewrite (filter_cons (λ a, Ad.gameFamily a = gameFamily)).
  cbn [snd].
  destruct (decide (targeted gameFamily a = true)) as [Ht | Ht].
  - apply targeted_spec in Ht as [Hf Hs].
    rewrite decide_True by done.
    rewrite (filter_cons (λ a, Ad.status a = Ad.AdStatusQueued)).
    rewrite decide_True by done. by rewrite !fmap_cons, IH, Hk.
  - rewrite targeted_spec in Ht.
    destruct (decide (Ad.gameFamily a = gameFamily)) as [Hf | Hf];
      [| done].
    rewrite (filter_cons (λ a, Ad.status a = Ad.AdStatusQueued)).
    by rewrite decide_False by tauto.
Qed.

Lemma queued_count gameFamily r db (l : list (string * Ad.Ad)) :
  length (filter (λ adID, inQueue r db adID = true)
                 (filter (λ ka, targeted gameFamily ka.2 = true) l).*1)
  = length (filter (λ ka, targeted gameFamily ka.2 && inQueue r db ka.1
                          = true) l).
Proof.
  induction l as [| [k a] l IH]; [done |].
  rewrite !filter_cons. cbn [fst snd].
  destruct (targeted gameFamily a) eqn:Ht.
  - rewrite decide_True by done. rewrite fmap_cons, filter_cons. cbn [fst].
    cbn [andb].
    destruct (inQueue r db k) eqn:Hin.
    + rewrite !decide_True by done. cbn [length]. f_equal. exact IH.
    + rewrite !decide_False by done. done.
  - rewrite !decide_False by done. done.
Qed.

End FamilyChange.

(** The effect of the priority change on the repository and on the
    queue. *)
Lemma family_change_spec
    (range : gmap string Ad.Ad → list (string * Ad.Ad))
    (r : Cache.RedisQueueManager) (gameFamily : string)
    (newPriority : Ad.Priority) (ads : gmap string Ad.Ad)
    (db : gmap string (gmap string Z)) :
  (∀ m, range m ≡ₚ map_to_list m) →
  keyed ads →
  Ad.IsValid newPriority = true →
  Cache.shardCount r ≠ 0 →
  ∃ ads' db',
    Service.ChangePriorityForGameFamily range r gameFamily newPriority
                                        ads db
    = (ads', db',
       Service.Done
         (Z.of_nat
            (length
               (filter (λ ka, targeted gameFamily ka.2 && inQueue r db ka.1
                              = true)
                       (map_to_list ads)))))
    ∧ (∀ id,
         ads' !! id
         = (λ a, if targeted gameFamily a
                 then (Ad.ChangePriority newPriority a).1 else a)
             <$> ads !! id)
    ∧ (∀ key member,
         Redis.ZScore key member db'
         = if match ads !! member with
              | Some a => targeted gameFamily a
              | None => false
              end
              && bool_decide (Cache.getShardKey r member = Some key)
           then rescored newPriority <$> Redis.ZScore key member db
           else Redis.ZScore key member db).
Proof.
  intros Hrange Hkeyed Hvalid Hshards.
  unfold Service.ChangePriorityForGameFamily, Memory.FindByGameFamily.
  rewrite Hvalid. cbn [negb].
  assert (Hl : ∀ ka, ka ∈ range ads → ads !! ka.1 = Some ka.2).
  { intros ka Hka. rewrite (Hrange ads) in Hka.
    by apply elem_of_map_to_list'. }
  rewrite (collected_ids gameFamily (range ads))
    by (intros ka Hka; by apply Hkeyed, Hl).
  set (adIDs := (filter (λ ka, targeted gameFamily ka.2 = true)
                        (range ads)).*1).
  assert (Hnodup : NoDup adIDs).
  { apply (sublist_NoDup _ (range ads).*1).
    - rewrite (Hrange ads). apply NoDup_fst_map_to_list.
    - apply fmap_sublist, sublist_filter. }
  assert (Hmem : ∀ id, id ∈ adIDs
                       ↔ ∃ a, ads !! id = Some a
                              ∧ targeted gameFamily a = true).
  { intros id. unfold adIDs. rewrite list_elem_of_fmap. split.
    - intros ([k a] & -> & Hin). apply list_elem_of_filter in Hin as [Ht Hin].
      exists a. split; [by apply (Hl (k, a)) | done].
    - intros (a & Ha & Ht). exists (id, a). split; [done |].
      apply list_elem_of_filter. split; [done |].
      rewrite (Hrange ads). by apply elem_of_map_to_list. }
  assert (Hcount : length (filter (λ adID, inQueue r db adID = true) adIDs)
                   = length
                       (filter (λ ka, targeted gameFamily ka.2
                                      && inQueue r db ka.1 = true)
                               (map_to_list ads))).
  { unfold adIDs. rewrite queued_count. by rewrite (Hrange ads). }
  assert (Hin : ∀ id, bool_decide (id ∈ adIDs)
                      = match ads !! id with
                        | Some a => targeted gameFamily a
                        | None => false
                        end).
  { intros id. destruct (ads !! id) as [a |] eqn:Ha.
    - destruct (targeted gameFamily a) eqn:Ht.
      + apply bool_decide_eq_true_2, Hmem. by exists a.
      + apply bool_decide_eq_false_2. rewrite Hmem.
        intros (a' & Ha' & Ht'). rewrite Ha in Ha'. injection Ha' as <-.
        congruence.
    - apply bool_decide_eq_false_2. rewrite Hmem.
      intros (a' & Ha' & _). by rewrite Ha in Ha'. }
  destruct (memory_batch_ok newPriority Hvalid adIDs ads Hnodup)
    as (ads' & Hbatch & Hads').
  { intros id a Hid Ha. apply Hmem in Hid as (a' & Ha' & Ht).
    unfold Ad.AdID in *. rewrite Ha in Ha'. injection Ha' as <-.
    by apply targeted_spec in Ht as [_ Hq]. }
  destruct (updateQueuePriorities_spec r newPriority adIDs db Hshards
              Hnodup) as (db' & Hloop & Hdb').
  assert (Hads : ∀ id,
            ads' !! id
            = (λ a, if targeted gameFamily a
                    then (Ad.ChangePriority newPriority a).1 else a)
                <$> ads !! id).
  { intros id. rewrite Hads', Hin.
    destruct (ads !! id) as [a |]; [| done]. cbn.
    by destruct (targeted gameFamily a). }
  assert (Hdb : ∀ key member,
            Redis.ZScore key member db'
            = if match ads !! member with
                 | Some a => targeted gameFamily a
                 | None => false
                 end
                 && bool_decide (Cache.getShardKey r member = Some key)
              then rescored newPriority <$> Redis.ZScore key member db
              else Redis.ZScore key member db).
  { intros key member. by rewrite Hdb', Hin. }
  unfold Ad.AdID in *.
  destruct adIDs as [| adID rest] eqn:HadIDs.
  - exists ads, db. split; [| split].
    + do 2 f_equal. rewrite <- Hcount. done.
    + intros id. rewrite <- Hads, Hads'.
      by rewrite (bool_decide_eq_false_2 (id ∈ []))
        by apply not_elem_of_nil.
    + intros key member. rewrite <- Hdb, Hdb'.
      by rewrite (bool_decide_eq_false_2 (member ∈ []))
        by apply not_elem_of_nil.
  - exists ads', db'. split; [| split; [exact Hads | exact Hdb]].
    rewrite Hbatch, Hloop. by rewrite Hcount.
Qed.



(** ** DequeueBatch *)

Section Batch.
Import RedisQueue.
Implicit Types (db : gmap string (gmap string Z)) (key member : string).

Lemma range_entries key start stop db (e : string * Z) :
  e ∈ Redis.ZRevRangeWithScores key start stop db →
  Redis.ZScore key e.1 db = Some e.2.
Proof.
  unfold Redis.ZRevRangeWithScores. intros He.
  apply slice_subseteq in He. rewrite elem_of_reverse in He.
  destruct e as [m s]. by apply ascending_entries in He.
Qed.

(** [ZREM] of several members. *)
Lemma lookup_foldr_delete_members (s : gmap string Z) (ms : list string)
    member :
  foldr delete s ms !! member
  = if bool_decide (member ∈ ms) then None else s !! member.
Proof.
  induction ms as [| m ms IH].
  - by rewrite bool_decide_eq_false_2 by apply not_elem_of_nil.
  - cbn [foldr]. destruct (decide (member = m)) as [-> | Hne].
    + rewrite lookup_delete_eq.
      by rewrite bool_decide_eq_true_2 by (by left).
    + rewrite lookup_delete_ne by done. rewrite IH.
      erewrite (bool_decide_ext (member ∈ m :: ms)); [reflexivity |].
      rewrite elem_of_cons. split; [by intros [? | ?] | by right].
Qed.

Lemma ZScore_ZRem_members key ms db key' member :
  Redis.ZScore key' member (Redis.ZRem key ms db).1
  = if bool_decide (key' = key) && bool_decide (member ∈ ms) then None
    else Redis.ZScore key' member db.
Proof.
  unfold Redis.ZScore, Redis.ZRem. cbn [fst].
  destruct (decide (key' = key)) as [-> | Hne].
  - rewrite zset_store_eq, lookup_foldr_delete_members.
    by rewrite (bool_decide_eq_true_2 (key = key)) by done.
  - rewrite zset_store_ne by done.
    by rewrite (bool_decide_eq_false_2 (key' = key)) by done.
Qed.

Lemma listed_dec (l : list (string * list string)) key member :
  (∃ ms, (key, ms) ∈ l ∧ member ∈ ms) ∨ ¬ (∃ ms, (key, ms) ∈ l ∧ member ∈ ms).
Proof.
  destruct (decide (Exists (λ e : string * list string,
                              e.1 = key ∧ member ∈ e.2) l)) as [Hex | Hex].
  - left. apply Exists_exists in Hex as ([k' ms'] & Hin & <- & Hm).
    by exists ms'.
  - right. intros (ms' & Hin & Hm). apply Hex, Exists_exists.
    by exists (key, ms').
Qed.

(** The loop over [toRemove]. *)
Lemma removal_loop (l : list (string * list string)) : ∀ db key member,
  let db' :=
    foldl (λ db entry,
             if 0 <? Z.of_nat (length entry.2)
             then (Redis.ZRem entry.1 entry.2 db).1 else db)
          db l in
  ((∃ ms, (key, ms) ∈ l ∧ member ∈ ms) →
   Redis.ZScore key member db' = None)
  ∧ (¬ (∃ ms, (key, ms) ∈ l ∧ member ∈ ms) →
     Redis.ZScore key member db' = Redis.ZScore key member db).
Proof.
  induction l as [| [k ms] l IH]; intros db key member; cbn zeta.
  - split; [| done]. intros (ms & Hin & _). by apply elem_of_nil in Hin.
  - cbn [foldl fst snd].
    set (db1 := if 0 <? Z.of_nat (length ms)
                then (Redis.ZRem k ms db).1 else db).
    assert (Hdb1 : Redis.ZScore key member db1
                   = if bool_decide (key = k) && bool_decide (member ∈ ms)
                     then None else Redis.ZScore key member db).
    { subst db1. destruct ms as [| m ms].
      - cbn. rewrite (bool_decide_eq_false_2 (member ∈ []))
          by apply not_elem_of_nil.
        by rewrite andb_false_r.
      - cbn [length]. destruct (Z.ltb_spec 0 (Z.of_nat (S (length ms))));
          [| lia].
        apply ZScore_ZRem_members. }
    destruct (IH db1 key member) as [Hgone Hkept].
    destruct (listed_dec l key member) as [Hlater | Hlater].
    { split; [intros _; by apply Hgone |].
      intros Hno. exfalso. apply Hno.
      destruct Hlater as (ms' & Hin & Hm). exists ms'. split; [by right | done]. }
    rewrite (Hkept Hlater), Hdb1.
    destruct (decide (key = k ∧ member ∈ ms)) as [[-> Hm] | Hnow].
    + rewrite !bool_decide_eq_true_2 by done. split; [done |].
      intros Hno. exfalso. apply Hno. exists ms. split; [by left | done].
    + assert (Hb : bool_decide (key = k) && bool_decide (member ∈ ms)
                   = false).
      { apply andb_false_iff. rewrite !bool_decide_eq_false.
        destruct (decide (key = k)); [right | left]; tauto. }
      rewrite Hb. split; [| done].
      intros (ms' & Hin & Hm). exfalso.
      apply elem_of_cons in Hin as [[= -> ->] | Hin]; [tauto |].
      apply Hlater. by exists ms'.
Qed.

(** What the selection loop puts into [toRemove]. *)
Lemma toRemove_members validUUID (shardMapping : gmap string string)
    (l : list (string * Z)) key member :
  (∃ ms,
     foldl (λ toRemove (item : string * Z),
              match Cache.ParseAdID validUUID item.1 with
              | None => toRemove
              | Some _ =>
                  let shardKey :=
                    default EmptyString (shardMapping !! item.1) in
                  <[shardKey := default [] (toRemove !! shardKey)
                                ++ [item.1]]> toRemove
              end) (∅ : gmap string (list string)) l !! key = Some ms
     ∧ member ∈ ms)
  ↔ member ∈ (filter (λ e : string * Z, validUUID e.1 = true) l).*1
    ∧ default EmptyString (shardMapping !! member) = key.
Proof.
  induction l as [| x l IH] using rev_ind.
  - cbn. split.
    + intros (ms & Hlook & _). by rewrite lookup_empty in Hlook.
    + intros [Hin _]. by apply elem_of_nil in Hin.
  - rewrite foldl_app, filter_app, fmap_app, elem_of_app. cbn [foldl].
    set (T := foldl _ ∅ l) in *.
    rewrite filter_cons, filter_nil.
    unfold Cache.ParseAdID.
    destruct (validUUID x.1) eqn:Hv.
    + rewrite decide_True by done.
      set (kx := default EmptyString (shardMapping !! x.1)).
      cbn zeta. rewrite fmap_cons, fmap_nil, list_elem_of_singleton.
      destruct (decide (key = kx)) as [-> | Hne].
      * rewrite lookup_insert_eq. split.
        -- intros (ms & [= <-] & Hm).
           apply elem_of_app in Hm as [Hm | Hm].
           ++ destruct (T !! kx) as [old |] eqn:Hold;
                [| by apply elem_of_nil in Hm].
              destruct (proj1 IH) as [Hin Hk]; [by exists old |].
              split; [by left | done].
           ++ apply list_elem_of_singleton in Hm as ->.
              split; [by right | done].
        -- intros [[Hin | ->] Hk].
           ++ destruct (proj2 IH (conj Hin Hk)) as (old & Hold & Hm).
              eexists. split; [reflexivity |]. rewrite Hold.
              apply elem_of_app. by left.
           ++ eexists. split; [reflexivity |].
              apply elem_of_app. right. by apply list_elem_of_singleton.
      * rewrite lookup_insert_ne by done. rewrite IH. split.
        -- intros [Hin Hk]. split; [by left | done].
        -- intros [[Hin | ->] Hk]; [done |]. by subst kx.
    + rewrite decide_False by done. rewrite fmap_nil, IH. split.
      * intros [Hin Hk]. split; [by left | done].
      * intros [[Hin | Hin] Hk]; [done | by apply elem_of_nil in Hin].
Qed.

(** What the collecting loop puts into [shardMapping]. *)
Lemma inner_mapping key (items : list (string * Z)) :
  ∀ (sm : gmap string string) member,
  foldl (λ shardMapping (item : string * Z),
           <[item.1 := key]> shardMapping) sm items !! member
  = if bool_decide (member ∈ items.*1) then Some key else sm !! member.
Proof.
  induction items as [| x items IH]; intros sm member.
  - by rewrite bool_decide_eq_false_2 by apply not_elem_of_nil.
  - cbn [foldl]. rewrite IH, fmap_cons.
    destruct (decide (member ∈ items.*1)) as [Hin | Hin].
    + rewrite !bool_decide_eq_true_2; [done | by right | done].
    + rewrite (bool_decide_eq_false_2 _ Hin).
      destruct (decide (member = x.1)) as [-> | Hne].
      * rewrite lookup_insert_eq.
        by rewrite bool_decide_eq_true_2 by (by left).
      * rewrite lookup_insert_ne by done.
        rewrite bool_decide_eq_false_2; [done |].
        rewrite elem_of_cons. tauto.
Qed.

Lemma outer_mapping (ranges : string → list (string * Z))
    (keys : list string) : ∀ (sm : gmap string string) member,
  let shardMapping :=
    foldl (λ shardMapping shardKey,
             foldl (λ shardMapping (item : string * Z),
                      <[item.1 := shardKey]> shardMapping)
                   shardMapping (ranges shardKey))
          sm keys in
  (shardMapping !! member = sm !! member
   ∧ ∀ key, key ∈ keys → member ∉ (ranges key).*1)
  ∨ (∃ key, key ∈ keys ∧ member ∈ (ranges key).*1
            ∧ shardMapping !! member = Some key).
Proof.
  induction keys as [| k keys IH]; intros sm member; cbn zeta.
  - left. split; [done |]. intros key Hkey. by apply elem_of_nil in Hkey.
  - cbn [foldl].
    destruct (IH (foldl (λ shardMapping (item : string * Z),
                           <[item.1 := k]> shardMapping) sm (ranges k))
                 member) as [[Hsame Hnone] | (key & Hkey & Hin & Hlook)].
    + rewrite inner_mapping in Hsame.
      destruct (decide (member ∈ (ranges k).*1)) as [Hin | Hin].
      * rewrite (bool_decide_eq_true_2 _ Hin) in Hsame.
        right. exists k. split; [by left | done].
      * rewrite (bool_decide_eq_false_2 _ Hin) in Hsame.
        left. split; [done |]. intros key Hkey.
        apply elem_of_cons in Hkey as [-> | Hkey]; [done | by apply Hnone].
    + right. exists key. split; [by right | done].
Qed.

(** With no member in two shards, [shardMapping] names the shard of every
    member collected. *)
Lemma shardMapping_spec r batchSize db member key score :
  oneShard r db →
  key ∈ Cache.shardKeys r →
  (member, score)
    ∈ Redis.ZRevRangeWithScores key 0 (GoInt.sub batchSize 1) db →
  shardMappingOf r batchSize db !! member = Some key.
Proof.
  intros Hone Hkey Hin. unfold shardMappingOf.
  destruct (outer_mapping
              (λ shardKey, Redis.ZRevRangeWithScores shardKey 0
                             (GoInt.sub batchSize 1) db)
              (Cache.shardKeys r) ∅ member)
    as [[_ Hnone] | (key' & Hkey' & Hin' & Hlook)].
  - exfalso. apply (Hnone key Hkey).
    apply list_elem_of_fmap. by exists (member, score).
  - rewrite Hlook. f_equal.
    apply list_elem_of_fmap in Hin' as ([m s] & -> & Hin').
    apply range_entries in Hin, Hin'. cbn in Hin, Hin'.
    apply (Hone key' key m); [done | done | by eexists | by eexists].
Qed.

Lemma collect_ranges r count db (e : string * Z) :
  e ∈ collect r count db
  ↔ ∃ key, key ∈ Cache.shardKeys r
           ∧ e ∈ Redis.ZRevRangeWithScores key 0 (GoInt.sub count 1) db.
Proof.
  unfold collect. rewrite list_elem_of_join. split.
  - intros (l & He & Hl).
    apply list_elem_of_fmap in Hl as (key & -> & Hkey). by exists key.
  - intros (key & Hkey & He). eexists. split; [exact He |].
    apply list_elem_of_fmap. by exists key.
Qed.

(** ** Routing *)

Lemma routed_oneShard r db : routed r db → oneShard r db.
Proof.
  intros Hrouted key key' member Hkey Hkey' Hin Hin'.
  pose proof (Hrouted key member Hkey Hin) as H1.
  pose proof (Hrouted key' member Hkey' Hin') as H2. congruence.
Qed.

Lemma routed_empty r : routed r ∅.
Proof.
  intros key member _ [s Hs]. unfold Redis.ZScore, Redis.zset in Hs.
  by rewrite lookup_empty in Hs.
Qed.

Lemma routed_shrink r db db' :
  (∀ key member, is_Some (Redis.ZScore key member db') →
                 is_Some (Redis.ZScore key member db)) →
  routed r db → routed r db'.
Proof. intros Hsub Hrouted key member Hkey Hin. by apply Hrouted, Hsub. Qed.

Lemma routed_ZAdd r db shardKey adID score :
  Cache.getShardKey r adID = Some shardKey →
  routed r db → routed r (Redis.ZAdd shardKey adID score db).
Proof.
  intros Hshard Hrouted key member Hkey Hin.
  destruct (decide ((key, member) = (shardKey, adID))) as [[= -> ->] | Hne];
    [done |].
  rewrite ZScore_ZAdd_ne in Hin by done. by apply Hrouted.
Qed.

Lemma ZRem_shrinks key ms db key' member :
  is_Some (Redis.ZScore key' member (Redis.ZRem key ms db).1) →
  is_Some (Redis.ZScore key' member db).
Proof.
  rewrite ZScore_ZRem_members. destruct (_ && _); [by intros [? ?] | done].
Qed.

Lemma removal_loop_shrinks (l : list (string * list string)) db key member :
  is_Some (Redis.ZScore key member
             (foldl (λ db entry,
                       if 0 <? Z.of_nat (length entry.2)
                       then (Redis.ZRem entry.1 entry.2 db).1 else db)
                    db l)) →
  is_Some (Redis.ZScore key member db).
Proof.
  destruct (removal_loop l db key member) as [Hgone Hkept].
  cbv zeta in Hgone, Hkept.
  destruct (listed_dec l key member) as [Hin | Hout].
  - rewrite (Hgone Hin). by intros [? ?].
  - by rewrite (Hkept Hout).
Qed.

End Batch.

(** X22. [DequeueBatch] on a queue in which no member has entries in two
    shards, in whatever order it walks its removal map: the items it
    returns are the items [GetNext] shows for the same size, and the
    entries it removes from the shards are exactly the entries of the
    members it returns; every other entry keeps its score. *)
Theorem dequeue_batch_removes_what_it_returns
    (validUUID : string → bool)
    (range : gmap string (list string) → list (string * list string))
    (r : Cache.RedisQueueManager) (clock : nat → GoInt.Time)
    (batchSize : Z) (db : gmap string (gmap string Z)) :
  (∀ m, range m ≡ₚ map_to_list m) →
  oneShard r db →
  let out := RedisQueue.DequeueBatch validUUID range r clock batchSize db in
  out.2 = RedisQueue.GetNext validUUID r clock batchSize db
  ∧ ∀ key member,
      (key ∈ Cache.shardKeys r → member ∈ Queue.adID <$> out.2 →
       Redis.ZScore key member out.1 = None)
      ∧ (key ∉ Cache.shardKeys r ∨ member ∉ Queue.adID <$> out.2 →
         Redis.ZScore key member out.1 = Redis.ZScore key member db).
Proof.
  intros Hrange Hone. cbv zeta. unfold RedisQueue.DequeueBatch.
  cbn [fst snd]. split; [done |].
  set (allItems := RedisQueue.sortByScore
                     (RedisQueue.collect r batchSize db)).
  set (top := take (Z.to_nat batchSize) allItems).
  set (sm := RedisQueue.shardMappingOf r batchSize db).
  assert (Hitems : ∀ member,
            member ∈ Queue.adID
                       <$> RedisQueue.toQueueItems validUUID clock batchSize
                                                   allItems
            ↔ member ∈ (filter (λ e : string * Z, validUUID e.1 = true)
                               top).*1).
  { intros member. unfold RedisQueue.toQueueItems. fold top.
    pose proof (toQueueItems_shape validUUID top clock) as Hshape.
    apply (f_equal (fmap fst)) in Hshape.
    rewrite <- !list_fmap_compose in Hshape.
    change (fst ∘ (λ qi, (Queue.adID qi, Queue.priority qi)))
      with Queue.adID in Hshape.
    rewrite Hshape. rewrite !list_elem_of_fmap. split.
    - intros (e & -> & He). by exists e.
    - intros (e & -> & He). by exists e. }
  assert (Hsel : ∀ member,
            member ∈ (filter (λ e : string * Z, validUUID e.1 = true)
                             top).*1 →
            ∃ key0 score,
              key0 ∈ Cache.shardKeys r
              ∧ Redis.ZScore key0 member db = Some score
              ∧ sm !! member = Some key0).
  { intros member Hin.
    apply list_elem_of_fmap in Hin as ([m s] & -> & Hin).
    apply list_elem_of_filter in Hin as [_ Hin].
    apply subseteq_take in Hin. subst allItems.
    rewrite sortByScore_Permutation in Hin.
    apply collect_ranges in Hin as (key0 & Hkey0 & Hin).
    exists key0, s. split; [done |]. split.
    - by apply range_entries in Hin.
    - by apply (shardMapping_spec r batchSize db m key0 s). }
  intros key member.
  pose proof (removal_loop
                (range (RedisQueue.toRemoveOf validUUID sm batchSize
                                              allItems))
                db key member) as [Hgone Hkept].
  cbv zeta in Hgone, Hkept.
  assert (Hlisted : (∃ ms, (key, ms)
                             ∈ range (RedisQueue.toRemoveOf validUUID sm
                                        batchSize allItems)
                           ∧ member ∈ ms)
                    ↔ member ∈ (filter (λ e : string * Z,
                                          validUUID e.1 = true) top).*1
                      ∧ default EmptyString (sm !! member) = key).
  { rewrite <- (toRemove_members validUUID sm top key member).
    unfold RedisQueue.toRemoveOf. fold top. split.
    - intros (ms & Hin & Hm). exists ms. split; [| done].
      rewrite (Hrange _) in Hin. by apply elem_of_map_to_list in Hin.
    - intros (ms & Hlook & Hm). exists ms. split; [| done].
      rewrite (Hrange _). by apply elem_of_map_to_list. }
  split.
  - intros Hkey Hmember. apply Hitems in Hmember.
    destruct (Hsel member Hmember) as (key0 & score & Hkey0 & Hscore & Hsm).
    destruct (decide (key = key0)) as [-> | Hne].
    + apply Hgone, Hlisted. split; [done |]. by rewrite Hsm.
    + rewrite Hkept.
      * destruct (Redis.ZScore key member db) as [s |] eqn:Hs; [| done].
        exfalso. apply Hne.
        apply (Hone key key0 member); [done | done | by eexists | by eexists].
      * rewrite Hlisted, Hsm. cbn. intros [_ ->]. done.
  - intros Hout. apply Hkept. rewrite Hlisted. intros [Hmember Hk].
    destruct (Hsel member Hmember) as (key0 & score & Hkey0 & _ & Hsm).
    rewrite Hsm in Hk. cbn in Hk. subst key0.
    destruct Hout as [Hout | Hout]; [done |].
    apply Hout. by apply Hitems.
Qed.

Lemma dequeue_batch_removes_what_it_returns_witness :
  let out := RedisQueue.DequeueBatch (λ _, true) map_to_list Sample.manager
               (λ _, Sample.t0) 2 Sample.db3 in
  out.2 = RedisQueue.GetNext (λ _, true) Sample.manager (λ _, Sample.t0) 2
                             Sample.db3
  ∧ ∀ key member,
      (key ∈ Cache.shardKeys Sample.manager →
       member ∈ Queue.adID <$> out.2 →
       Redis.ZScore key member out.1 = None)
      ∧ (key ∉ Cache.shardKeys Sample.manager
         ∨ member ∉ Queue.adID <$> out.2 →
         Redis.ZScore key member out.1
         = Redis.ZScore key member Sample.db3).
Proof.
  apply dequeue_batch_removes_what_it_returns.
  - intros m. reflexivity.
  - apply routed_oneShard. unfold Sample.db3, Cache.Enqueue.
    repeat (apply routed_ZAdd; [reflexivity |]). apply routed_empty.
Defined.

(** X23. Routing is an invariant of the queue manager: when every entry
    of a shard sits in the shard [getShardKey] computes for its member,
    this is still so after [Enqueue], [UpdatePriority], [Remove],
    [Dequeue], [DequeueBatch] and an anti-starvation pass; it holds of the
    empty queue, and it leaves no member with entries in two shards. *)
Theorem routing_is_invariant
    (validUUID : string → bool)
    (range : gmap string (list string) → list (string * list string))
    (r : Cache.RedisQueueManager) (now : GoInt.Time)
    (clock : nat → GoInt.Time) (adID : Ad.AdID) (p : Ad.Priority)
    (batchSize : Z) (db : gmap string (gmap string Z)) :
  routed r db →
  oneShard r db
  ∧ routed r (Cache.Enqueue r now adID p db).1
  ∧ routed r (Cache.UpdatePriority r adID p db).1
  ∧ routed r (Cache.Remove r adID db).1
  ∧ routed r (Cache.Dequeue validUUID r now db).1
  ∧ routed r (RedisQueue.DequeueBatch validUUID range r clock batchSize
                                      db).1
  ∧ routed r (Cache.ApplyAntiStarvation r clock db).
Proof.
  intros Hrouted. split; [by apply routed_oneShard |].
  split; [| split; [| split; [| split; [| split]]]].
  - unfold Cache.Enqueue.
    destruct (Cache.getShardKey r adID) as [shardKey |] eqn:Hshard;
      [| done].
    by apply routed_ZAdd.
  - unfold Cache.UpdatePriority.
    destruct (Cache.getShardKey r adID) as [shardKey |] eqn:Hshard;
      [| done].
    destruct (Redis.ZScore shardKey adID db); [| done].
    by apply routed_ZAdd.
  - unfold Cache.Remove.
    destruct (Cache.getShardKey r adID) as [shardKey |] eqn:Hshard;
      [| done].
    destruct (Redis.ZRem shardKey [adID] db) as [db' removed] eqn:Hrem.
    assert (Hdb' : db' = (Redis.ZRem shardKey [adID] db).1).
    { unfold Ad.AdID in *. by rewrite Hrem. }
    assert (routed r db').
    { rewrite Hdb'. apply (routed_shrink r db); [| done].
      intros key member. apply ZRem_shrinks. }
    by destruct (removed =? 0).
  - pose proof (Dequeue_peeked validUUID r now db) as Hpeek.
    destruct (foldl (Cache.peekShard db) None (Cache.shardKeys r))
      as [[item key] |].
    + destruct Hpeek as (_ & _ & _ & ->). cbn [fst].
      apply (routed_shrink r db); [| done].
      intros k m. apply ZRem_shrinks.
    + destruct Hpeek as [_ ->]. done.
  - unfold RedisQueue.DequeueBatch. cbn [fst].
    apply (routed_shrink r db); [| done].
    intros key member. apply removal_loop_shrinks.
  - destruct (Queue.AntiStarvationEnabled (Cache.config r)) eqn:Hon.
    + destruct (starvation_pass_entries r clock db Hon)
        as (_ & _ & Hnone).
      intros key member Hkey Hin. apply Hrouted; [done |].
      destruct (Redis.ZScore key member db) as [s |] eqn:Hs; [by eexists |].
      rewrite (Hnone key member Hkey Hs) in Hin. by destruct Hin.
    + by rewrite ApplyAntiStarvation_disabled.
Qed.

Lemma routing_is_invariant_witness :
  routed Sample.manager Sample.db3
  ∧ oneShard Sample.manager Sample.db3
  ∧ routed Sample.manager
      (Cache.Dequeue (λ _, true) Sample.manager Sample.t0 Sample.db3).1.
Proof.
  assert (Hrouted : routed Sample.manager Sample.db3).
  { unfold Sample.db3, Cache.Enqueue.
    repeat (apply routed_ZAdd; [reflexivity |]). apply routed_empty. }
  split; [exact Hrouted |].
  pose proof (routing_is_invariant (λ _, true) map_to_list Sample.manager
                Sample.t0 (λ _, Sample.t0) Sample.idA 3 2 Sample.db3
                Hrouted) as (Hone & _ & _ & _ & Hdequeue & _).
  split; [exact Hone | exact Hdequeue].
Defined.
(** ** The anti-starvation pass and the PostgreSQL batch, in general *)

(** X24. An anti-starvation pass over a queue of non-negative scores,
    with a maximal wait that is not negative, only promotes: it adds and
    removes no entry and touches no key other than the shards; every entry
    keeps the time component of its score, and its band afterwards is
    neither below its band before nor, unless the entry is left as it is,
    above the highest priority. *)
Theorem starvation_pass_only_promotes
    (r : Cache.RedisQueueManager) (clock : nat → GoInt.Time)
    (db : gmap string (gmap string Z)) :
  0 ≤ Queue.MaxWaitTime (Cache.config r) →
  (∀ k m s, k ∈ Cache.shardKeys r → Redis.ZScore k m db = Some s → 0 ≤ s) →
  let after := Cache.ApplyAntiStarvation r clock db in
  (∀ k m, k ∉ Cache.shardKeys r →
          Redis.ZScore k m after = Redis.ZScore k m db)
  ∧ (∀ k m, k ∈ Cache.shardKeys r → Redis.ZScore k m db = None →
            Redis.ZScore k m after = None)
  ∧ (∀ k m s, k ∈ Cache.shardKeys r → Redis.ZScore k m db = Some s →
       ∃ s', Redis.ZScore k m after = Some s'
             ∧ timeComponent s' = timeComponent s
             ∧ bandOf s ≤ bandOf s'
             ∧ (s' = s ∨ bandOf s' ≤ Ad.PriorityHigh)).
Proof.
  intros Hwait Hnonneg. cbv zeta.
  destruct (Queue.AntiStarvationEnabled (Cache.config r)) eqn:Hon; cycle 1.
  { rewrite ApplyAntiStarvation_disabled by done.
    repeat split; try done. intros k m s _ Hs. exists s.
    split; [done |]. split; [done |]. split; [lia | by left]. }
  destruct (starvation_pass_entries r clock db Hon)
    as (Hother & Hsome & Hnone).
  split; [exact Hother |]. split; [exact Hnone |].
  intros k m s Hk Hs. destruct (Hsome k m s Hk Hs) as [n Hafter].
  destruct (Cache.boostedScore (Cache.config r) (clock n) s)
    as [s' |] eqn:Hboost; cbn [default] in Hafter.
  - exists s'. split; [done |].
    destruct (boostedScore_keeps_time_component _ _ _ _
                (Hnonneg k m s Hk Hs) Hboost) as (Htime & Hcap & Hband).
    split; [done |]. split; [| by right].
    apply Hband.
    destruct (Z.le_gt_cases (Cache.ageOf (clock n) s)
                (Queue.MaxWaitTime (Cache.config r))) as [Hyoung | Hold].
    + rewrite boostedScore_skip in Hboost by (by left). done.
    + lia.
  - exists s. split; [done |]. split; [done |]. split; [lia | by left].
Qed.

Lemma starvation_pass_only_promotes_witness :
  let after := Cache.ApplyAntiStarvation Sample.manager
                 (λ _, Sample.t0 + 11 * GoInt.Minute) Sample.dbLow in
  (∀ k m, k ∉ Cache.shardKeys Sample.manager →
          Redis.ZScore k m after = Redis.ZScore k m Sample.dbLow)
  ∧ (∀ k m, k ∈ Cache.shardKeys Sample.manager →
            Redis.ZScore k m Sample.dbLow = None →
            Redis.ZScore k m after = None)
  ∧ (∀ k m s, k ∈ Cache.shardKeys Sample.manager →
       Redis.ZScore k m Sample.dbLow = Some s →
       ∃ s', Redis.ZScore k m after = Some s'
             ∧ timeComponent s' = timeComponent s
             ∧ bandOf s ≤ bandOf s'
             ∧ (s' = s ∨ bandOf s' ≤ Ad.PriorityHigh)).
Proof.
  apply starvation_pass_only_promotes.
  - by vm_compute.
  - intros k m s _ Hs.
    change Sample.dbLow
      with (Redis.ZAdd "queue:shard:0" Sample.idA 18299999999 ∅) in Hs.
    destruct (decide ((k, m) = ("queue:shard:0", Sample.idA)))
      as [[= -> ->] | Hne].
    + rewrite ZScore_ZAdd_eq in Hs. injection Hs as <-. lia.
    + rewrite ZScore_ZAdd_ne in Hs by done.
      unfold Redis.ZScore, Redis.zset in Hs.
      by rewrite lookup_empty in Hs.
Defined.

(** X25. The batch of the PostgreSQL repository over distinct ids is
    all-or-nothing, whichever statement the connection fails at: with an
    error the table is the one the call started from; without one, exactly
    the rows of the listed ids that are QUEUED have the new priority and
    their version plus one, and every other row is as before. *)
Theorem postgres_batch_all_or_nothing
    (down : nat → bool) (ids : list Ad.AdID) (newPriority : Ad.Priority)
    (table : gmap string Ad.Ad) :
  NoDup ids →
  let out :=
    Persistence.PostgresUpdatePriorityBatch down ids newPriority table in
  match out.2 with
  | Some _ => out.1 = table
  | None =>
      ∀ id, out.1 !! id = batchEffect ids newPriority id <$> table !! id
  end.
Proof.
  intros Hnd. cbv zeta.
  destruct (Persistence.PostgresUpdatePriorityBatch down ids newPriority
              table) as [table' [e |]] eqn:Hbatch; cbn [fst snd].
  - by apply (postgres_batch_error_changes_nothing _ _ _ _ _ _ Hbatch).
  - intros id. by apply (postgres_batch_success down ids newPriority table).
Qed.

Lemma postgres_batch_all_or_nothing_witness :
  let out :=
    Persistence.PostgresUpdatePriorityBatch (λ n, bool_decide (n = 2%nat))
      [Sample.idA; Sample.idB] 5 Sample.ads2 in
  out.2 = Some (Persistence.ErrStorage 2)
  ∧ match out.2 with
    | Some _ => out.1 = Sample.ads2
    | None =>
        ∀ id, out.1 !! id
              = batchEffect [Sample.idA; Sample.idB] 5 id
                  <$> Sample.ads2 !! id
    end.
Proof.
  split; [by vm_compute |].
  apply (postgres_batch_all_or_nothing (λ n, bool_decide (n = 2%nat))
           [Sample.idA; Sample.idB] 5 Sample.ads2).
  apply NoDup_cons. split; [| apply NoDup_singleton].
  intros Hin. apply list_elem_of_singleton in Hin. discriminate.
Defined.
(** ** Creating and processing an ad *)

(** X26. [CreateAd] of the ad service with a request the factory
    accepts, on a manager with at least one shard: the aggregate is stored
    under the fresh id, QUEUED, at version 1, with the requested priority
    (3 when the request names none); its id is enqueued in its shard with
    the score of that priority at the time of the call; and the position
    in the response is one more than the number of entries of all shards
    with a greater score, so it is never the fallback [-1]. *)
Theorem create_ad_is_stored_and_ranked
    (r : Cache.RedisQueueManager) (newID : Ad.AdID)
    (created enqueued answered : GoInt.Time)
    (req : Service.CreateAdRequest) (ads : gmap string Ad.Ad)
    (db : gmap string (gmap string Z)) :
  Cache.shardCount r ≠ 0 →
  Service.Title req ≠ EmptyString →
  Service.GameFamily req ≠ EmptyString →
  Service.TargetAudience req ≠ [] →
  (∀ p, Service.Priority req = Some p → 1 ≤ p ≤ 5) →
  let priority := default Ad.PriorityNormal (Service.Priority req) in
  let score := Cache.calculateScore priority enqueued in
  ∃ newAd shardKey response,
    Service.CreateAd r newID created enqueued answered req ads db
    = (Persistence.Save newAd ads, Redis.ZAdd shardKey newID score db,
       Service.Created response)
    ∧ Cache.getShardKey r newID = Some shardKey
    ∧ Persistence.FindByID newID (Persistence.Save newAd ads) = Some newAd
    ∧ Ad.id newAd = newID
    ∧ Ad.status newAd = Ad.AdStatusQueued
    ∧ Ad.version newAd = 1
    ∧ Ad.priority newAd = priority
    ∧ Ad.createdAt newAd = created
    ∧ Service.AdID response = newID
    ∧ Service.Status response = Ad.AdStatusQueued
    ∧ Service.ResponsePriority response = priority
    ∧ Service.Position response
      = strictlyAbove score
          (queueEntries r (Redis.ZAdd shardKey newID score db)) + 1
    ∧ 1 ≤ Service.Position response.
Proof.
  intros Hshards Htitle Hfamily Haudience Hpriority. cbv zeta.
  destruct (getShardKey_defined r newID Hshards) as [shardKey Hkey].
  unfold Service.CreateAd.
  set (priority := match Service.Priority req with
                   | Some p => p
                   | None => Ad.PriorityNormal
                   end).
  assert (Hdefault : default Ad.PriorityNormal (Service.Priority req)
                     = priority).
  { subst priority. by destruct (Service.Priority req). }
  rewrite Hdefault.
  assert (Hvalid : Ad.IsValid priority = true).
  { subst priority. unfold Ad.IsValid.
    destruct (Service.Priority req) as [p |]; [| done].
    specialize (Hpriority p eq_refl). lia. }
  unfold Ad.CreateAd.
  rewrite (bool_decide_eq_false_2 _ Htitle).
  rewrite (bool_decide_eq_false_2 _ Hfamily).
  rewrite bool_decide_eq_false_2
    by (by destruct (Service.TargetAudience req)).
  rewrite Hvalid. cbn [negb Ad.id Ad.priority Ad.status].
  rewrite (Enqueue_unfold r enqueued newID priority db shardKey Hkey).
  set (score := Cache.calculateScore priority enqueued).
  set (db' := Redis.ZAdd shardKey newID score db).
  assert (Hposition : Cache.GetPosition r newID db'
                      = Cache.Ok (strictlyAbove score (queueEntries r db')
                                  + 1)).
  { unfold Cache.GetPosition. rewrite Hkey. subst db'.
    rewrite ZScore_ZAdd_eq. f_equal.
    by rewrite position_loop, Z.add_0_l. }
  rewrite Hposition.
  eexists _, shardKey, _. split; [reflexivity |].
  cbn. unfold Persistence.FindByID, Persistence.Save. cbn.
  rewrite lookup_insert_eq.
  repeat split; try done.
  unfold strictlyAbove. lia.
Qed.

Lemma create_ad_is_stored_and_ranked_witness :
  ∃ newAd response,
    Service.CreateAd Sample.manager Sample.idB Sample.t0
      (Sample.t0 + 1 * GoInt.Second) (Sample.t0 + 2 * GoInt.Second)
      (Service.mkCreateAdRequest "Summer sale" "RPG-Fantasy" ["gamers"]
                                 None (Some 300))
      ∅ (Cache.Enqueue Sample.manager Sample.t0 Sample.idA 3 ∅).1
    = (Persistence.Save newAd ∅,
       (Cache.Enqueue Sample.manager (Sample.t0 + 1 * GoInt.Second)
          Sample.idB 3
          (Cache.Enqueue Sample.manager Sample.t0 Sample.idA 3 ∅).1).1,
       Service.Created response)
    ∧ Service.Position response = 2.
Proof.
  destruct (create_ad_is_stored_and_ranked Sample.manager Sample.idB
              Sample.t0 (Sample.t0 + 1 * GoInt.Second)
              (Sample.t0 + 2 * GoInt.Second)
              (Service.mkCreateAdRequest "Summer sale" "RPG-Fantasy"
                                         ["gamers"] None (Some 300))
              ∅ (Cache.Enqueue Sample.manager Sample.t0 Sample.idA 3 ∅).1
              ltac:(done) ltac:(done) ltac:(done) ltac:(done)
              ltac:(by intros p))
    as (newAd & shardKey & response & Hcall & Hkey & _ & _ & _ & _ & _ & _
        & _ & _ & _ & Hposition & _).
  exists newAd, response. vm_compute in Hkey. injection Hkey as <-.
  split; [exact Hcall |]. rewrite Hposition. by vm_compute.
Defined.

(** X27. [processAd] of the ad processor over an in-memory repository
    that keeps every aggregate under its id: an id the repository lacks
    gives the find error, and an aggregate that is not QUEUED the start
    error, both with the repository as it was; a QUEUED aggregate is left
    COMPLETED, two versions on, with both time stamps set, and when the
    context is cancelled in between it is left PROCESSING, one version on.
    No other aggregate changes. *)
Theorem process_ad_outcomes
    (started completed : GoInt.Time) (cancelled : bool) (adID : Ad.AdID)
    (ads : gmap string Ad.Ad) :
  keyed ads →
  let out := Processor.processAd started completed cancelled adID ads in
  match ads !! adID with
  | None => out = (ads, Some Processor.ErrFindAd)
  | Some a =>
      if bool_decide (Ad.status a = Ad.AdStatusQueued) then
        ∃ a',
          out = (<[adID := a']> ads,
                 if cancelled then Some Processor.ErrContext else None)
          ∧ Ad.status a'
            = (if cancelled then Ad.AdStatusProcessing
               else Ad.AdStatusCompleted)
          ∧ Ad.processingStartedAt a' = Some started
          ∧ Ad.processedAt a'
            = (if cancelled then Ad.processedAt a else Some completed)
          ∧ Ad.version a'
            = (if cancelled then GoInt.add (Ad.version a) 1
               else GoInt.add (GoInt.add (Ad.version a) 1) 1)
          ∧ Ad.priority a' = Ad.priority a
          ∧ Ad.id a' = adID
      else
        out = (ads,
               Some (Processor.ErrStartProcessing
                       Ad.ErrInvalidStatusTransition))
  end.
Proof.
  intros Hkeyed. cbv zeta. unfold Processor.processAd, Persistence.FindByID.
  destruct (ads !! adID) as [a |] eqn:Ha; [| done].
  pose proof (Hkeyed adID a Ha) as Hid.
  case_bool_decide as Hq.
  - rewrite (StartProcessing_ok started a Hq).
    unfold Persistence.Save. cbn [Ad.id]. rewrite Hid, insert_insert_eq.
    destruct cancelled.
    + eexists. split; [reflexivity |]. by repeat split.
    + rewrite CompleteProcessing_ok by done.
      cbn [Ad.id]. rewrite !insert_insert_eq.
      eexists. split; [reflexivity |]. by repeat split.
  - by rewrite (StartProcessing_rejected started a Hq).
Qed.

Lemma process_ad_outcomes_witness :
  let out := Processor.processAd (Sample.t0 + 1) (Sample.t0 + 2) false
               Sample.idA Sample.ads2 in
  out.2 = None
  ∧ Ad.status <$> out.1 !! Sample.idA = Some Ad.AdStatusCompleted
  ∧ Ad.version <$> out.1 !! Sample.idA = Some 3.
Proof.
  pose proof (process_ad_outcomes (Sample.t0 + 1) (Sample.t0 + 2) false
                Sample.idA Sample.ads2
                ltac:(unfold Sample.ads2;
                      apply keyed_Save, keyed_Save, keyed_empty)) as Hout.
  cbv zeta in Hout.
  change (Sample.ads2 !! Sample.idA)
    with (Some (Sample.queuedAd Sample.idA 2)) in Hout.
  cbn [bool_decide] in Hout.
  destruct Hout as (a' & -> & Hstatus & _ & _ & Hversion & _).
  cbn [fst snd]. rewrite lookup_insert_eq. cbn.
  rewrite Hstatus, Hversion. by repeat split.
Defined.
(** ** The stored configuration *)

Section StoredConfig.
Import Command.

Lemma digit_is_no_sign c k :
  isDigit c = true → k = 58%N ∨ k = 45%N ∨ k = 43%N →
  Ascii.eqb c (Ascii.ascii_of_N k) = false.
Proof.
  intros Hdigit Hk.
  destruct (Ascii.eqb_spec c (Ascii.ascii_of_N k)) as [-> | _]; [| done].
  destruct Hk as [-> | [-> | ->]]; by vm_compute in Hdigit.
Qed.

Lemma digits_noColon (s : string) :
  forallb isDigit (String.list_ascii_of_string s) = true → noColon s.
Proof.
  unfold noColon. induction s as [| c s IH]; [done |].
  cbn [String.list_ascii_of_string forallb]. intros Hall.
  apply andb_prop in Hall as [Hc Hall].
  rewrite (digit_is_no_sign c 58 Hc) by auto. cbn [negb andb].
  by apply IH.
Qed.

Lemma pretty_negative p :
  pretty (Z.neg p)
  = String (Ascii.ascii_of_N 45) (pretty_N_go (N.pos p) EmptyString).
Proof. reflexivity. Qed.

Lemma pretty_noColon (z : Z) : noColon (pretty z).
Proof.
  destruct z as [| p | p].
  - done.
  - apply digits_noColon. by apply (pretty_Z_digits (Z.pos p)).
  - rewrite pretty_negative. unfold noColon.
    cbn [String.list_ascii_of_string forallb].
    change (negb (Ascii.eqb (Ascii.ascii_of_N 45) (Ascii.ascii_of_N 58)))
      with true. cbn [andb].
    apply digits_noColon. apply pretty_N_go_digits.
Qed.

Lemma SplitColon_one (a : string) : noColon a → Strings.SplitColon a = [a].
Proof.
  unfold noColon. induction a as [| c a IH]; [done |].
  cbn [String.list_ascii_of_string forallb Strings.SplitColon].
  intros Hall. apply andb_prop in Hall as [Hc Hall].
  apply negb_true_iff in Hc. rewrite Hc. by rewrite (IH Hall).
Qed.

Lemma SplitColon_cons (a rest : string) :
  noColon a →
  Strings.SplitColon (a +:+ ":" +:+ rest) = a :: Strings.SplitColon rest.
Proof.
  unfold noColon. induction a as [| c a IH].
  - intros _. reflexivity.
  - cbn [String.list_ascii_of_string forallb]. intros Hall.
    apply andb_prop in Hall as [Hc Hall].
    apply negb_true_iff in Hc. rewrite append_cons.
    cbn [Strings.SplitColon]. rewrite Hc. by rewrite (IH Hall).
Qed.

(** [Atoi] reads back the decimal form of an [int]. *)
Lemma AtoiValue_pretty (z : Z) :
  GoInt.minInt64 ≤ z ≤ GoInt.maxInt64 →
  Strconv.AtoiValue (pretty z) = z.
Proof.
  unfold GoInt.minInt64, GoInt.maxInt64. intros Hz.
  destruct z as [| p | p].
  - reflexivity.
  - destruct (pretty_Z_digits (Z.pos p)) as (Hall & Hval & Hne); [lia |].
    unfold Strconv.AtoiValue.
    destruct (pretty (Z.pos p)) as [| c s] eqn:Hp; [done |].
    assert (Hc : isDigit c = true).
    { cbn [String.list_ascii_of_string forallb] in Hall.
      by apply andb_prop in Hall as [Hc _]. }
    rewrite (digit_is_no_sign c 45 Hc), (digit_is_no_sign c 43 Hc) by auto.
    rewrite Hall, Hval. unfold GoInt.maxInt64.
    destruct (Z.leb_spec (Z.pos p) (2 ^ 63 - 1)); [done | lia].
  - rewrite pretty_negative.
    destruct (pretty_N_go_digits (N.pos p)) as (Hall & Hval & Hne).
    unfold Strconv.AtoiValue. rewrite Ascii.eqb_refl.
    destruct (pretty_N_go (N.pos p) EmptyString) as [| c s] eqn:Hp.
    { by destruct Hne. }
    rewrite Hall, Hval. cbn [Z.of_N].
    destruct (Z.leb_spec (Z.pos p) (2 ^ 63)); [done | lia].
Qed.

End StoredConfig.

(** X28. What [GetConfig] reads back after [UpdateConfig]: the flag, the
    worker count and the batch size as they were stored, and the two
    durations cut down to whole seconds; so a configuration whose
    durations are whole seconds is read back as it was stored, while the
    manager itself keeps the configuration with its durations uncut. *)
Theorem stored_config_round_trip
    (truncSeconds : GoInt.Duration → Z) (config : Queue.QueueConfig)
    (r : Cache.RedisQueueManager) (strs : gmap string string) :
  GoInt.minInt64 ≤ truncSeconds (Queue.MaxWaitTime config)
    ≤ GoInt.maxInt64 →
  GoInt.minInt64 ≤ truncSeconds (Queue.ProcessingTimeout config)
    ≤ GoInt.maxInt64 →
  GoInt.minInt64 ≤ Queue.WorkerCount config ≤ GoInt.maxInt64 →
  GoInt.minInt64 ≤ Queue.BatchSize config ≤ GoInt.maxInt64 →
  let after := Config.UpdateConfig truncSeconds config r strs in
  Cache.config after.1 = config
  ∧ Cache.shardCount after.1 = Cache.shardCount r
  ∧ Config.GetConfig after.1 after.2
    = Queue.mkQueueConfig
        (Queue.AntiStarvationEnabled config)
        (GoInt.wrap64
           (truncSeconds (Queue.MaxWaitTime config) * GoInt.Second))
        (Queue.WorkerCount config) (Queue.BatchSize config)
        (GoInt.wrap64
           (truncSeconds (Queue.ProcessingTimeout config) * GoInt.Second))
  ∧ (GoInt.wrap64 (truncSeconds (Queue.MaxWaitTime config) * GoInt.Second)
     = Queue.MaxWaitTime config →
     GoInt.wrap64
       (truncSeconds (Queue.ProcessingTimeout config) * GoInt.Second)
     = Queue.ProcessingTimeout config →
     Config.GetConfig after.1 after.2 = config).
Proof.
  intros Hwaitint Htimeoutint Hworkers Hbatch. cbv zeta.
  assert (Hget : Config.GetConfig
                   (Config.UpdateConfig truncSeconds config r strs).1
                   (Config.UpdateConfig truncSeconds config r strs).2
                 = Queue.mkQueueConfig
                     (Queue.AntiStarvationEnabled config)
                     (GoInt.wrap64
                        (truncSeconds (Queue.MaxWaitTime config)
                         * GoInt.Second))
                     (Queue.WorkerCount config) (Queue.BatchSize config)
                     (GoInt.wrap64
                        (truncSeconds (Queue.ProcessingTimeout config)
                         * GoInt.Second))).
  { unfold Config.UpdateConfig, Config.GetConfig. cbn [fst snd].
    rewrite lookup_insert_eq.
    rewrite SplitColon_cons
      by (by destruct (Queue.AntiStarvationEnabled config)).
    rewrite !SplitColon_cons by apply pretty_noColon.
    rewrite SplitColon_one by apply pretty_noColon.
    rewrite !AtoiValue_pretty by done.
    f_equal. by destruct (Queue.AntiStarvationEnabled config). }
  split; [done |]. split; [done |]. split; [exact Hget |].
  intros Hwait Htimeout. rewrite Hget, Hwait, Htimeout.
  by destruct config.
Qed.

Lemma stored_config_round_trip_witness :
  let after :=
    Config.UpdateConfig (λ d, Z.quot d GoInt.Second) Sample.cfg
      Sample.manager ∅ in
  after.2 !! "queue:config" = Some "true:600:4:10:30"
  ∧ Config.GetConfig after.1 after.2 = Sample.cfg.
Proof.
  split; [by vm_compute |].
  apply (stored_config_round_trip (λ d, Z.quot d GoInt.Second) Sample.cfg
           Sample.manager ∅); by vm_compute.
Defined.
(** ** The game family a parsed command names *)

Section FamilyText.

Lemma noUpper_differs (s s' : string) : noUpper s → ¬ noUpper s' → s' ≠ s.
Proof. intros Hs Hs' ->. done. Qed.

End FamilyText.

(** X29. [Parse] lower-cases the text before it matches it, so the game
    family of a parsed priority change holds no upper-case letter (given
    that [ToLower] leaves none and that [TrimSpace] and the submatches of
    a regular expression are cut out of their argument); its priority is
    between 1 and 5.  Run with these parameters over the in-memory
    repository, the priority change of the ad service therefore changes
    no aggregate whose game family holds an upper-case letter. *)
Theorem parsed_family_is_lower_case
    (ToLower TrimSpace : string → string)
    (Contains MatchString : string → string → bool)
    (FindStringSubmatch : string → string → list string)
    (newID : string) (now : GoInt.Time) (text : string)
    (cmd : Command.Command) :
  (∀ s, noUpper (ToLower s)) →
  (∀ s, noUpper s → noUpper (TrimSpace s)) →
  (∀ pattern s m, noUpper s → m ∈ FindStringSubmatch pattern s →
                  noUpper m) →
  Parser.Parse ToLower TrimSpace Contains MatchString FindStringSubmatch
               newID now text = inl cmd →
  Command.intent cmd = "change_priority_by_game_family" →
  ∃ gameFamily priority,
    Command.GetStringParameter "gameFamily" cmd = (gameFamily, true)
    ∧ Command.GetPriorityParameter "priority" cmd = (priority, true)
    ∧ noUpper gameFamily
    ∧ 1 ≤ priority ≤ 5
    ∧ ∀ (range : gmap string Ad.Ad → list (string * Ad.Ad))
        (r : Cache.RedisQueueManager) (ads : gmap string Ad.Ad)
        (db : gmap string (gmap string Z)) (id : string) (a : Ad.Ad),
        (∀ m, range m ≡ₚ map_to_list m) → keyed ads →
        Cache.shardCount r ≠ 0 →
        ads !! id = Some a → ¬ noUpper (Ad.gameFamily a) →
        (Service.ChangePriorityForGameFamily range r gameFamily priority
                                             ads db).1.1 !! id
        = Some a.
Proof.
  intros Hlower Htrim Hsub Hparse Hintent.
  unfold Parser.Parse in Hparse.
  set (norm := TrimSpace (ToLower text)) in *.
  assert (Hnorm : noUpper norm) by apply Htrim, Hlower.
  assert (Hfamily : Parser.parsePriorityChangeByGameFamily TrimSpace
                      FindStringSubmatch newID now norm = inl cmd).
  { repeat match type of Hparse with
           | (if ?b then _ else _) = _ => destruct b
           end; try done.
    - unfold Parser.parsePriorityChangeByAge in Hparse.
      destruct (FindStringSubmatch _ _) as [| ? [| m1 [| m2 [| ? ?]]]];
        try done.
      destruct (Strconv.Atoi m1); [| done]. destruct (_ || _); [done |].
      destruct (Strconv.Atoi m2); [| done].
      injection Hparse as <-. done.
    - unfold Parser.parseShowNextAds in Hparse.
      destruct (FindStringSubmatch _ _) as [| ? [| m1 [| ? ?]]]; try done.
      destruct (Strconv.Atoi m1) as [count |]; [| done].
      destruct (count <=? 0); [done |]. injection Hparse as <-. done.
    - injection Hparse as <-. done.
    - unfold Parser.parseWaitingAds in Hparse.
      destruct (FindStringSubmatch _ _) as [| ? [| m1 [| ? ?]]]; try done.
      destruct (Strconv.Atoi m1); [| done]. injection Hparse as <-. done.
    - injection Hparse as <-. done.
    - unfold Parser.parseSetMaxWaitTime in Hparse.
      destruct (FindStringSubmatch _ _) as [| ? [| m1 [| ? ?]]]; try done.
      destruct (Strconv.Atoi m1); [| done]. injection Hparse as <-. done. }
  clear Hparse. unfold Parser.parsePriorityChangeByGameFamily in Hfamily.
  destruct (FindStringSubmatch _ norm) as [| m0 [| m1 [| m2 [| ? ?]]]]
    eqn:Hmatches; try done.
  destruct (Strconv.Atoi m1) as [priority |]; [| done].
  destruct (_ || _) eqn:Hrange; [done |].
  injection Hfamily as <-.
  assert (Hm2 : noUpper (TrimSpace m2)).
  { apply Htrim.
    apply (Hsub "change priority to (\d+) for all ads in the (.+) family"
                norm m2 Hnorm).
    rewrite Hmatches. right. right. by left. }
  exists (TrimSpace m2), priority.
  assert (Hvalid : Ad.IsValid priority = true) by by apply valid_priority.
  split; [| split; [| split; [done | split]]].
  - unfold Command.GetStringParameter. cbn.
    by rewrite lookup_insert_ne, lookup_insert_eq by done.
  - unfold Command.GetPriorityParameter, Command.GetIntParameter. cbn.
    rewrite lookup_insert_eq. by rewrite Hvalid.
  - unfold Ad.IsValid in Hvalid. lia.
  - intros range r ads db id a Hrange' Hkeyed Hshards Ha Hupper.
    destruct (family_change_spec range r (TrimSpace m2) priority ads db
                Hrange' Hkeyed Hvalid Hshards)
      as (ads' & db' & -> & Hads & _).
    cbn [fst]. rewrite Hads, Ha. cbn.
    assert (Hnot : targeted (TrimSpace m2) a = false).
    { apply not_true_is_false. rewrite targeted_spec. intros [Hf _].
      by apply (noUpper_differs (TrimSpace m2) (Ad.gameFamily a)). }
    by rewrite Hnot.
Qed.

Lemma parsed_family_is_lower_case_witness :
  let find := λ (_ s : string), [s; "5"; "rpg-fantasy"] in
  ∃ gameFamily priority,
    Command.GetStringParameter "gameFamily"
      (Command.NewCommand Sample.idC Sample.t0
         "change priority to 5 for all ads in the rpg-fantasy family"
         Command.CommandTypeQueueModification
         "change_priority_by_game_family"
         (<["priority" := Command.VInt 5]>
            (<["gameFamily" := Command.VString "rpg-fantasy"]> ∅)))
    = (gameFamily, true)
    ∧ gameFamily = "rpg-fantasy"
    ∧ noUpper gameFamily
    ∧ (Service.ChangePriorityForGameFamily map_to_list Sample.manager
         gameFamily priority Sample.ads2 Sample.db3).1.1 !! Sample.idA
      = Some (Sample.queuedAd Sample.idA 2).
Proof.
  destruct (parsed_family_is_lower_case
              (λ _, "change priority to 5 for all ads in the rpg-fantasy family")
              id (λ _ _, false) (λ _ _, true)
              (λ (_ s : string), [s; "5"; "rpg-fantasy"])
              Sample.idC Sample.t0
              "Change priority to 5 for all ads in the RPG-Fantasy family"
              (Command.NewCommand Sample.idC Sample.t0
                 "change priority to 5 for all ads in the rpg-fantasy family"
                 Command.CommandTypeQueueModification
                 "change_priority_by_game_family"
                 (<["priority" := Command.VInt 5]>
                    (<["gameFamily" := Command.VString "rpg-fantasy"]> ∅))))
    as (gameFamily & priority & Hfamily & _ & Hlower & _ & Hkept).
  - intros s. by vm_compute.
  - intros s Hs. exact Hs.
  - intros pattern s m Hs Hm.
    apply elem_of_cons in Hm as [-> | Hm]; [done |].
    apply elem_of_cons in Hm as [-> | Hm]; [by vm_compute |].
    apply list_elem_of_singleton in Hm as ->. by vm_compute.
  - by vm_compute.
  - reflexivity.
  - exists gameFamily, priority. split; [exact Hfamily |].
    assert (Hg : gameFamily = "rpg-fantasy").
    { vm_compute in Hfamily. by injection Hfamily as <-. }
    split; [exact Hg |]. split; [exact Hlower |].
    apply (Hkept map_to_list Sample.manager Sample.ads2 Sample.db3
             Sample.idA (Sample.queuedAd Sample.idA 2)).
    + intros m. reflexivity.
    + unfold Sample.ads2. apply keyed_Save, keyed_Save, keyed_empty.
    + done.
    + by vm_compute.
    + by vm_compute.
Defined.
